(** * The block-tree terms dictionary reader of golucene

    A shallow embedding of [index/BlockTreeTermsReader] (the dictionary
    reader, the per-field reader, the segment terms cursor and its frames)
    and of [util.SegmentFileName], with the properties of the
    specification stated over it.

    Conventions of the embedding.
    - Go's [int] is taken to be 64 bits wide.  Integers are [Z]; the
      conversions the source writes ([int64(uint64(n) >> 2)],
      [int(uint(code) >> 1)], byte subtraction) are written out with their
      wrap-around.  Sums of slice lengths and small indexes cannot leave
      the 64-bit range and are left as they are.
    - A Go call that returns [(v, err)] is a function into a triple
      (new state of the receiver, value, optional error), so that a caller
      which drops [err] can be transcribed as it is written.
    - A function that may panic returns an [outcome]: a value, an error
      handed back to the caller, or a panic with its message.  A panic is
      never recovered in this package, it ends the run.
    - Pointers into the frame stack are indexes ([-1] is the static
      frame); pointers into the arc stack are slot numbers. *)

From Stdlib Require Import ZArith Lia.
From Stdlib Require Import Strings.Byte.
From stdpp Require Import base option list gmap strings.

Local Open Scope Z_scope.

(** ** Outcomes *)

Inductive error : Type :=
| EOF
| InvalidVarInt
| ExternalError (msg : string)
| MismatchedVersion (version indexVersion : Z)
| InvalidNumFields (numFields : Z)
| InvalidDocCount (docCount maxDoc : Z)
| InvalidSumDocFreq (sumDocFreq docCount : Z)
| InvalidSumTotalTermFreq (sumTotalTermFreq sumDocFreq : Z)
| DuplicateField (name : string).

(** The fixed part of the message each error is created with
    ([errors.New(fmt.Sprintf(...))] in the source). *)
Definition error_text (e : error) : string :=
  match e with
  | EOF => "EOF"
  | InvalidVarInt => "invalid vInt"
  | ExternalError msg => msg
  | MismatchedVersion _ _ => "mixmatched version files: "
  | InvalidNumFields _ => "invalid numFields: "
  | InvalidDocCount _ _ => "invalid docCount: "
  | InvalidSumDocFreq _ _ => "invalid sumDocFreq: "
  | InvalidSumTotalTermFreq _ _ => "invalid sumTotalTermFreq: "
  | DuplicateField _ => "duplicate field: "
  end.

(** The errors that report a corrupt index, as opposed to a failed read or
    a failure of a collaborator. *)
Definition is_corrupt_index (e : error) : bool :=
  match e with
  | EOF | InvalidVarInt | ExternalError _ => false
  | _ => true
  end.

(** The field name an error message cites, if it cites one. *)
Definition error_field (e : error) : option string :=
  match e with
  | DuplicateField name => Some name
  | _ => None
  end.

(** How a call ends: it returns with a nil error, it returns a non-nil
    error, or it panics.  The values a function of the source returns next
    to a non-nil error, and the state a failed call leaves behind, are not
    kept. *)
Inductive outcome (A : Type) : Type :=
| Ok (a : A)
| Err (e : error)
| Panic (msg : string).
Arguments Ok {A} a.
Arguments Err {A} e.
Arguments Panic {A} msg.

#[global] Instance outcome_ret : MRet outcome := λ A a, Ok a.
#[global] Instance outcome_bind : MBind outcome := λ A B k m,
  match m with
  | Ok a => k a
  | Err e => Err e
  | Panic msg => Panic msg
  end.

Definition is_Ok {A} (m : outcome A) : bool :=
  match m with Ok _ => true | _ => false end.

(** ** Machine integers and bytes *)

Definition wrap_signed (w : Z) (x : Z) : Z :=
  (x + 2 ^ (w - 1)) mod 2 ^ w - 2 ^ (w - 1).
Definition to_int32 : Z → Z := wrap_signed 32.
Definition to_int64 : Z → Z := wrap_signed 64.
Definition to_uint64 (x : Z) : Z := x mod 2 ^ 64.

(** [int(b)] for a byte [b]. *)
Definition int_of_byte (b : byte) : Z := Z.of_N (Byte.to_N b).
(** [byte(x)] for an integer [x]: the low eight bits. *)
Definition byte_of_int (x : Z) : byte :=
  default x00 (Byte.of_N (Z.to_N (x mod 256))).
(** [a - b] on the type [byte], which wraps. *)
Definition byte_sub (a b : byte) : byte :=
  byte_of_int (int_of_byte a - int_of_byte b).

(** [l[i]] for a Go [int] index; [None] stands for the index-out-of-range
    panic, which each caller turns into its own [Panic]. *)
Definition at_index {A} (l : list A) (i : Z) : option A :=
  if i <? 0 then None else l !! Z.to_nat i.

Definition index_panic : string := "index out of range".
Definition nil_panic : string := "nil pointer dereference".

(** ** Byte-stream primitives *)

(** Modelled from the spec: the variable-length integers of the byte
    cursors ([store.DataInput], not among the sources).  Seven payload
    bits per byte, lowest group first, the top bit of a byte marks a
    continuation; [limit] bounds the number of bytes (5 for a vInt, 9 for a
    vLong).  The result is the value and the number of bytes consumed. *)
Fixpoint decode_var (limit : nat) (shift : Z) (bs : list byte)
  : error + (Z * Z) :=
  match limit, bs with
  | O, _ => inl InvalidVarInt
  | _, [] => inl EOF
  | S limit', b :: bs' =>
      let v := int_of_byte b in
      let low := Z.shiftl (Z.land v 127) shift in
      if Z.testbit v 7 then
        match decode_var limit' (shift + 7) bs' with
        | inr (r, k) => inr (Z.lor low r, 1 + k)
        | inl e => inl e
        end
      else inr (low, 1)
  end.

(** Modelled from the spec: [store.ByteArrayDataInput], an in-memory cursor
    over a byte slice.  A failed read reports the error, yields the zero
    value and leaves the position where it was. *)
Record ByteArrayDataInput : Type := mkDataInput {
  bytes : list byte;
  Pos : Z
}.

Definition NewEmptyByteArrayDataInput : ByteArrayDataInput := mkDataInput [] 0.
Definition NewByteArrayDataInput (b : list byte) : ByteArrayDataInput :=
  mkDataInput b 0.
Definition din_Reset (b : list byte) : ByteArrayDataInput := mkDataInput b 0.
Definition din_Rewind (r : ByteArrayDataInput) : ByteArrayDataInput :=
  mkDataInput (bytes r) 0.
Definition din_SkipBytes (r : ByteArrayDataInput) (n : Z) : ByteArrayDataInput :=
  mkDataInput (bytes r) (Pos r + n).

Definition rest_from {A} (l : list A) (pos : Z) : list A :=
  if pos <? 0 then [] else drop (Z.to_nat pos) l.

Definition din_ReadByte (r : ByteArrayDataInput)
  : ByteArrayDataInput * byte * option error :=
  match at_index (bytes r) (Pos r) with
  | Some b => (mkDataInput (bytes r) (Pos r + 1), b, None)
  | None => (r, x00, Some EOF)
  end.

Definition din_ReadVar (limit : nat) (r : ByteArrayDataInput)
  : ByteArrayDataInput * Z * option error :=
  match decode_var limit 0 (rest_from (bytes r) (Pos r)) with
  | inr (v, k) => (mkDataInput (bytes r) (Pos r + k), v, None)
  | inl e => (r, 0, Some e)
  end.

Definition din_ReadVInt (r : ByteArrayDataInput) :=
  let '(r', v, err) := din_ReadVar 5 r in (r', to_int32 v, err).
Definition din_ReadVLong (r : ByteArrayDataInput) :=
  let '(r', v, err) := din_ReadVar 9 r in (r', to_int64 v, err).

(** Modelled from the spec: [store.IndexInput], a seekable view of a file
    ([tim] or [tip]).  Every call on it is recorded in [io_log], the
    counting wrapper the specification uses to observe I/O; a clone has its
    own position and its own log and shares the bytes. *)
Inductive io_op : Type :=
| IoSeek (pos : Z)
| IoRead (count : Z).

Record IndexInput : Type := mkInput {
  file : list byte;
  fpos : Z;
  io_log : list io_op
}.

Definition in_Length (i : IndexInput) : Z := Z.of_nat (length (file i)).
Definition in_FilePointer (i : IndexInput) : Z := fpos i.
Definition in_Clone (i : IndexInput) : IndexInput := mkInput (file i) (fpos i) [].
Definition in_Seek (i : IndexInput) (pos : Z) : IndexInput :=
  mkInput (file i) pos (IoSeek pos :: io_log i).

Definition in_ReadVar (limit : nat) (i : IndexInput)
  : IndexInput * Z * option error :=
  match decode_var limit 0 (rest_from (file i) (fpos i)) with
  | inr (v, k) => (mkInput (file i) (fpos i + k) (IoRead k :: io_log i), v, None)
  | inl e => (mkInput (file i) (fpos i) (IoRead 0 :: io_log i), 0, Some e)
  end.

Definition in_ReadVInt (i : IndexInput) :=
  let '(i', v, err) := in_ReadVar 5 i in (i', to_int32 v, err).
Definition in_ReadVLong (i : IndexInput) :=
  let '(i', v, err) := in_ReadVar 9 i in (i', to_int64 v, err).

(** [ReadBytes(buf)] fills the whole of [buf]: it reads [len(buf)] bytes. *)
Definition in_ReadBytes (i : IndexInput) (buf : list byte)
  : IndexInput * list byte * option error :=
  let n := length buf in
  let src := rest_from (file i) (fpos i) in
  if (0 <=? fpos i) && (n <=? length src)%nat then
    (mkInput (file i) (fpos i + Z.of_nat n) (IoRead (Z.of_nat n) :: io_log i),
     take n src, None)
  else (mkInput (file i) (fpos i) (IoRead 0 :: io_log i), buf, Some EOF).

(** Big-endian value of a run of bytes. *)
Definition be_value (bs : list byte) : Z :=
  fold_left (λ acc b, acc * 256 + int_of_byte b) bs 0.

Definition in_ReadLong (i : IndexInput) : IndexInput * Z * option error :=
  let '(i', bs, err) := in_ReadBytes i (replicate 8 x00) in
  match err with
  | None => (i', to_int64 (be_value bs), None)
  | Some e => (i', 0, Some e)
  end.

(** ** util.SegmentFileName *)

Definition SegmentFileName (name suffix ext : string) : string :=
  if (0 <? String.length ext)%nat || (0 <? String.length suffix)%nat then
    (name
     +:+ (if (0 <? String.length suffix)%nat then "_" +:+ suffix else "")
     +:+ (if (0 <? String.length ext)%nat then "." +:+ ext else ""))%string
  else name.

(** ** Constants of the block-tree format *)

Definition BTT_OUTPUT_FLAGS_NUM_BITS : Z := 2.
Definition BTT_OUTPUT_FLAG_IS_FLOOR : Z := 1.
Definition BTT_OUTPUT_FLAG_HAS_TERMS : Z := 2.

Definition BTT_EXTENSION : string := "tim".
Definition BTT_CODEC_NAME : string := "BLOCK_TREE_TERMS_DICT".
Definition BTT_VERSION_START : Z := 0.
Definition BTT_VERSION_APPEND_ONLY : Z := 1.
Definition BTT_VERSION_CURRENT : Z := BTT_VERSION_APPEND_ONLY.

Definition BTT_INDEX_EXTENSION : string := "tip".
Definition BTT_INDEX_CODEC_NAME : string := "BLOCK_TREE_TERMS_INDEX".
Definition BTT_INDEX_VERSION_START : Z := 0.
Definition BTT_INDEX_VERSION_APPEND_ONLY : Z := 1.
Definition BTT_INDEX_VERSION_CURRENT : Z := BTT_INDEX_VERSION_APPEND_ONLY.

(** ** Collaborators

    The types below belong to other files of the package ([FieldInfo],
    [SegmentInfo], [BlockTermState], [PostingsReaderBase]) or to [util]
    ([Arc], [FST]); only the fields and methods the reader uses appear. *)

Record FieldInfo : Type := mkFieldInfo {
  fi_number : Z;
  fi_name : string;
  indexOptions : Z
}.

(** The zero value of the struct, what indexing a Go map yields for a key
    that is not in it. *)
Definition zeroFieldInfo : FieldInfo := mkFieldInfo 0 "" 0.

Record FieldInfos : Type := mkFieldInfos {
  byNumber : gmap Z FieldInfo
}.

Record SegmentInfo : Type := mkSegmentInfo {
  si_name : string;
  si_docCount : Z
}.

Record BlockTermState : Type := mkTermState {
  termBlockOrd : Z;
  totalTermFreq : Z;
  postingsBlob : list byte
}.

Record PostingsReaderBase : Type := mkPostings {
  pr_Init : IndexInput → IndexInput;
  pr_NewTermState : BlockTermState;
  pr_ReadTermsBlock : IndexInput → FieldInfo → BlockTermState
                      → IndexInput * BlockTermState
}.

(** Modelled from the spec: [util.Arc], an arc of the index (the package
    [util] of the index is not among the sources).  [Output] is an
    interface value in the source and may be nil; the empty sequence is the
    [NoOutput] of the byte-sequence outputs, and [Add] is concatenation.
    [Target] is the node the arc leads to, the topology [FindTargetArc]
    goes by. *)
Record Arc : Type := mkArc {
  Label : Z;
  Output : option (list byte);
  NextFinalOutput : list byte;
  IsFinal : bool;
  Target : Z
}.

(** [&util.Arc{}] *)
Definition zeroArc : Arc := mkArc 0 None [] false 0.

(** Modelled from the spec: the [Add] of the byte-sequence outputs. *)
Definition outputs_Add (a b : list byte) : list byte := a ++ b.

(** Modelled from the spec: what [FindTargetArc(label, follow, arc,
    reader)] of [util.FST] does with the arc it is handed: on a hit it
    fills it and returns it, on a miss it returns nil and may have
    scribbled on it. *)
Inductive lookup : Type :=
| Hit (found : Arc)
| Miss (scratch : Arc)
| Fail (e : error).

(** The index of a field, by the three operations the cursor calls; what
    they compute is left to the index at hand. *)
Record FST : Type := mkFST {
  FirstArc : Arc → Arc;
  FindTargetArc : Z → Arc → Arc → lookup;
  GetFSTOutput : list byte → option (list byte) * option error
}.

(** ** The dictionary reader and the field readers *)

(** What a field reader reaches through its pointer to the reader that owns
    it. *)
Record TermsDict : Type := mkDict {
  dict_in : IndexInput;
  dict_postingsReader : PostingsReaderBase;
  dict_segment : string
}.

Record FieldReader : Type := mkFieldReader {
  owner : option TermsDict;
  numTerms : Z;
  fieldInfo : FieldInfo;
  sumTotalTermFreq : Z;
  sumDocFreq : Z;
  docCount : Z;
  indexStartFP : Z;
  rootBlockFP : Z;
  rootCode : list byte;
  index : option FST
}.

Definition zeroFieldReader : FieldReader :=
  mkFieldReader None 0 zeroFieldInfo 0 0 0 0 0 [] None.

Record BlockTreeTermsReader : Type := mkReader {
  r_in : IndexInput;
  postingsReader : PostingsReaderBase;
  fields : gmap string FieldReader;
  dirOffset : Z;
  indexDirOffset : Z;
  segment : string;
  version : Z
}.

Definition dict_of (r : BlockTreeTermsReader) : TermsDict :=
  mkDict (r_in r) (postingsReader r) (segment r).

Definition with_in (r : BlockTreeTermsReader) (i : IndexInput) :=
  mkReader i (postingsReader r) (fields r) (dirOffset r) (indexDirOffset r)
           (segment r) (version r).
Definition with_fields (r : BlockTreeTermsReader) (m : gmap string FieldReader) :=
  mkReader (r_in r) (postingsReader r) m (dirOffset r) (indexDirOffset r)
           (segment r) (version r).
Definition with_dirOffset (r : BlockTreeTermsReader) (d : Z) :=
  mkReader (r_in r) (postingsReader r) (fields r) d (indexDirOffset r)
           (segment r) (version r).
Definition with_indexDirOffset (r : BlockTreeTermsReader) (d : Z) :=
  mkReader (r_in r) (postingsReader r) (fields r) (dirOffset r) d
           (segment r) (version r).
Definition with_version (r : BlockTreeTermsReader) (v : Z) :=
  mkReader (r_in r) (postingsReader r) (fields r) (dirOffset r)
           (indexDirOffset r) (segment r) v.

(** [Terms]: the result is a pointer, [None] would be nil. *)
Definition Terms (r : BlockTreeTermsReader) (field : string) : option FieldReader :=
  let ans := default zeroFieldReader (fields r !! field) in
  Some ans.

(** What the directory of [tim] holds for one field, as the constructor
    reads it. *)
Record DirEntry : Type := mkDirEntry {
  de_field : Z;
  de_numTerms : Z;
  de_rootCode : list byte;
  de_fieldInfo : FieldInfo;
  de_sumTotalTermFreq : Z;
  de_sumDocFreq : Z;
  de_docCount : Z
}.

Section Construction.

(** [codec.CheckHeader], [util.LoadFST] and the constant
    [INDEX_OPT_DOCS_ONLY] are declared outside the sources at hand. *)
Variable CheckHeader : IndexInput → string → Z → Z → IndexInput * Z * option error.
Variable LoadFST : IndexInput → option FST * option error.
Variable INDEX_OPT_DOCS_ONLY : Z.

Definition newFieldReader (own : TermsDict) (fieldInfo : FieldInfo)
    (numTerms : Z) (rootCode : list byte)
    (sumTotalTermFreq sumDocFreq : Z) (docCount : Z) (indexStartFP : Z)
    (indexIn : option IndexInput) : outcome FieldReader :=
  if numTerms <=? 0 then Panic "assert fail" else
  let r rootFP idx :=
    mkFieldReader (Some own) numTerms fieldInfo sumTotalTermFreq sumDocFreq
                  docCount indexStartFP rootFP rootCode idx in
  let '(_, n, err) := din_ReadVLong (NewByteArrayDataInput rootCode) in
  match err with
  | Some e => Err e
  | None =>
      let rootFP := to_int64 (Z.shiftr (to_uint64 n) BTT_OUTPUT_FLAGS_NUM_BITS) in
      match indexIn with
      | Some ii =>
          let clone := in_Seek (in_Clone ii) indexStartFP in
          match LoadFST clone with
          | (idx, None) => Ok (r rootFP idx)
          | (_, Some e) => Err e
          end
      | None => Ok (r rootFP None)
      end
  end.

Definition readHeader (r : BlockTreeTermsReader)
  : BlockTreeTermsReader * Z * option error :=
  let '(i, version, err) :=
    CheckHeader (r_in r) BTT_CODEC_NAME BTT_VERSION_START BTT_VERSION_CURRENT in
  let r := with_in r i in
  match err with
  | Some e => (r, version, Some e)
  | None =>
      if version <? BTT_VERSION_APPEND_ONLY then
        let '(i, d, err) := in_ReadLong (r_in r) in
        let r := with_dirOffset (with_in r i) d in
        (r, version, err)
      else (r, version, None)
  end.

Definition readIndexHeader (r : BlockTreeTermsReader) (input : IndexInput)
  : BlockTreeTermsReader * IndexInput * Z * option error :=
  let '(i, version, err) :=
    CheckHeader input BTT_INDEX_CODEC_NAME BTT_INDEX_VERSION_START
                BTT_INDEX_VERSION_CURRENT in
  match err with
  | Some e => (r, i, version, Some e)
  | None =>
      if version <? BTT_INDEX_VERSION_APPEND_ONLY then
        let '(i, d, err) := in_ReadLong i in
        (with_indexDirOffset r d, i, version, err)
      else (r, i, version, None)
  end.

(** The caller drops the error of [seekDir]; what is left is its effect
    on the input. *)
Definition seekDir (r : BlockTreeTermsReader) (input : IndexInput) (dirOffset : Z)
  : IndexInput * option error :=
  if BTT_INDEX_VERSION_APPEND_ONLY <=? version r then
    let input := in_Seek input (in_Length input - 8) in
    let '(input, d, err) := in_ReadLong input in
    match err with
    | Some e => (input, Some e)
    | None => (in_Seek input d, None)
    end
  else (in_Seek input dirOffset, None).

(** One turn of the loop over the fields of the directory, in two
    parts: the reads of the entry from [tim], then the checks, the read
    of the index pointer from [tip] and the field reader. *)
Definition readEntry (fieldInfos : FieldInfos) (fp : BlockTreeTermsReader)
  : outcome (DirEntry * BlockTreeTermsReader) :=
  let '(i, field, err) := in_ReadVInt (r_in fp) in
  let fp := with_in fp i in
  match err with Some e => Err e | None =>
  let '(i, numTerms, err) := in_ReadVLong (r_in fp) in
  let fp := with_in fp i in
  match err with Some e => Err e | None =>
  let '(i, numBytes, err) := in_ReadVInt (r_in fp) in
  let fp := with_in fp i in
  match err with Some e => Err e | None =>
  if numBytes <? 0 then Panic "makeslice: len out of range" else
  let '(i, rootCode, err) :=
    in_ReadBytes (r_in fp) (replicate (Z.to_nat numBytes) x00) in
  let fp := with_in fp i in
  match err with Some e => Err e | None =>
  let fieldInfo := default zeroFieldInfo (byNumber fieldInfos !! field) in
  let '(fp, sumTotalTermFreq, err) :=
    if indexOptions fieldInfo =? INDEX_OPT_DOCS_ONLY then (fp, -1, None)
    else let '(i, v, err) := in_ReadVLong (r_in fp) in (with_in fp i, v, err) in
  match err with Some e => Err e | None =>
  let '(i, sumDocFreq, err) := in_ReadVLong (r_in fp) in
  let fp := with_in fp i in
  match err with Some e => Err e | None =>
  let '(i, docCount, err) := in_ReadVInt (r_in fp) in
  let fp := with_in fp i in
  match err with Some e => Err e | None =>
  Ok (mkDirEntry field numTerms rootCode fieldInfo sumTotalTermFreq
                 sumDocFreq docCount, fp)
  end end end end end end end.

Definition readIndexStart (indexDivisor : Z) (indexIn : option IndexInput)
  : outcome (Z * option IndexInput) :=
  if negb (indexDivisor =? -1) then
    match indexIn with
    | Some ii =>
        let '(ii, v, err) := in_ReadVLong ii in
        match err with
        | Some e => Err e
        | None => Ok (v, Some ii)
        end
    | None => Panic nil_panic
    end
  else Ok (0, indexIn).

Definition readField (fieldInfos : FieldInfos) (info : SegmentInfo)
    (indexDivisor : Z) (fp : BlockTreeTermsReader) (indexIn : option IndexInput)
  : outcome (BlockTreeTermsReader * option IndexInput) :=
  '(d, fp) ← readEntry fieldInfos fp;
  if (de_docCount d <? 0) || (si_docCount info <? de_docCount d) then
    Err (InvalidDocCount (de_docCount d) (si_docCount info))
  else if de_sumDocFreq d <? to_int64 (de_docCount d) then
    Err (InvalidSumDocFreq (de_sumDocFreq d) (de_docCount d))
  else if negb (de_sumTotalTermFreq d =? -1)
          && (de_sumTotalTermFreq d <? de_sumDocFreq d) then
    Err (InvalidSumTotalTermFreq (de_sumTotalTermFreq d) (de_sumDocFreq d))
  else
    '(indexStartFP, indexIn) ← readIndexStart indexDivisor indexIn;
    if bool_decide (is_Some (fields fp !! fi_name (de_fieldInfo d))) then
      Err (DuplicateField (fi_name (de_fieldInfo d)))
    else
      r ← newFieldReader (dict_of fp) (de_fieldInfo d) (de_numTerms d)
             (de_rootCode d) (de_sumTotalTermFreq d) (de_sumDocFreq d)
             (de_docCount d) indexStartFP indexIn;
      Ok (with_fields fp (<[fi_name (de_fieldInfo d) := r]> (fields fp)),
          indexIn).

Fixpoint readFields (fieldInfos : FieldInfos) (info : SegmentInfo)
    (indexDivisor : Z) (n : nat) (fp : BlockTreeTermsReader)
    (indexIn : option IndexInput)
  : outcome (BlockTreeTermsReader * option IndexInput) :=
  match n with
  | O => Ok (fp, indexIn)
  | S n' =>
      '(fp, indexIn) ← readField fieldInfos info indexDivisor fp indexIn;
      readFields fieldInfos info indexDivisor n' fp indexIn
  end.

(** The directory of a segment: the files it can open. *)
Definition Directory : Type := string → option IndexInput.

Definition OpenInput (dir : Directory) (name : string) : outcome IndexInput :=
  match dir name with
  | Some i => Ok i
  | None => Err (ExternalError "file not found")
  end.

(** The constructor up to the loop over the fields: the two files opened,
    their headers read and compared, both inputs at their directory, and
    the number of fields read from [tim]. *)
Definition openDirectory (dir : Directory) (info : SegmentInfo)
    (postings : PostingsReaderBase) (segmentSuffix : string) (indexDivisor : Z)
  : outcome (BlockTreeTermsReader * option IndexInput * Z) :=
  i ← OpenInput dir (SegmentFileName (si_name info) segmentSuffix BTT_EXTENSION);
  let fp := mkReader i postings ∅ 0 0 (si_name info) 0 in
  let '(fp, ver, err) := readHeader fp in
  let fp := with_version fp ver in
  match err with Some e => Err e | None =>
  opened ←
    (if negb (indexDivisor =? -1) then
       ii ← OpenInput dir (SegmentFileName (si_name info) segmentSuffix
                                           BTT_INDEX_EXTENSION);
       let '(fp, ii, indexVersion, err) := readIndexHeader fp ii in
       match err with
       | Some e => Err e
       | None =>
           if negb (indexVersion =? version fp) then
             Err (MismatchedVersion (version fp) indexVersion)
           else Ok (fp, Some ii)
       end
     else Ok (fp, None));
  let '(fp, indexIn) := opened in
  let fp := with_in fp (pr_Init postings (r_in fp)) in
  let fp := with_in fp (fst (seekDir fp (r_in fp) (dirOffset fp))) in
  let indexIn :=
    if negb (indexDivisor =? -1) then
      match indexIn with
      | Some ii => Some (fst (seekDir fp ii (indexDirOffset fp)))
      | None => None
      end
    else indexIn in
  let '(i, numFields, err) := in_ReadVInt (r_in fp) in
  let fp := with_in fp i in
  match err with Some e => Err e | None =>
  if numFields <? 0 then Err (InvalidNumFields numFields)
  else Ok (fp, indexIn, numFields)
  end end.

(** The constructor.  The deferred clean-up closes the inputs when it
    fails and has no part in the result; the closing of the index input at
    the end is taken not to fail. *)
Definition newBlockTreeTermsReader (dir : Directory) (fieldInfos : FieldInfos)
    (info : SegmentInfo) (postings : PostingsReaderBase)
    (segmentSuffix : string) (indexDivisor : Z)
  : outcome BlockTreeTermsReader :=
  '(fp, indexIn, numFields) ←
    openDirectory dir info postings segmentSuffix indexDivisor;
  '(fp, _) ← readFields fieldInfos info indexDivisor (Z.to_nat numFields) fp indexIn;
  Ok fp.

End Construction.

(** ** Byte slices with a capacity

    The current-term buffer is a Go slice that is indexed, appended to and
    re-sliced up to its capacity.  A slice is its bytes, [visible], and
    the rest of its backing array up to the capacity, [spare]. *)
Record slice : Type := mkSlice {
  visible : list byte;
  spare : list byte
}.

Definition slice_cap (s : slice) : nat := (length (visible s) + length (spare s))%nat.
Definition slice_len (s : slice) : Z := Z.of_nat (length (visible s)).
Definition slice_bytes (s : slice) : list byte := visible s.
Definition backing (s : slice) : list byte := visible s ++ spare s.
(** The slice of length [n] on a backing array. *)
Definition slice_on (all : list byte) (n : nat) : slice :=
  mkSlice (take n all) (drop n all).

(** [s[i]] *)
Definition slice_get (s : slice) (i : Z) : option byte :=
  if (0 <=? i) && (i <? slice_len s) then visible s !! Z.to_nat i else None.
(** [s[i] = b] *)
Definition slice_set (s : slice) (i : Z) (b : byte) : option slice :=
  if (0 <=? i) && (i <? slice_len s)
  then Some (mkSlice (<[Z.to_nat i := b]> (visible s)) (spare s))
  else None.
(** [make([]byte, n, c)] followed by [copy(next, s)] *)
Definition slice_regrow (s : slice) (n c : nat) : slice :=
  let copied := take n (visible s) in
  slice_on (copied ++ replicate (c - length copied) x00) n.
(** [s[0:n]] *)
Definition slice_upto (s : slice) (n : Z) : option slice :=
  if (0 <=? n) && (n <=? Z.of_nat (slice_cap s))
  then Some (slice_on (backing s) (Z.to_nat n))
  else None.

(** ** Frames and the cursor *)

Record segmentTermsEnumFrame : Type := mkFrame {
  ord : Z;
  hasTerms : bool;
  hasTermsOrig : bool;
  isFloor : bool;
  arc : option nat;
  fp : Z;
  fpOrig : Z;
  fpEnd : Z;
  suffixBytes : list byte;
  suffixesReader : ByteArrayDataInput;
  statBytes : list byte;
  statsReader : ByteArrayDataInput;
  floorData : list byte;
  floorDataReader : ByteArrayDataInput;
  prefix : Z;
  entCount : Z;
  nextEnt : Z;
  isLastInFloor : bool;
  isLeafBlock : bool;
  lastSubFP : Z;
  nextFloorLabel : Z;
  numFollowFloorBlocks : Z;
  metaDataUpto : Z;
  state : BlockTermState;
  startBytePos : Z;
  suffix : Z;
  subCode : Z
}.

Definition set_ord (v : Z) (r : segmentTermsEnumFrame) : segmentTermsEnumFrame :=
  mkFrame v (hasTerms r) (hasTermsOrig r) (isFloor r) (arc r) (fp r)
    (fpOrig r) (fpEnd r) (suffixBytes r) (suffixesReader r) (statBytes r)
    (statsReader r) (floorData r) (floorDataReader r) (prefix r)
    (entCount r) (nextEnt r) (isLastInFloor r) (isLeafBlock r) (lastSubFP r)
    (nextFloorLabel r) (numFollowFloorBlocks r) (metaDataUpto r) (state r)
    (startBytePos r) (suffix r) (subCode r).
Definition set_hasTerms (v : bool) (r : segmentTermsEnumFrame) : segmentTermsEnumFrame :=
  mkFrame (ord r) v (hasTermsOrig r) (isFloor r) (arc r) (fp r) (fpOrig r)
    (fpEnd r) (suffixBytes r) (suffixesReader r) (statBytes r)
    (statsReader r) (floorData r) (floorDataReader r) (prefix r) (entCount r) (nextEnt r)
    (isLastInFloor r) (isLeafBlock r) (lastSubFP r) (nextFloorLabel r)
    (numFollowFloorBlocks r) (metaDataUpto r) (state r) (startBytePos r)
    (suffix r) (subCode r).
Definition set_hasTermsOrig (v : bool) (r : segmentTermsEnumFrame) : segmentTermsEnumFrame :=
  mkFrame (ord r) (hasTerms r) v (isFloor r) (arc r) (fp r) (fpOrig r)
    (fpEnd r) (suffixBytes r) (suffixesReader r) (statBytes r)
    (statsReader r) (floorData r) (floorDataReader r) (prefix r) (entCount r) (nextEnt r)
    (isLastInFloor r) (isLeafBlock r) (lastSubFP r) (nextFloorLabel r)
    (numFollowFloorBlocks r) (metaDataUpto r) (state r) (startBytePos r)
    (suffix r) (subCode r).
Definition set_isFloor (v : bool) (r : segmentTermsEnumFrame) : segmentTermsEnumFrame :=
  mkFrame (ord r) (hasTerms r) (hasTermsOrig r) v (arc r) (fp r) (fpOrig r)
    (fpEnd r) (suffixBytes r) (suffixesReader r) (statBytes r)
    (statsReader r) (floorData r) (floorDataReader r) (prefix r) (entCount r) (nextEnt r)
    (isLastInFloor r) (isLeafBlock r) (lastSubFP r) (nextFloorLabel r)
    (numFollowFloorBlocks r) (metaDataUpto r) (state r) (startBytePos r)
    (suffix r) (subCode r).
Definition set_arc (v : option nat) (r : segmentTermsEnumFrame) : segmentTermsEnumFrame :=
  mkFrame (ord r) (hasTerms r) (hasTermsOrig r) (isFloor r) v (fp r)
    (fpOrig r) (fpEnd r) (suffixBytes r) (suffixesReader r) (statBytes r)
    (statsReader r) (floorData r) (floorDataReader r) (prefix r)
    (entCount r) (nextEnt r) (isLastInFloor r) (isLeafBlock r) (lastSubFP r)
    (nextFloorLabel r) (numFollowFloorBlocks r) (metaDataUpto r) (state r)
    (startBytePos r) (suffix r) (subCode r).
Definition set_fp (v : Z) (r : segmentTermsEnumFrame) : segmentTermsEnumFrame :=
  mkFrame (ord r) (hasTerms r) (hasTermsOrig r) (isFloor r) (arc r) v
    (fpOrig r) (fpEnd r) (suffixBytes r) (suffixesReader r) (statBytes r)
    (statsReader r) (floorData r) (floorDataReader r) (prefix r)
    (entCount r) (nextEnt r) (isLastInFloor r) (isLeafBlock r) (lastSubFP r)
    (nextFloorLabel r) (numFollowFloorBlocks r) (metaDataUpto r) (state r)
    (startBytePos r) (suffix r) (subCode r).
Definition set_fpOrig (v : Z) (r : segmentTermsEnumFrame) : segmentTermsEnumFrame :=
  mkFrame (ord r) (hasTerms r) (hasTermsOrig r) (isFloor r) (arc r) (fp r) v
    (fpEnd r) (suffixBytes r) (suffixesReader r) (statBytes r)
    (statsReader r) (floorData r) (floorDataReader r) (prefix r) (entCount r) (nextEnt r)
    (isLastInFloor r) (isLeafBlock r) (lastSubFP r) (nextFloorLabel r)
    (numFollowFloorBlocks r) (metaDataUpto r) (state r) (startBytePos r)
    (suffix r) (subCode r).
Definition set_fpEnd (v : Z) (r : segmentTermsEnumFrame) : segmentTermsEnumFrame :=
  mkFrame (ord r) (hasTerms r) (hasTermsOrig r) (isFloor r) (arc r) (fp r)
    (fpOrig r) v (suffixBytes r) (suffixesReader r) (statBytes r)
    (statsReader r) (floorData r) (floorDataReader r) (prefix r)
    (entCount r) (nextEnt r) (isLastInFloor r) (isLeafBlock r) (lastSubFP r)
    (nextFloorLabel r) (numFollowFloorBlocks r) (metaDataUpto r) (state r)
    (startBytePos r) (suffix r) (subCode r).
Definition set_suffixBytes (v : list byte) (r : segmentTermsEnumFrame) : segmentTermsEnumFrame :=
  mkFrame (ord r) (hasTerms r) (hasTermsOrig r) (isFloor r) (arc r) (fp r)
    (fpOrig r) (fpEnd r) v (suffixesReader r) (statBytes r) (statsReader r)
    (floorData r) (floorDataReader r) (prefix r) (entCount r) (nextEnt r)
    (isLastInFloor r) (isLeafBlock r) (lastSubFP r) (nextFloorLabel r)
    (numFollowFloorBlocks r) (metaDataUpto r) (state r) (startBytePos r)
    (suffix r) (subCode r).
Definition set_suffixesReader (v : ByteArrayDataInput) (r : segmentTermsEnumFrame) : segmentTermsEnumFrame :=
  mkFrame (ord r) (hasTerms r) (hasTermsOrig r) (isFloor r) (arc r) (fp r)
    (fpOrig r) (fpEnd r) (suffixBytes r) v (statBytes r) (statsReader r)
    (floorData r) (floorDataReader r) (prefix r) (entCount r) (nextEnt r)
    (isLastInFloor r) (isLeafBlock r) (lastSubFP r) (nextFloorLabel r)
    (numFollowFloorBlocks r) (metaDataUpto r) (state r) (startBytePos r)
    (suffix r) (subCode r).
Definition set_statBytes (v : list byte) (r : segmentTermsEnumFrame) : segmentTermsEnumFrame :=
  mkFrame (ord r) (hasTerms r) (hasTermsOrig r) (isFloor r) (arc r) (fp r)
    (fpOrig r) (fpEnd r) (suffixBytes r) (suffixesReader r) v
    (statsReader r) (floorData r) (floorDataReader r) (prefix r) (entCount r) (nextEnt r)
    (isLastInFloor r) (isLeafBlock r) (lastSubFP r) (nextFloorLabel r)
    (numFollowFloorBlocks r) (metaDataUpto r) (state r) (startBytePos r)
    (suffix r) (subCode r).
Definition set_statsReader (v : ByteArrayDataInput) (r : segmentTermsEnumFrame) : segmentTermsEnumFrame :=
  mkFrame (ord r) (hasTerms r) (hasTermsOrig r) (isFloor r) (arc r) (fp r)
    (fpOrig r) (fpEnd r) (suffixBytes r) (suffixesReader r) (statBytes r) v
    (floorData r) (floorDataReader r) (prefix r) (entCount r) (nextEnt r)
    (isLastInFloor r) (isLeafBlock r) (lastSubFP r) (nextFloorLabel r)
    (numFollowFloorBlocks r) (metaDataUpto r) (state r) (startBytePos r)
    (suffix r) (subCode r).
Definition set_floorData (v : list byte) (r : segmentTermsEnumFrame) : segmentTermsEnumFrame :=
  mkFrame (ord r) (hasTerms r) (hasTermsOrig r) (isFloor r) (arc r) (fp r)
    (fpOrig r) (fpEnd r) (suffixBytes r) (suffixesReader r) (statBytes r)
    (statsReader r) v (floorDataReader r) (prefix r) (entCount r)
    (nextEnt r) (isLastInFloor r) (isLeafBlock r) (lastSubFP r) (nextFloorLabel r)
    (numFollowFloorBlocks r) (metaDataUpto r) (state r) (startBytePos r)
    (suffix r) (subCode r).
Definition set_floorDataReader (v : ByteArrayDataInput) (r : segmentTermsEnumFrame) : segmentTermsEnumFrame :=
  mkFrame (ord r) (hasTerms r) (hasTermsOrig r) (isFloor r) (arc r) (fp r)
    (fpOrig r) (fpEnd r) (suffixBytes r) (suffixesReader r) (statBytes r)
    (statsReader r) (floorData r) v (prefix r) (entCount r) (nextEnt r)
    (isLastInFloor r) (isLeafBlock r) (lastSubFP r) (nextFloorLabel r)
    (numFollowFloorBlocks r) (metaDataUpto r) (state r) (startBytePos r)
    (suffix r) (subCode r).
Definition set_prefix (v : Z) (r : segmentTermsEnumFrame) : segmentTermsEnumFrame :=
  mkFrame (ord r) (hasTerms r) (hasTermsOrig r) (isFloor r) (arc r) (fp r)
    (fpOrig r) (fpEnd r) (suffixBytes r) (suffixesReader r) (statBytes r)
    (statsReader r) (floorData r) (floorDataReader r) v (entCount r)
    (nextEnt r) (isLastInFloor r) (isLeafBlock r) (lastSubFP r)
    (nextFloorLabel r) (numFollowFloorBlocks r) (metaDataUpto r) (state r)
    (startBytePos r) (suffix r) (subCode r).
Definition set_entCount (v : Z) (r : segmentTermsEnumFrame) : segmentTermsEnumFrame :=
  mkFrame (ord r) (hasTerms r) (hasTermsOrig r) (isFloor r) (arc r) (fp r)
    (fpOrig r) (fpEnd r) (suffixBytes r) (suffixesReader r) (statBytes r)
    (statsReader r) (floorData r) (floorDataReader r) (prefix r) v
    (nextEnt r) (isLastInFloor r) (isLeafBlock r) (lastSubFP r) (nextFloorLabel r)
    (numFollowFloorBlocks r) (metaDataUpto r) (state r) (startBytePos r)
    (suffix r) (subCode r).
Definition set_nextEnt (v : Z) (r : segmentTermsEnumFrame) : segmentTermsEnumFrame :=
  mkFrame (ord r) (hasTerms r) (hasTermsOrig r) (isFloor r) (arc r) (fp r)
    (fpOrig r) (fpEnd r) (suffixBytes r) (suffixesReader r) (statBytes r)
    (statsReader r) (floorData r) (floorDataReader r) (prefix r)
    (entCount r) v (isLastInFloor r) (isLeafBlock r) (lastSubFP r) (nextFloorLabel r)
    (numFollowFloorBlocks r) (metaDataUpto r) (state r) (startBytePos r)
    (suffix r) (subCode r).
Definition set_isLastInFloor (v : bool) (r : segmentTermsEnumFrame) : segmentTermsEnumFrame :=
  mkFrame (ord r) (hasTerms r) (hasTermsOrig r) (isFloor r) (arc r) (fp r)
    (fpOrig r) (fpEnd r) (suffixBytes r) (suffixesReader r) (statBytes r)
    (statsReader r) (floorData r) (floorDataReader r) (prefix r)
    (entCount r) (nextEnt r) v (isLeafBlock r) (lastSubFP r) (nextFloorLabel r)
    (numFollowFloorBlocks r) (metaDataUpto r) (state r) (startBytePos r)
    (suffix r) (subCode r).
Definition set_isLeafBlock (v : bool) (r : segmentTermsEnumFrame) : segmentTermsEnumFrame :=
  mkFrame (ord r) (hasTerms r) (hasTermsOrig r) (isFloor r) (arc r) (fp r)
    (fpOrig r) (fpEnd r) (suffixBytes r) (suffixesReader r) (statBytes r)
    (statsReader r) (floorData r) (floorDataReader r) (prefix r)
    (entCount r) (nextEnt r) (isLastInFloor r) v (lastSubFP r) (nextFloorLabel r)
    (numFollowFloorBlocks r) (metaDataUpto r) (state r) (startBytePos r)
    (suffix r) (subCode r).
Definition set_lastSubFP (v : Z) (r : segmentTermsEnumFrame) : segmentTermsEnumFrame :=
  mkFrame (ord r) (hasTerms r) (hasTermsOrig r) (isFloor r) (arc r) (fp r)
    (fpOrig r) (fpEnd r) (suffixBytes r) (suffixesReader r) (statBytes r)
    (statsReader r) (floorData r) (floorDataReader r) (prefix r)
    (entCount r) (nextEnt r) (isLastInFloor r) (isLeafBlock r) v (nextFloorLabel r)
    (numFollowFloorBlocks r) (metaDataUpto r) (state r) (startBytePos r)
    (suffix r) (subCode r).
Definition set_nextFloorLabel (v : Z) (r : segmentTermsEnumFrame) : segmentTermsEnumFrame :=
  mkFrame (ord r) (hasTerms r) (hasTermsOrig r) (isFloor r) (arc r) (fp r)
    (fpOrig r) (fpEnd r) (suffixBytes r) (suffixesReader r) (statBytes r)
    (statsReader r) (floorData r) (floorDataReader r) (prefix r)
    (entCount r) (nextEnt r) (isLastInFloor r) (isLeafBlock r) (lastSubFP r) v
    (numFollowFloorBlocks r) (metaDataUpto r) (state r) (startBytePos r)
    (suffix r) (subCode r).
Definition set_numFollowFloorBlocks (v : Z) (r : segmentTermsEnumFrame) : segmentTermsEnumFrame :=
  mkFrame (ord r) (hasTerms r) (hasTermsOrig r) (isFloor r) (arc r) (fp r)
    (fpOrig r) (fpEnd r) (suffixBytes r) (suffixesReader r) (statBytes r)
    (statsReader r) (floorData r) (floorDataReader r) (prefix r)
    (entCount r) (nextEnt r) (isLastInFloor r) (isLeafBlock r) (lastSubFP r)
    (nextFloorLabel r) v (metaDataUpto r) (state r) (startBytePos r)
    (suffix r) (subCode r).
Definition set_metaDataUpto (v : Z) (r : segmentTermsEnumFrame) : segmentTermsEnumFrame :=
  mkFrame (ord r) (hasTerms r) (hasTermsOrig r) (isFloor r) (arc r) (fp r)
    (fpOrig r) (fpEnd r) (suffixBytes r) (suffixesReader r) (statBytes r)
    (statsReader r) (floorData r) (floorDataReader r) (prefix r)
    (entCount r) (nextEnt r) (isLastInFloor r) (isLeafBlock r) (lastSubFP r)
    (nextFloorLabel r) (numFollowFloorBlocks r) v (state r) (startBytePos r)
    (suffix r) (subCode r).
Definition set_state (v : BlockTermState) (r : segmentTermsEnumFrame) : segmentTermsEnumFrame :=
  mkFrame (ord r) (hasTerms r) (hasTermsOrig r) (isFloor r) (arc r) (fp r)
    (fpOrig r) (fpEnd r) (suffixBytes r) (suffixesReader r) (statBytes r)
    (statsReader r) (floorData r) (floorDataReader r) (prefix r)
    (entCount r) (nextEnt r) (isLastInFloor r) (isLeafBlock r) (lastSubFP r)
    (nextFloorLabel r) (numFollowFloorBlocks r) (metaDataUpto r) v
    (startBytePos r) (suffix r) (subCode r).
Definition set_startBytePos (v : Z) (r : segmentTermsEnumFrame) : segmentTermsEnumFrame :=
  mkFrame (ord r) (hasTerms r) (hasTermsOrig r) (isFloor r) (arc r) (fp r)
    (fpOrig r) (fpEnd r) (suffixBytes r) (suffixesReader r) (statBytes r)
    (statsReader r) (floorData r) (floorDataReader r) (prefix r)
    (entCount r) (nextEnt r) (isLastInFloor r) (isLeafBlock r) (lastSubFP r)
    (nextFloorLabel r) (numFollowFloorBlocks r) (metaDataUpto r) (state r) v
    (suffix r) (subCode r).
Definition set_suffix (v : Z) (r : segmentTermsEnumFrame) : segmentTermsEnumFrame :=
  mkFrame (ord r) (hasTerms r) (hasTermsOrig r) (isFloor r) (arc r) (fp r)
    (fpOrig r) (fpEnd r) (suffixBytes r) (suffixesReader r) (statBytes r)
    (statsReader r) (floorData r) (floorDataReader r) (prefix r)
    (entCount r) (nextEnt r) (isLastInFloor r) (isLeafBlock r) (lastSubFP r)
    (nextFloorLabel r) (numFollowFloorBlocks r) (metaDataUpto r) (state r)
    (startBytePos r) v (subCode r).
Definition set_subCode (v : Z) (r : segmentTermsEnumFrame) : segmentTermsEnumFrame :=
  mkFrame (ord r) (hasTerms r) (hasTermsOrig r) (isFloor r) (arc r) (fp r)
    (fpOrig r) (fpEnd r) (suffixBytes r) (suffixesReader r) (statBytes r)
    (statsReader r) (floorData r) (floorDataReader r) (prefix r)
    (entCount r) (nextEnt r) (isLastInFloor r) (isLeafBlock r) (lastSubFP r)
    (nextFloorLabel r) (numFollowFloorBlocks r) (metaDataUpto r) (state r)
    (startBytePos r) (suffix r) v.

Record SegmentTermsEnum : Type := mkEnum {
  fieldReader : FieldReader;
  e_in : option IndexInput;
  stack : list segmentTermsEnumFrame;
  staticFrame : segmentTermsEnumFrame;
  currentFrame : Z;
  termExists : bool;
  targetBeforeCurrentLength : Z;
  scratchReader : ByteArrayDataInput;
  validIndexPrefix : Z;
  eof : bool;
  term : slice;
  arcs : list Arc
}.

Definition set_fieldReader (v : FieldReader) (r : SegmentTermsEnum) : SegmentTermsEnum :=
  mkEnum v (e_in r) (stack r) (staticFrame r) (currentFrame r)
    (termExists r) (targetBeforeCurrentLength r) (scratchReader r) (validIndexPrefix r)
    (eof r) (term r) (arcs r).
Definition set_e_in (v : option IndexInput) (r : SegmentTermsEnum) : SegmentTermsEnum :=
  mkEnum (fieldReader r) v (stack r) (staticFrame r) (currentFrame r)
    (termExists r) (targetBeforeCurrentLength r) (scratchReader r)
    (validIndexPrefix r) (eof r) (term r) (arcs r).
Definition set_stack (v : list segmentTermsEnumFrame) (r : SegmentTermsEnum) : SegmentTermsEnum :=
  mkEnum (fieldReader r) (e_in r) v (staticFrame r) (currentFrame r)
    (termExists r) (targetBeforeCurrentLength r) (scratchReader r)
    (validIndexPrefix r) (eof r) (term r) (arcs r).
Definition set_staticFrame (v : segmentTermsEnumFrame) (r : SegmentTermsEnum) : SegmentTermsEnum :=
  mkEnum (fieldReader r) (e_in r) (stack r) v (currentFrame r)
    (termExists r) (targetBeforeCurrentLength r) (scratchReader r) (validIndexPrefix r)
    (eof r) (term r) (arcs r).
Definition set_currentFrame (v : Z) (r : SegmentTermsEnum) : SegmentTermsEnum :=
  mkEnum (fieldReader r) (e_in r) (stack r) (staticFrame r) v (termExists r)
    (targetBeforeCurrentLength r) (scratchReader r) (validIndexPrefix r)
    (eof r) (term r) (arcs r).
Definition set_termExists (v : bool) (r : SegmentTermsEnum) : SegmentTermsEnum :=
  mkEnum (fieldReader r) (e_in r) (stack r) (staticFrame r) (currentFrame r)
    v (targetBeforeCurrentLength r) (scratchReader r) (validIndexPrefix r)
    (eof r) (term r) (arcs r).
Definition set_targetBeforeCurrentLength (v : Z) (r : SegmentTermsEnum) : SegmentTermsEnum :=
  mkEnum (fieldReader r) (e_in r) (stack r) (staticFrame r) (currentFrame r)
    (termExists r) v (scratchReader r) (validIndexPrefix r) (eof r) (term r)
    (arcs r).
Definition set_scratchReader (v : ByteArrayDataInput) (r : SegmentTermsEnum) : SegmentTermsEnum :=
  mkEnum (fieldReader r) (e_in r) (stack r) (staticFrame r) (currentFrame r)
    (termExists r) (targetBeforeCurrentLength r) v (validIndexPrefix r)
    (eof r) (term r) (arcs r).
Definition set_validIndexPrefix (v : Z) (r : SegmentTermsEnum) : SegmentTermsEnum :=
  mkEnum (fieldReader r) (e_in r) (stack r) (staticFrame r) (currentFrame r)
    (termExists r) (targetBeforeCurrentLength r) (scratchReader r) v (eof r)
    (term r) (arcs r).
Definition set_eof (v : bool) (r : SegmentTermsEnum) : SegmentTermsEnum :=
  mkEnum (fieldReader r) (e_in r) (stack r) (staticFrame r) (currentFrame r)
    (termExists r) (targetBeforeCurrentLength r) (scratchReader r)
    (validIndexPrefix r) v (term r) (arcs r).
Definition set_term (v : slice) (r : SegmentTermsEnum) : SegmentTermsEnum :=
  mkEnum (fieldReader r) (e_in r) (stack r) (staticFrame r) (currentFrame r)
    (termExists r) (targetBeforeCurrentLength r) (scratchReader r)
    (validIndexPrefix r) (eof r) v (arcs r).
Definition set_arcs (v : list Arc) (r : SegmentTermsEnum) : SegmentTermsEnum :=
  mkEnum (fieldReader r) (e_in r) (stack r) (staticFrame r) (currentFrame r)
    (termExists r) (targetBeforeCurrentLength r) (scratchReader r)
    (validIndexPrefix r) (eof r) (term r) v.

Inductive SeekStatus : Type :=
| SEEK_STATUS_END
| SEEK_STATUS_FOUND
| SEEK_STATUS_NOT_FOUND.

(** The largest slice [make] agrees to allocate; a length beyond it is the
    panic "makeslice: len out of range". *)
Definition maxAlloc : Z := 2 ^ 48.
Definition makeslice_panic : string := "makeslice: len out of range".
Definition slice_panic : string := "slice bounds out of range".
Definition nil_interface_panic : string := "interface conversion: interface is nil".

Definition make_bytes (n : Z) : outcome (list byte) :=
  if (n <? 0) || (maxAlloc <? n) then Panic makeslice_panic
  else Ok (replicate (Z.to_nat n) x00).

Definition blen (l : list byte) : Z := Z.of_nat (length l).

(** [copy(dst, src)]: as many bytes as fit. *)
Definition copy_bytes (dst src : list byte) : list byte :=
  let n := Nat.min (length dst) (length src) in
  take n src ++ drop n dst.

(** Dereferencing and updating a frame through a pointer. *)
Definition frameAt (e : SegmentTermsEnum) (p : Z) : segmentTermsEnumFrame :=
  if p <? 0 then staticFrame e
  else default (staticFrame e) (stack e !! Z.to_nat p).

Definition setFrame (e : SegmentTermsEnum) (p : Z) (f : segmentTermsEnumFrame)
  : SegmentTermsEnum :=
  if p <? 0 then set_staticFrame f e
  else set_stack (<[Z.to_nat p := f]> (stack e)) e.

(** [newFrame] reads one thing of the cursor it is given, the postings
    reader of the field's dictionary. *)
Definition newFrame (r : FieldReader) (o : Z) : outcome segmentTermsEnumFrame :=
  match owner r with
  | None => Panic nil_panic
  | Some d =>
      let st := pr_NewTermState (dict_postingsReader d) in
      Ok (mkFrame o false false false None 0 0 0
            (replicate 128 x00) (mkDataInput [] 0)
            (replicate 64 x00) (mkDataInput [] 0)
            (replicate 32 x00) (mkDataInput [] 0)
            0 0 0 false false 0 0 0 0
            (mkTermState (termBlockOrd st) (-1) (postingsBlob st))
            0 0 0)
  end.

Fixpoint newFrames (r : FieldReader) (from : Z) (n : nat)
  : outcome (list segmentTermsEnumFrame) :=
  match n with
  | O => Ok []
  | S n' =>
      f ← newFrame r from;
      fs ← newFrames r (from + 1) n';
      Ok (f :: fs)
  end.

Definition frame (e : SegmentTermsEnum) (o : Z) : outcome (SegmentTermsEnum * Z) :=
  let len := Z.of_nat (length (stack e)) in
  e ← (if o =? len then
         f ← newFrame (fieldReader e) o;
         Ok (set_stack (stack e ++ [f]) e)
       else if len <? o then
         fs ← newFrames (fieldReader e) len (Z.to_nat (1 + o - len));
         Ok (set_stack (stack e ++ fs) e)
       else Ok e);
  match at_index (stack e) o with
  | None => Panic index_panic
  | Some f => if negb (ord f =? o) then Panic "assert fail" else Ok (e, o)
  end.

Definition getArc (e : SegmentTermsEnum) (o : Z) : outcome (SegmentTermsEnum * nat) :=
  let len := Z.of_nat (length (arcs e)) in
  let e :=
    if o =? len then set_arcs (arcs e ++ [zeroArc]) e
    else if len <? o then
      set_arcs (arcs e ++ replicate (Z.to_nat (1 + o - len)) zeroArc) e
    else e in
  match at_index (arcs e) o with
  | None => Panic index_panic
  | Some _ => Ok (e, Z.to_nat o)
  end.

Definition setFloorData (f : segmentTermsEnumFrame) (rd : ByteArrayDataInput)
    (source : list byte) : outcome segmentTermsEnumFrame :=
  let numBytes := blen source - (Pos rd - 0) in
  fd ← (if blen (floorData f) <? numBytes then make_bytes numBytes
        else Ok (floorData f));
  if (Pos rd <? 0) || (blen source <? Pos rd) then Panic slice_panic else
  let fd := copy_bytes fd (rest_from source (Pos rd)) in
  let f := set_floorData fd f in
  let '(r, n, _) := din_ReadVInt (din_Reset fd) in
  let '(r, b, _) := din_ReadByte r in
  Ok (set_nextFloorLabel (int_of_byte b)
        (set_numFollowFloorBlocks n (set_floorDataReader r f))).

Definition rewind (f : segmentTermsEnumFrame) : segmentTermsEnumFrame :=
  let f := set_fp (fpOrig f) f in
  let f := set_nextEnt (-1) f in
  let f := set_hasTerms (hasTermsOrig f) f in
  if isFloor f then
    let '(r, n, _) := din_ReadVInt (din_Rewind (floorDataReader f)) in
    let '(r, b, _) := din_ReadByte r in
    set_nextFloorLabel (int_of_byte b)
      (set_numFollowFloorBlocks n (set_floorDataReader r f))
  else f.

Definition pushFrameAt (e : SegmentTermsEnum) (a : nat) (fp0 : Z) (length : Z)
  : outcome (SegmentTermsEnum * Z) :=
  '(e, p) ← frame e (1 + ord (frameAt e (currentFrame e)));
  let f := set_arc (Some a) (frameAt e p) in
  if (fpOrig f =? fp0) && negb (nextEnt f =? -1) then
    let f := if targetBeforeCurrentLength e <? prefix f then rewind f else f in
    if negb (length =? prefix f) then Panic "assert fail"
    else Ok (setFrame e p f, p)
  else
    let f := set_nextEnt (-1) f in
    let f := set_prefix length f in
    let f := set_state (mkTermState 0 (totalTermFreq (state f))
                                    (postingsBlob (state f))) f in
    let f := set_fp fp0 (set_fpOrig fp0 f) in
    let f := set_lastSubFP (-1) f in
    Ok (setFrame e p f, p).

Definition pushFrame (e : SegmentTermsEnum) (a : nat) (frameData : list byte)
    (length : Z) : outcome (SegmentTermsEnum * Z) :=
  let '(sr, code, err) := din_ReadVLong (din_Reset frameData) in
  let e := set_scratchReader sr e in
  match err with
  | Some er => Err er
  | None =>
      let fpSeek := to_int64 (Z.shiftr (to_uint64 code) BTT_OUTPUT_FLAGS_NUM_BITS) in
      '(e, p) ← frame e (1 + ord (frameAt e (currentFrame e)));
      let f := frameAt e p in
      let f := set_hasTerms (negb (Z.land code BTT_OUTPUT_FLAG_HAS_TERMS =? 0)) f in
      let f := set_hasTermsOrig (hasTerms f) f in
      let f := set_isFloor (negb (Z.land code BTT_OUTPUT_FLAG_IS_FLOOR =? 0)) f in
      f ← (if isFloor f then setFloorData f (scratchReader e) frameData else Ok f);
      let e := setFrame e p f in
      '(e, _) ← pushFrameAt e a fpSeek length;
      Ok (e, p)
  end.

Definition scanToFloorFrame (f : segmentTermsEnumFrame) (target : list byte)
  : outcome segmentTermsEnumFrame :=
  if negb (isFloor f) || (blen target <=? prefix f) then Ok f else
  match at_index target (prefix f) with
  | None => Panic index_panic
  | Some b =>
      let targetLabel := int_of_byte b in
      if targetLabel <? nextFloorLabel f then Ok f
      else if numFollowFloorBlocks f =? 0 then Panic "assert fail"
      else Panic "not implemented yet"
  end.

Definition initIndexInput (e : SegmentTermsEnum) : outcome SegmentTermsEnum :=
  match e_in e with
  | Some _ => Ok e
  | None =>
      match owner (fieldReader e) with
      | None => Panic nil_panic
      | Some d => Ok (set_e_in (Some (in_Clone (dict_in d))) e)
      end
  end.

(** [loadBlock] on the frame [p].  The error it returns is dropped by its
    only caller; it is kept in the result next to the state it leaves. *)
Definition loadBlock (e : SegmentTermsEnum) (p : Z)
  : outcome (SegmentTermsEnum * option error) :=
  e ← initIndexInput e;
  let f := frameAt e p in
  if negb (nextEnt f =? -1) then Ok (e, None) else
  match e_in e with
  | None => Panic nil_panic
  | Some i =>
      let leave i f err := Ok (setFrame (set_e_in (Some i) e) p f, err) in
      let i := in_Seek i (fp f) in
      let '(i, code, err) := in_ReadVInt i in
      match err with Some er => leave i f (Some er) | None =>
      let f := set_entCount (Z.shiftr (to_uint64 code) 1) f in
      if entCount f <=? 0 then Panic "assert fail" else
      let f := set_isLastInFloor (negb (Z.land code 1 =? 0)) f in
      if bool_decide (is_Some (arc f)) && isLastInFloor f && isFloor f
      then Panic "assert fail" else
      let '(i, code, _) := in_ReadVInt i in
      let f := set_isLeafBlock (negb (Z.land code 1 =? 0)) f in
      let numBytes := Z.shiftr (to_uint64 code) 1 in
      sb ← (if blen (suffixBytes f) <? numBytes then make_bytes numBytes
            else Ok (suffixBytes f));
      let '(i, sb, err) := in_ReadBytes i sb in
      let f := set_suffixBytes sb f in
      match err with Some er => leave i f (Some er) | None =>
      let f := set_suffixesReader (din_Reset (suffixBytes f)) f in
      let '(i, numBytes, err) := in_ReadVInt i in
      match err with Some er => leave i f None | None =>
      stb ← (if blen (statBytes f) <? numBytes then make_bytes numBytes
             else Ok (statBytes f));
      let '(i, stb, err) := in_ReadBytes i stb in
      let f := set_statBytes stb f in
      match err with Some er => leave i f (Some er) | None =>
      let f := set_statsReader (din_Reset (statBytes f)) f in
      let f := set_metaDataUpto 0 f in
      let f := set_state (mkTermState 0 (totalTermFreq (state f))
                                      (postingsBlob (state f))) f in
      let f := set_nextEnt 0 f in
      let f := set_lastSubFP (-1) f in
      match owner (fieldReader e) with
      | None => Panic nil_panic
      | Some d =>
          let '(i, st) := pr_ReadTermsBlock (dict_postingsReader d) i
                            (fieldInfo (fieldReader e)) (state f) in
          let f := set_state st f in
          let f := set_fpEnd (in_FilePointer i) f in
          leave i f None
      end
      end end end end
  end.

Definition fillTerm (e : SegmentTermsEnum) (p : Z) : outcome SegmentTermsEnum :=
  let f := frameAt e p in
  let termLength := prefix f + suffix f in
  t ← (if slice_len (term e) <? termLength then
         if maxAlloc <? termLength then Panic makeslice_panic
         else Ok (slice_regrow (term e) (Z.to_nat termLength) (Z.to_nat termLength))
       else Ok (term e));
  let lo := prefix f in
  let hi := prefix f + suffix f in
  if negb ((0 <=? lo) && (lo <=? hi) && (hi <=? Z.of_nat (slice_cap t)))
  then Panic slice_panic else
  if negb ((0 <=? startBytePos f) && (startBytePos f <=? blen (suffixBytes f)))
  then Panic slice_panic else
  let src := rest_from (suffixBytes f) (startBytePos f) in
  let n := Nat.min (Z.to_nat (hi - lo)) (length src) in
  Ok (set_term (slice_on (take (Z.to_nat lo) (backing t) ++ take n src
                            ++ drop (Z.to_nat lo + n) (backing t))
                         (length (visible t))) e).

(** Used only by assert *)
Definition prefixMatches (e : SegmentTermsEnum) (p : Z) (target : list byte)
  : outcome bool :=
  Panic "not implemented yet".

(** The three ways the comparison of one entry with the target ends. *)
Inductive entry_order : Type :=
| EntryBefore
| EntryAfter
| EntryEqual.

(** The loop over the bytes of one suffix; [n] is [targetLimit - targetPos],
    the number of bytes still to compare. *)
Fixpoint compareSuffix (f : segmentTermsEnumFrame) (target : list byte)
    (termLen targetLimit : Z) (n : nat) (bytePos targetPos : Z)
  : outcome entry_order :=
  match n with
  | S n' =>
      match at_index (suffixBytes f) bytePos, at_index target targetPos with
      | Some sb, Some tb =>
          let cmp := int_of_byte (byte_sub sb tb) in
          if cmp <? 0 then Ok EntryBefore
          else if 0 <? cmp then Ok EntryAfter
          else compareSuffix f target termLen targetLimit n'
                             (bytePos + 1) (targetPos + 1)
      | _, _ => Panic index_panic
      end
  | O =>
      if negb (targetPos =? targetLimit) then Panic "assert fail" else
      let cmp := termLen - blen target in
      if cmp <? 0 then Ok EntryBefore
      else if 0 <? cmp then Ok EntryAfter
      else Ok EntryEqual
  end.

(** The loop over the entries of a leaf block.  A turn that goes on to the
    next one has read at least one byte of the suffix blob, and a turn that
    finds the blob exhausted returns the error of the read; [turns] counts
    the turns that are left before that one. *)
Fixpoint scanLeafEntries (turns : nat) (e : SegmentTermsEnum) (p : Z)
    (target : list byte) (exactOnly : bool)
  : outcome (SegmentTermsEnum * SeekStatus) :=
  match turns with
  | O => Err EOF
  | S turns' =>
      let f := frameAt e p in
      let f := set_nextEnt (nextEnt f + 1) f in
      let '(sr, v, err) := din_ReadVInt (suffixesReader f) in
      let f := set_suffixesReader sr (set_suffix v f) in
      match err with Some er => Err er | None =>
      if (Pos (suffixesReader f) <? 0)
         || (blen (suffixBytes f) <? Pos (suffixesReader f))
      then Panic slice_panic else
      let termLen := prefix f + suffix f in
      let f := set_startBytePos (Pos (suffixesReader f)) f in
      let f := set_suffixesReader (din_SkipBytes (suffixesReader f) (suffix f)) f in
      let targetLimit := if blen target <? termLen then blen target else termLen in
      let e := setFrame e p f in
      c ← compareSuffix f target termLen targetLimit
            (Z.to_nat (targetLimit - prefix f)) (startBytePos f) (prefix f);
      match c with
      | EntryBefore =>
          if nextEnt f =? entCount f then
            e ← (if exactOnly then fillTerm e p else Ok e);
            e ← (if exactOnly then fillTerm e p else Ok e);
            Ok (e, SEEK_STATUS_END)
          else scanLeafEntries turns' e p target exactOnly
      | EntryAfter => Ok (e, SEEK_STATUS_NOT_FOUND)
      | EntryEqual =>
          if negb (termExists e) then Panic "assert fail" else
          e ← fillTerm e p;
          Ok (e, SEEK_STATUS_FOUND)
      end
      end
  end.

Definition scanToTermLeaf (e : SegmentTermsEnum) (p : Z) (target : list byte)
    (exactOnly : bool) : outcome (SegmentTermsEnum * SeekStatus) :=
  let f := frameAt e p in
  if nextEnt f =? -1 then Panic "assert fail" else
  let e := set_termExists true e in
  let f := set_subCode 0 f in
  let e := setFrame e p f in
  if nextEnt f =? entCount f then
    e ← (if exactOnly then fillTerm e p else Ok e);
    Ok (e, SEEK_STATUS_END)
  else
    ok ← prefixMatches e p target;
    if negb ok then Panic "assert fail" else
    scanLeafEntries (S (length (bytes (suffixesReader f)))) e p target exactOnly.

Definition scanToTermNonLeaf (e : SegmentTermsEnum) (p : Z) (target : list byte)
    (exactOnly : bool) : outcome (SegmentTermsEnum * SeekStatus) :=
  Panic "not implemented yet".

Definition scanToTerm (e : SegmentTermsEnum) (p : Z) (target : list byte)
    (exactOnly : bool) : outcome (SegmentTermsEnum * SeekStatus) :=
  if isLeafBlock (frameAt e p) then scanToTermLeaf e p target exactOnly
  else scanToTermNonLeaf e p target exactOnly.

Definition Term (e : SegmentTermsEnum) : outcome (list byte) :=
  if eof e then Panic "assert fail" else Ok (slice_bytes (term e)).

(** What [printSeekState] asserts of the frame [f], of prefix [pre], when
    the index is loaded. *)
Definition checkSeekFrame (idx : FST) (f : segmentTermsEnumFrame)
    (pre : list byte) (isSeekFrame : bool) : outcome unit :=
  if isSeekFrame && negb (bool_decide (is_Some (arc f)))
  then Panic "assert fail" else
  match GetFSTOutput idx pre with
  | (_, Some er) => Panic (error_text er)
  | (None, None) => Panic "seek state is broken"
  | (Some output, None) =>
      let '(_, codeOrig, _) := din_ReadVLong (NewByteArrayDataInput output) in
      let code :=
        to_int64
          (to_int64 (to_int64 (Z.shiftl (fp f) BTT_OUTPUT_FLAGS_NUM_BITS)
                     + (if hasTerms f then BTT_OUTPUT_FLAG_HAS_TERMS else 0))
           + (if isFloor f then BTT_OUTPUT_FLAG_IS_FLOOR else 0)) in
      if isSeekFrame && negb (isFloor f) && negb (codeOrig =? code)
      then Panic "seek state is broken" else Ok tt
  end.

(** The loop of [printSeekState] over the frames [0 .. currentFrame]; [n]
    is the number of frames after the one at hand. *)
Fixpoint seekStateLoop (idx : option FST) (n : nat) (e : SegmentTermsEnum)
    (o : Z) (isSeekFrame : bool) : outcome SegmentTermsEnum :=
  '(e, p) ← frame e o;
  let f := frameAt e p in
  match slice_upto (term e) (prefix f) with
  | None => Panic slice_panic
  | Some pre =>
      _ ← match idx with
          | Some idx => checkSeekFrame idx f (slice_bytes pre) isSeekFrame
          | None => Ok tt
          end;
      if p =? currentFrame e then Ok e else
      let isSeekFrame :=
        if prefix f =? validIndexPrefix e then false else isSeekFrame in
      match n with
      | O => Ok e
      | S n' => seekStateLoop idx n' e (o + 1) isSeekFrame
      end
  end.

Definition printSeekState (e : SegmentTermsEnum) : outcome SegmentTermsEnum :=
  if currentFrame e <? 0 then Ok e
  else seekStateLoop (index (fieldReader e)) (Z.to_nat (currentFrame e)) e 0 true.

Definition newSegmentTermsEnum (r : FieldReader) : outcome SegmentTermsEnum :=
  match owner r with
  | None => Panic nil_panic
  | Some _ =>
      static ← newFrame r (-1);
      let ans a :=
        mkEnum r None [] static (-1) false 0 NewEmptyByteArrayDataInput 0 false
               (mkSlice [] []) [a] in
      match index r with
      | Some idx =>
          let a := FirstArc idx zeroArc in
          if negb (IsFinal a) then Panic "assert fail"
          else printSeekState (ans a)
      | None => printSeekState (ans zeroArc)
      end
  end.

(** The first lines of [SeekExact]: room for the target in the term
    buffer. *)
Definition growTerm (e : SegmentTermsEnum) (target : list byte)
  : outcome SegmentTermsEnum :=
  if (slice_cap (term e) <=? length target)%nat then
    if (length target <? length (visible (term e)))%nat then Panic makeslice_panic
    else Ok (set_term (slice_regrow (term e) (length (visible (term e)))
                                    (length target)) e)
  else Ok e.

(** "First compare up to valid seek frames": the result is [cmp],
    [targetUpto], the arc and the output reached, and [lastFrame]. *)
Fixpoint reuseLoop (e : SegmentTermsEnum) (target : list byte) (n : nat)
    (targetUpto : Z) (a : nat) (output : list byte) (lastFrame : Z)
  : outcome (Z * Z * nat * list byte * Z) :=
  match n with
  | O => Ok (0, targetUpto, a, output, lastFrame)
  | S n' =>
      match slice_get (term e) targetUpto, at_index target targetUpto with
      | Some tb, Some gb =>
          let cmp := int_of_byte (byte_sub tb gb) in
          if negb (cmp =? 0) then Ok (cmp, targetUpto, a, output, lastFrame) else
          match at_index (arcs e) (1 + targetUpto) with
          | None => Panic index_panic
          | Some next =>
              if negb (Label next =? int_of_byte gb) then Panic "assert fail" else
              match Output next with
              | None => Panic nil_interface_panic
              | Some o =>
                  let output := outputs_Add output o in
                  lastFrame ←
                    (if IsFinal next then
                       let q := 1 + ord (frameAt e lastFrame) in
                       match at_index (stack e) q with
                       | None => Panic index_panic
                       | Some _ => Ok q
                       end
                     else Ok lastFrame);
                  reuseLoop e target n' (targetUpto + 1)
                            (Z.to_nat (1 + targetUpto)) output lastFrame
              end
          end
      | _, _ => Panic index_panic
      end
  end.

(** "Second compare the rest of the term": only [cmp] comes out of it. *)
Fixpoint compareRest (e : SegmentTermsEnum) (target : list byte) (n : nat)
    (targetUpto : Z) : outcome Z :=
  match n with
  | O => Ok 0
  | S n' =>
      match slice_get (term e) targetUpto, at_index target targetUpto with
      | Some tb, Some gb =>
          let cmp := int_of_byte (byte_sub tb gb) in
          if negb (cmp =? 0) then Ok cmp
          else compareRest e target n' (targetUpto + 1)
      | _, _ => Panic index_panic
      end
  end.

(** Where the walk of [SeekExact] through the index stops: on the current
    term itself ("target is same as current; return true"), on a label the
    index has no arc for ("index exhausted"), or at the end of the target. *)
Inductive seek_stop : Type :=
| StopSame
| StopExhausted (targetLabel : Z)
| StopConsumed (targetUpto : Z).

(** The loop over the bytes of the target the index is still to be asked
    about; [n] is [len(target) - targetUpto]. *)
Fixpoint indexLoop (idx : FST) (target : list byte) (n : nat)
    (e : SegmentTermsEnum) (targetUpto : Z) (a : nat) (output : list byte)
  : outcome (seek_stop * SegmentTermsEnum) :=
  match n with
  | O => Ok (StopConsumed targetUpto, e)
  | S n' =>
      match at_index target targetUpto with
      | None => Panic index_panic
      | Some b =>
          let targetLabel := int_of_byte b in
          '(e, slot) ← getArc e (1 + targetUpto);
          match arcs e !! a, arcs e !! slot with
          | Some follow, Some scratch =>
              match FindTargetArc idx targetLabel follow scratch with
              | Fail er => Err er
              | Miss scratch' =>
                  Ok (StopExhausted targetLabel,
                      set_arcs (<[slot := scratch']> (arcs e)) e)
              | Hit found =>
                  let e := set_arcs (<[slot := found]> (arcs e)) e in
                  match slice_set (term e) targetUpto (byte_of_int targetLabel) with
                  | None => Panic index_panic
                  | Some t =>
                      let e := set_term t e in
                      match Output found with
                      | None => Panic "assert fail"
                      | Some o =>
                          let output := outputs_Add output o in
                          let targetUpto := targetUpto + 1 in
                          if IsFinal found then
                            '(e, p) ← pushFrame e slot
                                (outputs_Add output (NextFinalOutput found))
                                targetUpto;
                            indexLoop idx target n' (set_currentFrame p e)
                                      targetUpto slot output
                          else indexLoop idx target n' e targetUpto slot output
                      end
                  end
              end
          | _, _ => Panic nil_panic
          end
      end
  end.

(** [SeekExact] up to the place where the walk through the index stops. *)
Definition seekIndex (e : SegmentTermsEnum) (target : list byte)
  : outcome (seek_stop * SegmentTermsEnum) :=
  match index (fieldReader e) with
  | None => Panic "terms index was not loaded"
  | Some idx =>
      e ← growTerm e target;
      let e := set_eof false e in
      e ← printSeekState e;
      let e := set_targetBeforeCurrentLength (ord (frameAt e (currentFrame e))) e in
      if negb (ord (frameAt e (currentFrame e)) =? ord (staticFrame e)) then
        match at_index (arcs e) 0 with
        | None => Panic index_panic
        | Some first =>
            if negb (IsFinal first) then Panic "assert fail" else
            match Output first, at_index (stack e) 0 with
            | None, _ => Panic nil_interface_panic
            | _, None => Panic index_panic
            | Some output, Some _ =>
                if slice_len (term e) <? validIndexPrefix e
                then Panic "assert fail" else
                let targetLimit :=
                  if validIndexPrefix e <? blen target
                  then validIndexPrefix e else blen target in
                '(cmp, targetUpto, a, output, lastFrame) ←
                  reuseLoop e target (Z.to_nat targetLimit) 0 0%nat output 0;
                cmp ←
                  (if cmp =? 0 then
                     let targetLimit2 :=
                       if slice_len (term e) <? blen target
                       then slice_len (term e) else blen target in
                     c ← compareRest e target
                           (Z.to_nat (targetLimit2 - targetUpto)) targetUpto;
                     Ok (if c =? 0 then slice_len (term e) - blen target else c)
                   else Ok cmp);
                let n := Z.to_nat (blen target - targetUpto) in
                if cmp <? 0 then
                  indexLoop idx target n (set_currentFrame lastFrame e)
                            targetUpto a output
                else if 0 <? cmp then
                  let e := set_targetBeforeCurrentLength 0 e in
                  let e := set_currentFrame lastFrame e in
                  let e := setFrame e (currentFrame e)
                                    (rewind (frameAt e (currentFrame e))) in
                  indexLoop idx target n e targetUpto a output
                else if negb (slice_len (term e) =? blen target)
                then Panic "assert fail"
                else if termExists e then Ok (StopSame, e)
                else indexLoop idx target n e targetUpto a output
            end
        end
      else
        let e := set_targetBeforeCurrentLength (-1) e in
        match at_index (arcs e) 0 with
        | None => Panic index_panic
        | Some slot0 =>
            let first := FirstArc idx slot0 in
            let e := set_arcs (<[0%nat := first]> (arcs e)) e in
            match Output first with
            | Some output =>
                if negb (IsFinal first) then Panic "assert fail" else
                let e := set_currentFrame (-1) e in
                '(e, p) ← pushFrame e 0%nat
                    (outputs_Add output (NextFinalOutput first)) 0;
                indexLoop idx target (length target) (set_currentFrame p e)
                          0 0%nat output
            | None => Panic "assert fail"
            end
        end
  end.

Section Cursor.

(** The capacity the runtime picks when [append] has to move a slice of
    the given capacity; it is not fixed by the language. *)
Variable growslice : nat → nat.

Definition slice_append (s : slice) (b : byte) : slice :=
  match spare s with
  | _ :: rest => mkSlice (visible s ++ [b]) rest
  | [] =>
      let n := S (length (visible s)) in
      let c := Nat.max n (growslice (slice_cap s)) in
      mkSlice (visible s ++ [b]) (replicate (c - n) x00)
  end.

(** [loadBlock] and [scanToTerm] on the current frame, and the answer of
    [SeekExact] drawn from the status. *)
Definition scanCurrent (e : SegmentTermsEnum) (target : list byte)
  : outcome (bool * SegmentTermsEnum) :=
  '(e, _) ← loadBlock e (currentFrame e);
  '(e, status) ← scanToTerm e (currentFrame e) target true;
  match status with
  | SEEK_STATUS_FOUND => Ok (true, e)
  | _ => Ok (false, e)
  end.

(** "Index is exhausted": the index has no arc for [targetLabel]. *)
Definition indexExhausted (e : SegmentTermsEnum) (target : list byte)
    (targetLabel : Z) : outcome (bool * SegmentTermsEnum) :=
  let e := set_validIndexPrefix (prefix (frameAt e (currentFrame e))) e in
  f ← scanToFloorFrame (frameAt e (currentFrame e)) target;
  let e := setFrame e (currentFrame e) f in
  if negb (hasTerms (frameAt e (currentFrame e))) then
    let e := set_termExists false e in
    let e := set_term (slice_append (term e) (byte_of_int targetLabel)) e in
    Ok (false, e)
  else scanCurrent e target.

(** "Target term is entirely contained in the index": after the loop. *)
Definition targetConsumed (e : SegmentTermsEnum) (target : list byte)
    (targetUpto : Z) : outcome (bool * SegmentTermsEnum) :=
  let e := set_validIndexPrefix (prefix (frameAt e (currentFrame e))) e in
  f ← scanToFloorFrame (frameAt e (currentFrame e)) target;
  let e := setFrame e (currentFrame e) f in
  if negb (hasTerms (frameAt e (currentFrame e))) then
    let e := set_termExists false e in
    match slice_upto (term e) targetUpto with
    | None => Panic slice_panic
    | Some t => Ok (false, set_term t e)
    end
  else scanCurrent e target.

(** [SeekExact]: the walk through the index, then what the place it
    stopped at asks for. *)
Definition SeekExact (e : SegmentTermsEnum) (target : list byte)
  : outcome (bool * SegmentTermsEnum) :=
  '(stop, e) ← seekIndex e target;
  match stop with
  | StopSame => Ok (true, e)
  | StopExhausted targetLabel => indexExhausted e target targetLabel
  | StopConsumed targetUpto => targetConsumed e target targetUpto
  end.

End Cursor.

(** ** Predicates used by the statements *)

(** A pointer to a frame designates the static frame or a frame of the
    stack; in the source it cannot do otherwise. *)
Definition live (e : SegmentTermsEnum) (p : Z) : Prop :=
  p < Z.of_nat (length (stack e)).

(** The cursor fields other than the frame stack and the scratch reader. *)
Definition frames_only (e e' : SegmentTermsEnum) : Prop :=
  e' = set_scratchReader (scratchReader e') (set_stack (stack e') e).

(** The contract of the index the cursor relies on: the arc found for a
    label carries that label. *)
Definition fst_labels (idx : FST) : Prop :=
  ∀ label follow scratch found,
    FindTargetArc idx label follow scratch = Hit found → Label found = label.

(** Up to the length [t], each byte of the term is the label of the arc of
    its depth. *)
Definition labels_upto (e : SegmentTermsEnum) (t : Z) : Prop :=
  ∀ i, 0 <= i < t →
    ∃ a b, at_index (arcs e) (1 + i) = Some a
           ∧ slice_get (term e) i = Some b
           ∧ Label a = int_of_byte b.

(** The arc stack is consistent with the term buffer. *)
Definition arcs_consistent (e : SegmentTermsEnum) : Prop :=
  labels_upto e (validIndexPrefix e).

Definition arc_final (l : list Arc) (i : nat) : bool :=
  match l !! i with
  | Some a => IsFinal a
  | None => false
  end.

(** The number of final arcs among [arcs[1 .. n]]. *)
Fixpoint finals (l : list Arc) (n : nat) : nat :=
  match n with
  | O => O
  | S m => (finals l m + if arc_final l (S m) then 1 else 0)%nat
  end.

(** Every frame of the stack carries its index, the static frame -1. *)
Definition frames_numbered (e : SegmentTermsEnum) : Prop :=
  ord (staticFrame e) = -1
  ∧ ∀ j, 0 <= j → live e j → ord (frameAt e j) = j.

(** What holds while [SeekExact] walks, [t] bytes of the target being
    matched: the arcs of the first [t] depths spell the term; the current
    frame is the frame of the last final arc among them; the frames below
    it are those of the final arcs before, each at the depth of its arc,
    the root frame at depth 0. *)
Record walk_inv (e : SegmentTermsEnum) (t : Z) : Prop := mkWalkInv {
  wi_numbered : frames_numbered e;
  wi_current : 0 <= currentFrame e ∧ live e (currentFrame e);
  wi_depth : 0 <= t;
  wi_labels : labels_upto e t;
  wi_root : prefix (frameAt e 0) = 0;
  wi_frames : ∀ j, 0 <= j <= currentFrame e →
      0 <= prefix (frameAt e j) <= t
      ∧ Z.of_nat (finals (arcs e) (Z.to_nat (prefix (frameAt e j)))) = j
      ∧ (0 < j → arc_final (arcs e) (Z.to_nat (prefix (frameAt e j))) = true);
  wi_count : Z.of_nat (finals (arcs e) (Z.to_nat t)) = currentFrame e
}.

(** What holds between two calls of [SeekExact]: the cursor has not been
    positioned yet, or the walk invariant holds at [validIndexPrefix]. *)
Definition seek_inv (e : SegmentTermsEnum) : Prop :=
  (currentFrame e = -1 ∧ validIndexPrefix e = 0 ∧ frames_numbered e)
  ∨ walk_inv e (validIndexPrefix e).

(** Two cursors that the invariant cannot tell apart. *)
Definition same_walk (e e' : SegmentTermsEnum) : Prop :=
  ord (staticFrame e') = ord (staticFrame e)
  ∧ (∀ j, live e' j ↔ live e j)
  ∧ (∀ j, 0 <= j → live e j →
       ord (frameAt e' j) = ord (frameAt e j)
       ∧ prefix (frameAt e' j) = prefix (frameAt e j))
  ∧ arcs e' = arcs e
  ∧ currentFrame e' = currentFrame e.

(** ** A dictionary for the examples

    One field, [f], with the terms [xa], [xb], [yza] and [yzb].  The root
    block, at offset 9 of [tim], holds nothing but the pointers to the
    blocks of the prefixes [x] and [y]; the block of [x], at offset 3, is a
    leaf with the first two terms; the block of [y], at offset 20, holds
    nothing but the pointer to the leaf of [yz], at offset 14.  So the
    index gives the empty prefix the code [9 << 2] and the prefix [y] the
    code [20 << 2] (no terms, not floored), and the prefixes [x] and [yz]
    the codes [3 << 2 | 2] and [14 << 2 | 2] (terms, not floored). *)

Definition ex_postings : PostingsReaderBase :=
  mkPostings (λ i, i) (mkTermState 0 0 []) (λ i _ st, (i, st)).

Definition ex_file : list byte :=
  [x00; x00; x00; x05; x09; x01; x61; x01; x62; x02; x00] ++ replicate 256 x00.

Definition ex_dict : TermsDict := mkDict (mkInput ex_file 0 []) ex_postings "_0".

Definition ex_rootCode : list byte := [x24].
Definition ex_xCode : list byte := [x0e].
Definition ex_yCode : list byte := [x50].
Definition ex_yzCode : list byte := [x3a].

(** The nodes of the index: 0 is the root, 1 is reached by [x], 2 by [y]
    and 3 by [yz]. *)
Definition ex_index : FST :=
  mkFST
    (λ a, mkArc (Label a) (Some []) ex_rootCode true 0)
    (λ label follow scratch,
       if (Target follow =? 0) && (label =? 120)
       then Hit (mkArc 120 (Some []) ex_xCode true 1)
       else if (Target follow =? 0) && (label =? 121)
       then Hit (mkArc 121 (Some []) ex_yCode true 2)
       else if (Target follow =? 2) && (label =? 122)
       then Hit (mkArc 122 (Some []) ex_yzCode true 3)
       else Miss scratch)
    (λ p, match p with
          | [] => (Some ex_rootCode, None)
          | [x78] => (Some ex_xCode, None)
          | [x79] => (Some ex_yCode, None)
          | [x79; x7a] => (Some ex_yzCode, None)
          | _ => (None, None)
          end).

Definition ex_fieldInfo : FieldInfo := mkFieldInfo 0 "f" 1.

Definition ex_field : FieldReader :=
  mkFieldReader (Some ex_dict) 4 ex_fieldInfo (-1) 4 4 0 9 ex_rootCode
                (Some ex_index).

(** The same field read without the index file ([indexDivisor = -1]). *)
Definition ex_field_noindex : FieldReader :=
  mkFieldReader (Some ex_dict) 4 ex_fieldInfo (-1) 4 4 0 9 ex_rootCode None.

Definition ex_loadFST (i : IndexInput) : option FST * option error :=
  (Some ex_index, None).

Definition ex_growslice (c : nat) : nat := Nat.max 8 (2 * c).

(** The cursors [Iterator] makes for the two. *)
Definition ex_static : segmentTermsEnumFrame :=
  mkFrame (-1) false false false None 0 0 0
          (replicate 128 x00) (mkDataInput [] 0)
          (replicate 64 x00) (mkDataInput [] 0)
          (replicate 32 x00) (mkDataInput [] 0)
          0 0 0 false false 0 0 0 0 (mkTermState 0 (-1) []) 0 0 0.

Definition ex_cursor : SegmentTermsEnum :=
  mkEnum ex_field None [] ex_static (-1) false 0 NewEmptyByteArrayDataInput 0
         false (mkSlice [] []) [mkArc 0 (Some []) ex_rootCode true 0].

Definition ex_cursor_noindex : SegmentTermsEnum :=
  mkEnum ex_field_noindex None [] ex_static (-1) false 0
         NewEmptyByteArrayDataInput 0 false (mkSlice [] []) [zeroArc].

(** The cursor after the frame of the prefix [x] has been pushed on it. *)
Definition ex_pushed : SegmentTermsEnum :=
  Eval cbv in
    match pushFrame ex_cursor 0 ex_xCode 1 with
    | Ok (e, _) => e
    | _ => ex_cursor
    end.

(** A frame on a block split in four at the labels [h], [p] and [w]: three
    floor blocks follow the first, whose label bound is [h]. *)
Definition ex_floorFrame : segmentTermsEnumFrame :=
  set_nextFloorLabel 104
    (set_numFollowFloorBlocks 3
       (set_floorDataReader (mkDataInput [x03; x68; x15; x70; x29; x77; x3d] 2)
          (set_floorData [x03; x68; x15; x70; x29; x77; x3d]
             (set_isFloor true
                (set_hasTermsOrig true
                   (set_hasTerms true
                      (set_fpOrig 16
                         (set_fp 16
                            (set_nextEnt (-1)
                               (set_arc (Some 0%nat) (set_ord 0 ex_static))))))))))).

(** The cursor on the loaded leaf block of the prefix [x]: two entries, the
    suffixes [a] and [b], none read yet; the term buffer holds [x]. *)
Definition ex_leafFrame : segmentTermsEnumFrame :=
  set_isLeafBlock true
    (set_isLastInFloor true
       (set_entCount 2
          (set_nextEnt 0
             (set_prefix 1
                (set_suffixesReader
                   (mkDataInput ([x01; x61; x01; x62] ++ replicate 124 x00) 0)
                   (set_suffixBytes ([x01; x61; x01; x62] ++ replicate 124 x00)
                      (set_hasTermsOrig true
                         (set_hasTerms true
                            (set_fpOrig 3
                               (set_fp 3
                                  (set_arc (Some 1%nat)
                                     (set_ord 0 ex_static)))))))))))).

Definition ex_loaded : SegmentTermsEnum :=
  set_term (mkSlice [x78] [x00])
    (set_validIndexPrefix 1
       (set_currentFrame 0
          (set_stack [ex_leafFrame]
             (set_arcs [mkArc 0 (Some []) ex_rootCode true 0;
                        mkArc 120 (Some []) ex_xCode true 1]
                ex_cursor)))).

(** The status a scan returns, if it returns one. *)
Definition status_of (r : outcome (SegmentTermsEnum * SeekStatus))
  : option SeekStatus :=
  match r with
  | Ok (_, status) => Some status
  | _ => None
  end.

(** A segment of three documents whose directory claims five documents for
    the field [f].  The file [tim] is the directory and the pointer to it:
    one field; field 0, two terms, a root code of one byte, a
    [sum_doc_freq] of 2 and a document count of 5 (the field is indexed
    with [DOCS_ONLY], here the option 1, so that no [sum_total_term_freq]
    is stored); then the offset of the directory, 0, on eight bytes.  The
    header is of the current version. *)
Definition ex_fieldInfos : FieldInfos := mkFieldInfos {[ 0 := ex_fieldInfo ]}.
Definition ex_info : SegmentInfo := mkSegmentInfo "_0" 3.
Definition ex_checkHeader (i : IndexInput) (codec : string) (lo hi : Z)
  : IndexInput * Z * option error := (i, hi, None).
Definition ex_bad_tim : list byte :=
  [x01; x00; x02; x01; x24; x02; x05] ++ replicate 8 x00.
Definition ex_bad_dir : Directory :=
  λ name, if String.eqb name "_0.tim" then Some (mkInput ex_bad_tim 0 []) else None.

(** The cursor after a first seek, of the absent term [a]. *)
Definition ex_primed : SegmentTermsEnum :=
  Eval cbv in
    match SeekExact ex_growslice ex_cursor [x61] with
    | Ok (_, e) => e
    | _ => ex_cursor
    end.

(** The cursors after the seek of the absent term [b], on the fresh cursor
    and on the one that has sought [a] before. *)
Definition ex_after_fresh : SegmentTermsEnum :=
  Eval cbv in
    match SeekExact ex_growslice ex_cursor [x62] with
    | Ok (_, e) => e
    | _ => ex_cursor
    end.

Definition ex_after_primed : SegmentTermsEnum :=
  Eval cbv in
    match SeekExact ex_growslice ex_primed [x62] with
    | Ok (_, e) => e
    | _ => ex_cursor
    end.

(** A run of [SeekExact] calls on one cursor, each on the state the one
    before it left; the result is the state after the last. *)
Fixpoint seeks (growslice : nat → nat) (e : SegmentTermsEnum)
    (targets : list (list byte)) : outcome SegmentTermsEnum :=
  match targets with
  | [] => Ok e
  | target :: rest =>
      '(_, e) ← SeekExact growslice e target;
      seeks growslice e rest
  end.




(** The cursor after the seeks of the absent terms [a] and [yq]: the second
    follows the arc of [y] and stops on its frame, which has no terms. *)
Definition ex_sought : SegmentTermsEnum :=
  Eval cbv in
    match seeks ex_growslice ex_cursor [[x61]; [x79; x71]] with
    | Ok e => e
    | _ => ex_cursor
    end.





(** * The rest of the sources

    ** File names ([util/filename.go])

    A Go string is a sequence of bytes; [strings.Index] and the slice
    expressions work on bytes. *)

From Stdlib Require Import Strings.Ascii.

Fixpoint str_take (n : nat) (s : string) : string :=
  match n, s with
  | S n', String c s' => String c (str_take n' s')
  | _, _ => EmptyString
  end.

Fixpoint str_drop (n : nat) (s : string) : string :=
  match n, s with
  | S n', String _ s' => str_drop n' s'
  | _, _ => s
  end.

Definition str_len (s : string) : Z := Z.of_nat (String.length s).

(** [s[lo:hi]] *)
Definition str_slice (s : string) (lo hi : Z) : outcome string :=
  if (0 <=? lo) && (lo <=? hi) && (hi <=? str_len s)
  then Ok (str_take (Z.to_nat (hi - lo)) (str_drop (Z.to_nat lo) s))
  else Panic slice_panic.

(** [strings.Index]: the index of the first instance of [sub] in [s],
    or -1. *)
Fixpoint strings_Index (s sub : string) : Z :=
  if String.prefix sub s then 0 else
  match s with
  | EmptyString => -1
  | String _ s' =>
      let i := strings_Index s' sub in
      if i <? 0 then -1 else i + 1
  end.

Section FileNames.

(** [strconv.FormatInt], of the Go library. *)
Variable FormatInt : Z → Z → string.

Definition FileNameFromGeneration (base ext : string) (gen : Z) : string :=
  if gen =? -1 then EmptyString
  else if gen =? 0 then SegmentFileName base EmptyString ext
  else
    (base +:+ "_" +:+ FormatInt gen 36
     +:+ (if (0 <? String.length ext)%nat then "." +:+ ext else ""))%string.

End FileNames.

Definition indexOfSegmentName (filename : string) : outcome Z :=
  rest ← str_slice filename 1 (str_len filename);
  let idx := strings_Index rest "_" in
  if 0 <=? idx then Ok (idx + 1)
  else Ok (strings_Index filename ".").

Definition StripSegmentName (filename : string) : outcome string :=
  idx ← indexOfSegmentName filename;
  if negb (idx =? -1) then str_slice filename idx (str_len filename)
  else Ok filename.

Definition ParseSegmentName (filename : string) : outcome string :=
  idx ← indexOfSegmentName filename;
  if negb (idx =? -1) then str_slice filename 0 idx
  else Ok filename.

Definition StripExtension (filename : string) : string :=
  let idx := strings_Index filename "." in
  if negb (idx =? -1) then str_take (Z.to_nat idx) filename
  else filename.

(** The byte [c] occurs in [s]. *)
Fixpoint has_byte (c : Ascii.ascii) (s : string) : bool :=
  match s with
  | EmptyString => false
  | String d s' => Ascii.eqb c d || has_byte c s'
  end.

(** Base 36 in lower case, as the Go library writes it; an instance of
    [FormatInt] for the examples. *)
Definition digit36 (d : Z) : Ascii.ascii :=
  Ascii.ascii_of_nat (Z.to_nat (if d <? 10 then 48 + d else 87 + d)).

Fixpoint digits36 (fuel : nat) (n : Z) (acc : string) : string :=
  match fuel with
  | O => acc
  | S fuel' =>
      let acc := String (digit36 (n mod 36)) acc in
      if n / 36 =? 0 then acc else digits36 fuel' (n / 36) acc
  end.

Definition ex_FormatInt (n radix : Z) : string :=
  if n <? 0 then String "-" (digits36 64 (- n) EmptyString)
  else digits36 64 n EmptyString.

(** ** Predicates on the fields of a reader *)

(** What the constructor has checked of the field reader it files under
    [name]. *)
Definition field_checked (info : SegmentInfo) (name : string) (r : FieldReader)
  : Prop :=
  0 < numTerms r
  ∧ 0 <= docCount r <= si_docCount info
  ∧ docCount r <= sumDocFreq r
  ∧ (sumTotalTermFreq r = -1 ∨ sumDocFreq r <= sumTotalTermFreq r)
  ∧ fi_name (fieldInfo r) = name
  ∧ is_Some (owner r).

(** A directory whose one field passes the checks: as [ex_bad_tim], with
    a [sum_doc_freq] of 3 and a document count of 3. *)
Definition ex_good_tim : list byte :=
  [x01; x00; x02; x01; x24; x03; x03] ++ replicate 8 x00.
Definition ex_good_dir : Directory :=
  λ name, if String.eqb name "_0.tim" then Some (mkInput ex_good_tim 0 []) else None.

(** ** The frames of a cursor on which nothing has been scanned *)

(** [FieldReader.Iterator] *)
Definition Iterator (r : FieldReader) : outcome SegmentTermsEnum :=
  newSegmentTermsEnum r.

(** A frame whose block is not loaded ([nextEnt] -1) or loaded and still
    at its first entry; a leaf block has entries. *)
Definition unscanned_frame (f : segmentTermsEnumFrame) : Prop :=
  (nextEnt f = -1 ∨ nextEnt f = 0) ∧ (isLeafBlock f = true → 0 < entCount f).

Definition frames_unscanned (e : SegmentTermsEnum) : Prop :=
  unscanned_frame (staticFrame e) ∧ Forall unscanned_frame (stack e).

(** A cursor that has found no term and read no block. *)
Definition unscanned (e : SegmentTermsEnum) : Prop :=
  termExists e = false ∧ e_in e = None ∧ frames_unscanned e.

(** The output of an arc that leads to a floored block at offset 16 with
    terms: the code, then the floor data of [ex_floorFrame]; and the frame
    [setFloorData] makes of it. *)
Definition ex_floorCode : list byte :=
  [x43; x03; x68; x15; x70; x29; x77; x3d].
Definition ex_floored : segmentTermsEnumFrame :=
  Eval cbv in
    match setFloorData (set_isFloor true ex_static)
                       (mkDataInput ex_floorCode 1) ex_floorCode with
    | Ok f => f
    | _ => ex_static
    end.

(** The cursor [ex_pushed] after the block of its frame has been loaded. *)
Definition ex_block_loaded : SegmentTermsEnum :=
  Eval cbv in
    match loadBlock ex_pushed 0 with
    | Ok (e, _) => e
    | _ => ex_pushed
    end.
(** * Properties *)

(** ** Integers and bytes *)

Lemma to_int64_small (x : Z) : - 2 ^ 63 <= x < 2 ^ 63 → to_int64 x = x.
Proof.
  intros H. unfold to_int64, wrap_signed.
  change (2 ^ (64 - 1)) with (2 ^ 63). change (2 ^ 64) with (2 * 2 ^ 63).
  rewrite Z.mod_small; lia.
Qed.

Lemma to_int32_range (x : Z) : - 2 ^ 31 <= to_int32 x < 2 ^ 31.
Proof.
  unfold to_int32, wrap_signed.
  change (2 ^ (32 - 1)) with (2 ^ 31). change (2 ^ 32) with (2 * 2 ^ 31).
  pose proof (Z.mod_pos_bound (x + 2 ^ 31) (2 * 2 ^ 31)). lia.
Qed.

Lemma to_int64_of_int32 (x : Z) : to_int64 (to_int32 x) = to_int32 x.
Proof.
  apply to_int64_small. pose proof (to_int32_range x).
  assert (2 ^ 31 < 2 ^ 63) by (apply Z.pow_lt_mono_r; lia). lia.
Qed.

Lemma int_of_byte_range (b : byte) : 0 <= int_of_byte b < 256.
Proof.
  unfold int_of_byte. pose proof (Byte.to_N_bounded b). lia.
Qed.

Lemma byte_of_int_of_byte (b : byte) : byte_of_int (int_of_byte b) = b.
Proof.
  unfold byte_of_int. pose proof (int_of_byte_range b) as H.
  rewrite Z.mod_small by lia. unfold int_of_byte.
  rewrite N2Z.id, Byte.of_to_N. reflexivity.
Qed.

Lemma lor_below (a b n : Z) :
  0 <= n → 0 <= a < 2 ^ n → 0 <= b < 2 ^ n → 0 <= Z.lor a b < 2 ^ n.
Proof.
  intros Hn Ha Hb.
  assert (Hnn : 0 <= Z.lor a b) by (apply Z.lor_nonneg; lia).
  split; [exact Hnn|].
  destruct (Z.eq_dec (Z.lor a b) 0) as [->|Hz].
  - apply Z.pow_pos_nonneg; lia.
  - apply Z.log2_lt_pow2; [lia|].
    rewrite Z.log2_lor by lia.
    destruct (Z.eq_dec a 0) as [->|Ha0], (Z.eq_dec b 0) as [->|Hb0];
      rewrite ?Z.log2_nonpos by lia.
    + exfalso. apply Hz. reflexivity.
    + rewrite Z.max_r by apply Z.log2_nonneg. apply Z.log2_lt_pow2; lia.
    + rewrite Z.max_l by apply Z.log2_nonneg. apply Z.log2_lt_pow2; lia.
    + apply Z.max_lub_lt; apply Z.log2_lt_pow2; lia.
Qed.

(** A decoded variable-length integer has no more bits than the bytes
    allowed for it carry. *)
Lemma decode_var_range (limit : nat) : ∀ (shift : Z) (bs : list byte) (v k : Z),
  0 <= shift →
  decode_var limit shift bs = inr (v, k) →
  0 <= v < 2 ^ (shift + 7 * Z.of_nat limit) ∧ 1 <= k.
Proof.
  induction limit as [|limit IH]; intros shift bs v k Hs H; [discriminate|].
  destruct bs as [|b bs]; [discriminate|]. cbn [decode_var] in H.
  assert (Hlow : 0 <= Z.shiftl (Z.land (int_of_byte b) 127) shift
                 < 2 ^ (shift + 7)).
  { assert (0 <= Z.land (int_of_byte b) 127 < 2 ^ 7).
    { change 127 with (Z.ones 7). rewrite Z.land_ones by lia.
      apply Z.mod_pos_bound. lia. }
    rewrite Z.shiftl_mul_pow2 by lia.
    rewrite Z.pow_add_r by lia.
    assert (0 < 2 ^ shift) by (apply Z.pow_pos_nonneg; lia). nia. }
  assert (Hmono : 2 ^ (shift + 7) <= 2 ^ (shift + 7 * Z.of_nat (S limit))).
  { apply Z.pow_le_mono_r; lia. }
  destruct (Z.testbit (int_of_byte b) 7).
  - destruct (decode_var limit (shift + 7) bs) as [e|[r k']] eqn:E; [discriminate|].
    injection H as <- <-.
    apply IH in E as [Hr Hk]; [|lia].
    replace (shift + 7 + 7 * Z.of_nat limit)
      with (shift + 7 * Z.of_nat (S limit)) in Hr by lia.
    split; [|lia]. apply lor_below; lia.
  - injection H as <- <-. split; lia.
Qed.

Lemma din_ReadVLong_range (r r' : ByteArrayDataInput) (code : Z) :
  din_ReadVLong r = (r', code, None) → 0 <= code < 2 ^ 63.
Proof.
  unfold din_ReadVLong, din_ReadVar.
  destruct (decode_var 9 0 _) as [e|[v k]] eqn:E; [discriminate|].
  intros H. injection H as _ <-.
  apply decode_var_range in E as [E _]; [|lia].
  change (0 + 7 * Z.of_nat 9) with 63 in E.
  rewrite to_int64_small; lia.
Qed.

(** [int64(uint64(code) >> 2)] is [code >> 2] for the codes a vLong can
    hold. *)
Lemma unsigned_shift (code n : Z) :
  0 <= code < 2 ^ 63 → 0 <= n →
  to_int64 (Z.shiftr (to_uint64 code) n) = Z.shiftr code n.
Proof.
  intros Hc Hn. unfold to_uint64.
  assert (2 ^ 63 < 2 ^ 64) by (apply Z.pow_lt_mono_r; lia).
  rewrite Z.mod_small by lia.
  apply to_int64_small.
  rewrite Z.shiftr_div_pow2 by lia.
  assert (0 < 2 ^ n) by (apply Z.pow_pos_nonneg; lia).
  split.
  - transitivity 0; [lia|]. apply Z.div_pos; lia.
  - apply Z.le_lt_trans with code; [|lia].
    apply Z.div_le_upper_bound; nia.
Qed.

Lemma land_flag (code n : Z) :
  0 <= n → negb (Z.land code (2 ^ n) =? 0) = Z.testbit code n.
Proof.
  intros Hn.
  assert (E : Z.land code (2 ^ n) = if Z.testbit code n then 2 ^ n else 0).
  { apply Z.bits_inj'. intros m Hm.
    rewrite Z.land_spec, Z.pow2_bits_eqb by lia.
    destruct (Z.eqb_spec n m) as [->|Hne].
    - destruct (Z.testbit code m); simpl.
      + rewrite Z.pow2_bits_true; lia.
      + apply eq_sym, Z.bits_0.
    - rewrite andb_false_r.
      destruct (Z.testbit code n).
      + rewrite Z.pow2_bits_false; lia.
      + apply eq_sym, Z.bits_0. }
  rewrite E. destruct (Z.testbit code n); [|reflexivity].
  assert (0 < 2 ^ n) by (apply Z.pow_pos_nonneg; lia).
  destruct (Z.eqb_spec (2 ^ n) 0); [lia|reflexivity].
Qed.

(** ** Outcomes *)

Lemma bind_Ok {A B} (m : outcome A) (k : A → outcome B) (b : B) :
  m ≫= k = Ok b → ∃ a, m = Ok a ∧ k a = Ok b.
Proof. destruct m; simpl; intros H; try discriminate. eauto. Qed.

Lemma bind_Ok_eq {A B} (m : outcome A) (k : A → outcome B) (a : A) :
  m = Ok a → m ≫= k = k a.
Proof. intros ->. reflexivity. Qed.

(** Breaks the hypothesis [H : ... = Ok _] along the binds and the
    branches of the function it is about. *)
Ltac ok_inv H :=
  repeat first
    [ discriminate H
    | apply bind_Ok in H as (? & ? & H)
    | match type of H with
      | context [ let '(_, _) := ?x in _ ] =>
          let E := fresh "E" in destruct x eqn:E
      | context [ match ?x with _ => _ end ] =>
          let E := fresh "E" in destruct x eqn:E
      end ].

(** ** Pointers to frames *)


Lemma frameAt_setFrame (e : SegmentTermsEnum) (p : Z) (f : segmentTermsEnumFrame) :
  live e p → frameAt (setFrame e p f) p = f.
Proof.
  unfold live, frameAt, setFrame. intros H.
  destruct (p <? 0) eqn:E; [reflexivity|]. simpl.
  rewrite list_lookup_insert_eq by lia. reflexivity.
Qed.

Lemma frameAt_setFrame_ne (e : SegmentTermsEnum) (p q : Z)
    (f : segmentTermsEnumFrame) :
  0 <= p → p ≠ q → frameAt (setFrame e p f) q = frameAt e q.
Proof.
  unfold frameAt, setFrame. intros Hp Hne.
  destruct (Z.ltb_spec p 0), (Z.ltb_spec q 0); try lia; simpl; [reflexivity|].
  rewrite list_lookup_insert_ne by lia. reflexivity.
Qed.

Lemma setFrame_frameAt (e : SegmentTermsEnum) (p : Z) :
  setFrame e p (frameAt e p) = e.
Proof.
  unfold frameAt, setFrame. destruct e as [? ? st sf ? ? ? ? ? ? ? ?]; simpl.
  destruct (p <? 0); [reflexivity|]. unfold set_stack; simpl. f_equal.
  destruct (st !! Z.to_nat p) as [f|] eqn:E; simpl.
  - apply list_insert_id, E.
  - apply list_insert_ge, lookup_ge_None, E.
Qed.

Lemma live_setFrame (e : SegmentTermsEnum) (p q : Z) (f : segmentTermsEnumFrame) :
  live (setFrame e p f) q ↔ live e q.
Proof.
  unfold live, setFrame. destruct (p <? 0); simpl; [reflexivity|].
  rewrite length_insert. reflexivity.
Qed.

Lemma newFrames_length (r : FieldReader) (n : nat) :
  ∀ (from : Z) (fs : list segmentTermsEnumFrame),
  newFrames r from n = Ok fs → length fs = n.
Proof.
  induction n as [|n IH]; intros from fs H; cbn [newFrames] in H.
  - injection H as <-. reflexivity.
  - apply bind_Ok in H as (f & _ & H). apply bind_Ok in H as (fs' & Hfs & H).
    injection H as <-. cbn. f_equal. exact (IH _ _ Hfs).
Qed.

(** [frame(ord)] returns the frame of that index, which then exists and
    carries its index, and leaves the frames that were there alone. *)
Lemma frame_spec (e e' : SegmentTermsEnum) (o p : Z) :
  frame e o = Ok (e', p) →
  p = o ∧ 0 <= o ∧ live e' o ∧ ord (frameAt e' o) = o
  ∧ (∃ ext, e' = set_stack (stack e ++ ext) e
            ∧ ∀ q, q < Z.of_nat (length (stack e ++ ext)) → live e q ∨ q <= o).
Proof.
  unfold frame. intros H.
  apply bind_Ok in H as (e1 & H1 & H).
  assert (Hext : ∃ ext, e1 = set_stack (stack e ++ ext) e
            ∧ ∀ q, q < Z.of_nat (length (stack e ++ ext)) → live e q ∨ q <= o).
  { unfold live. destruct (Z.eqb_spec o (Z.of_nat (length (stack e)))).
    - apply bind_Ok in H1 as (f & _ & H1). injection H1 as <-.
      eexists. split; [reflexivity|]. intros q. rewrite length_app. cbn. lia.
    - destruct (Z.ltb_spec (Z.of_nat (length (stack e))) o).
      + apply bind_Ok in H1 as (fs & Hfs & H1). injection H1 as <-.
        apply newFrames_length in Hfs.
        eexists. split; [reflexivity|]. intros q. rewrite length_app. lia.
      + injection H1 as <-. exists []. rewrite app_nil_r.
        split; [destruct e; reflexivity|]. intros q. lia. }
  unfold at_index in H.
  destruct (Z.ltb_spec o 0); [discriminate|].
  destruct (stack e1 !! Z.to_nat o) as [f|] eqn:Ef; [|discriminate].
  destruct (Z.eqb_spec (ord f) o); [|discriminate]. injection H as <- <-.
  assert (live e1 o).
  { unfold live. apply lookup_lt_Some in Ef. lia. }
  repeat split; try assumption.
  unfold frameAt. destruct (Z.ltb_spec o 0); [lia|]. rewrite Ef. assumption.
Qed.

Lemma frameAt_grow (e : SegmentTermsEnum) (ext : list segmentTermsEnumFrame) (p : Z) :
  live e p → frameAt (set_stack (stack e ++ ext) e) p = frameAt e p.
Proof.
  unfold live, frameAt. intros H. simpl.
  destruct (Z.ltb_spec p 0); [reflexivity|].
  rewrite lookup_app_l by lia. reflexivity.
Qed.

Lemma live_grow (e : SegmentTermsEnum) (ext : list segmentTermsEnumFrame) (p : Z) :
  live e p → live (set_stack (stack e ++ ext) e) p.
Proof. unfold live. simpl. rewrite length_app. lia. Qed.

Lemma frame_again (e : SegmentTermsEnum) (o : Z) :
  0 <= o → live e o → ord (frameAt e o) = o → frame e o = Ok (e, o).
Proof.
  unfold live, frame, frameAt, at_index. intros H0 Hl Ho.
  destruct (Z.eqb_spec o (Z.of_nat (length (stack e)))); [lia|].
  destruct (Z.ltb_spec (Z.of_nat (length (stack e))) o); [lia|]. simpl.
  destruct (Z.ltb_spec o 0); [lia|].
  destruct (stack e !! Z.to_nat o) as [f|] eqn:Ef.
  - simpl in Ho. rewrite Ho, Z.eqb_refl. reflexivity.
  - apply lookup_ge_None in Ef. lia.
Qed.

(** What [setFloorData] and [rewind] leave alone. *)
Lemma setFloorData_keeps (f f' : segmentTermsEnumFrame) (rd : ByteArrayDataInput)
    (source : list byte) :
  setFloorData f rd source = Ok f' →
  ord f' = ord f ∧ prefix f' = prefix f ∧ fpOrig f' = fpOrig f
  ∧ hasTerms f' = hasTerms f ∧ hasTermsOrig f' = hasTermsOrig f
  ∧ isFloor f' = isFloor f ∧ nextEnt f' = nextEnt f.
Proof.
  unfold setFloorData. intros H. ok_inv H. injection H as <-. tauto.
Qed.

Lemma rewind_keeps (f : segmentTermsEnumFrame) :
  ord (rewind f) = ord f ∧ prefix (rewind f) = prefix f
  ∧ fpOrig (rewind f) = fpOrig f ∧ hasTerms (rewind f) = hasTermsOrig f
  ∧ hasTermsOrig (rewind f) = hasTermsOrig f ∧ isFloor (rewind f) = isFloor f
  ∧ nextEnt (rewind f) = -1.
Proof.
  unfold rewind. cbn -[din_ReadVInt din_ReadByte].
  destruct (isFloor f) eqn:E; cbn -[din_ReadVInt din_ReadByte].
  - destruct (din_ReadVInt _) as [[r n] ?].
    destruct (din_ReadByte r) as [[r' b] ?]. cbn. tauto.
  - tauto.
Qed.

(** [pushFrameAt] on a frame that [frame] has already made. *)
Lemma pushFrameAt_spec (e e' : SegmentTermsEnum) (a : nat) (fp0 len p : Z) :
  let o := 1 + ord (frameAt e (currentFrame e)) in
  let f0 := frameAt e o in
  0 <= o → live e o → ord f0 = o →
  pushFrameAt e a fp0 len = Ok (e', p) →
  p = o ∧ ∃ f', e' = setFrame e o f'
    ∧ ord f' = o ∧ prefix f' = len ∧ fpOrig f' = fp0
    ∧ isFloor f' = isFloor f0 ∧ hasTermsOrig f' = hasTermsOrig f0
    ∧ (hasTerms f' = hasTerms f0 ∨ hasTerms f' = hasTermsOrig f0).
Proof.
  intros o f0 H0 Hl Ho. unfold pushFrameAt. fold o.
  rewrite (frame_again e o H0 Hl Ho). cbn [mbind outcome_bind]. fold f0.
  destruct (_ && _) eqn:Ec.
  - apply andb_true_iff in Ec as [Ec _]. cbn in Ec.
    apply Z.eqb_eq in Ec.
    set (f1 := if _ <? _ then _ else _).
    destruct (Z.eqb_spec len (prefix f1)) as [->|]; [|discriminate]. simpl.
    intros H. injection H as <- <-. split; [reflexivity|]. exists f1.
    subst f1. destruct (_ <? _).
    + pose proof (rewind_keeps (set_arc (Some a) f0)) as (? & ? & ? & ? & ? & ? & ?).
      cbn in *. intuition congruence.
    + cbn. intuition congruence.
  - intros H. injection H as <- <-. split; [reflexivity|].
    eexists. split; [reflexivity|]. cbn. tauto.
Qed.


Lemma frames_only_refl (e : SegmentTermsEnum) : frames_only e e.
Proof. destruct e. reflexivity. Qed.

Lemma frames_only_trans (e1 e2 e3 : SegmentTermsEnum) :
  frames_only e1 e2 → frames_only e2 e3 → frames_only e1 e3.
Proof. unfold frames_only. intros -> ->. reflexivity. Qed.

Lemma frames_only_setFrame (e : SegmentTermsEnum) (p : Z) (f : segmentTermsEnumFrame) :
  0 <= p → frames_only e (setFrame e p f).
Proof.
  unfold frames_only, setFrame. intros H.
  destruct (Z.ltb_spec p 0); [lia|]. destruct e. reflexivity.
Qed.

Lemma frames_only_fields (e e' : SegmentTermsEnum) :
  frames_only e e' →
  fieldReader e' = fieldReader e ∧ e_in e' = e_in e
  ∧ staticFrame e' = staticFrame e ∧ currentFrame e' = currentFrame e
  ∧ termExists e' = termExists e
  ∧ targetBeforeCurrentLength e' = targetBeforeCurrentLength e
  ∧ validIndexPrefix e' = validIndexPrefix e ∧ eof e' = eof e
  ∧ term e' = term e ∧ arcs e' = arcs e.
Proof. intros ->. cbn. tauto. Qed.

(** [pushFrame]: the frame it returns is the one above the current frame;
    it carries the pointer and the flags of the code, decoded as the
    format lays them out, and the length it was pushed at; the other
    frames and the rest of the cursor are as they were. *)
Lemma pushFrame_spec (e e' : SegmentTermsEnum) (a : nat) (frameData : list byte)
    (len p : Z) :
  live e (currentFrame e) →
  pushFrame e a frameData len = Ok (e', p) →
  let o := 1 + ord (frameAt e (currentFrame e)) in
  let f := frameAt e' o in
  p = o ∧ 0 <= o ∧ live e' o ∧ frames_only e e'
  ∧ ord f = o ∧ prefix f = len
  ∧ (∃ rd code, din_ReadVLong (din_Reset frameData) = (rd, code, None)
       ∧ fpOrig f = Z.shiftr code 2
       ∧ hasTerms f = Z.testbit code 1 ∧ isFloor f = Z.testbit code 0)
  ∧ (length (stack e) <= length (stack e'))%nat
  ∧ (∀ q, live e q → q ≠ o → frameAt e' q = frameAt e q)
  ∧ (∀ q, live e' q → live e q ∨ q <= o).
Proof.
  intros Hcur H o f. unfold pushFrame in H.
  destruct (din_ReadVLong (din_Reset frameData)) as [[sr code] err] eqn:Ecode.
  destruct err as [er|]; [discriminate|].
  pose proof (din_ReadVLong_range _ _ _ Ecode) as Hrange.
  set (e0 := set_scratchReader sr e) in H.
  assert (Hat0 : ∀ q, frameAt e0 q = frameAt e q) by reflexivity.
  assert (Hst0 : stack e0 = stack e) by reflexivity.
  change (currentFrame e0) with (currentFrame e) in H.
  rewrite Hat0 in H. fold o in H.
  apply bind_Ok in H as ([e1 p1] & Hf & H).
  apply frame_spec in Hf as (-> & Ho & Hlive1 & Hord1 & ext & -> & Hbound).
  set (e1 := set_stack (stack e0 ++ ext) e0) in *.
  assert (Hat1 : ∀ q, live e q → frameAt e1 q = frameAt e q).
  { intros q Hq. rewrite <- Hat0. apply frameAt_grow. exact Hq. }
  apply bind_Ok in H as (f2 & Hfloor & H).
  apply bind_Ok in H as ([e3 p3] & Hat & H). injection H as <- <-.
  set (f1 := set_isFloor _ (set_hasTermsOrig _ (set_hasTerms _ (frameAt e1 o)))) in *.
  assert (Hf2 : ord f2 = o ∧ hasTerms f2 = hasTerms f1
                ∧ hasTermsOrig f2 = hasTerms f1 ∧ isFloor f2 = isFloor f1).
  { destruct (isFloor f1) eqn:Efl.
    - apply setFloorData_keeps in Hfloor as (? & ? & ? & ? & ? & ? & ?).
      subst f1. cbn in *. intuition congruence.
    - injection Hfloor as <-. subst f1. cbn in *. intuition congruence. }
  destruct Hf2 as (Hord2 & Hht & Hhto & Hfl).
  assert (Hne : o ≠ currentFrame e).
  { intros Heq. rewrite Heq, Hat1 in Hord1 by exact Hcur. subst o. lia. }
  set (e2 := setFrame e1 o f2) in *.
  assert (Hcur2 : frameAt e2 (currentFrame e) = frameAt e (currentFrame e)).
  { subst e2. rewrite frameAt_setFrame_ne by assumption. apply Hat1, Hcur. }
  assert (Hcf : currentFrame e2 = currentFrame e).
  { subst e2. unfold setFrame. destruct (o <? 0); reflexivity. }
  assert (Hlive2 : live e2 o) by (apply live_setFrame; assumption).
  assert (Hf2at : frameAt e2 o = f2) by (apply frameAt_setFrame; assumption).
  pose proof (pushFrameAt_spec e2 e3 a
                (to_int64 (Z.shiftr (to_uint64 code) BTT_OUTPUT_FLAGS_NUM_BITS))
                len p3) as Hs.
  cbv zeta in Hs.
  rewrite Hcf, Hcur2 in Hs. fold o in Hs. rewrite Hf2at in Hs.
  specialize (Hs Ho Hlive2 Hord2 Hat).
  destruct Hs as (_ & f' & -> & Hord' & Hpre & Hfp & Hfl' & Hhto' & Hht').
  assert (Hfo : frames_only e (setFrame e2 o f')).
  { eapply frames_only_trans; [|apply frames_only_setFrame; exact Ho].
    eapply frames_only_trans; [|apply frames_only_setFrame; exact Ho].
    subst e1 e0. unfold frames_only. destruct e. reflexivity. }
  subst f. rewrite frameAt_setFrame by assumption.
  repeat split; try assumption.
  - apply live_setFrame. assumption.
  - exists sr, code. split; [reflexivity|].
    rewrite Hfp. change BTT_OUTPUT_FLAGS_NUM_BITS with 2.
    rewrite unsigned_shift by lia. split; [reflexivity|].
    assert (hasTerms f' = hasTerms f1) as -> by (destruct Hht'; congruence).
    rewrite Hfl', Hfl. subst f1. cbn.
    split; [apply (land_flag code 1)|apply (land_flag code 0)]; lia.
  - unfold setFrame. destruct (Z.ltb_spec o 0); [lia|]. cbn.
    rewrite !length_insert. subst e2. unfold setFrame.
    destruct (Z.ltb_spec o 0); [lia|]. cbn.
    rewrite length_insert, length_app. lia.
  - intros q Hq Hqo. subst e2.
    rewrite !frameAt_setFrame_ne by (try lia; congruence).
    apply Hat1, Hq.
  - intros q Hq. apply live_setFrame in Hq. subst e2.
    apply live_setFrame in Hq. apply Hbound. exact Hq.
Qed.

(** ** The example dictionary *)

Example ex_cursor_made : newSegmentTermsEnum ex_field = Ok ex_cursor.
Proof. reflexivity. Qed.

Example ex_cursor_noindex_made :
  newSegmentTermsEnum ex_field_noindex = Ok ex_cursor_noindex.
Proof. reflexivity. Qed.

(** ** The codes of the index: root code and arc outputs *)



(** ** The field reader *)

(** C6, as the code has it.  A directory entry with [num_terms <= 0] makes
    the construction of the field reader fail on its assertion: it panics
    with "assert fail", a message that names no field, whatever the other
    values of the entry; it neither succeeds nor returns an error. *)
Theorem newFieldReader_asserts_numTerms
    (LoadFST : IndexInput → option FST * option error)
    (own : TermsDict) (fi : FieldInfo) (nTerms : Z) (code0 : list byte)
    (sttf sdf dc start : Z) (indexIn : option IndexInput) :
  nTerms <= 0 →
  newFieldReader LoadFST own fi nTerms code0 sttf sdf dc start indexIn
  = Panic "assert fail".
Proof.
  intros H. unfold newFieldReader.
  destruct (Z.leb_spec nTerms 0); [reflexivity|lia].
Qed.

Lemma newFieldReader_asserts_numTerms_witness :
  newFieldReader ex_loadFST ex_dict ex_fieldInfo 0 ex_rootCode (-1) 2 2 0 None
  = Panic "assert fail".
Proof.
  apply newFieldReader_asserts_numTerms. lia.
Defined.

(** C6, as the specification has it, fails: for the empty field the
    constructor returns no error at all, so none that is a corrupt-index
    error citing the field. *)
Lemma newFieldReader_numTerms_zero_no_error :
  ¬ ∃ er, newFieldReader ex_loadFST ex_dict ex_fieldInfo 0 ex_rootCode (-1) 2 2 0 None
          = Err er
        ∧ is_corrupt_index er = true
        ∧ error_field er = Some (fi_name ex_fieldInfo).
Proof. intros (er & H & _). discriminate H. Qed.

(** ** The dictionary reader: [Terms] *)

(** [Terms] never yields nil: for a field that is not in the map it hands
    out a pointer to the zero value of [FieldReader]. *)
Lemma Terms_of_absent_field (r : BlockTreeTermsReader) (field : string) :
  fields r !! field = None → Terms r field = Some zeroFieldReader.
Proof. unfold Terms. intros ->. reflexivity. Qed.

Lemma Terms_of_loaded_field (r : BlockTreeTermsReader) (field : string)
    (fr : FieldReader) :
  fields r !! field = Some fr → Terms r field = Some fr.
Proof. unfold Terms. intros ->. reflexivity. Qed.

(** C7 at the failing input: on a reader with no field at all, [Terms]
    answers with a reader, not with none. *)
Theorem Terms_absent_field_not_none :
  Terms (mkReader (mkInput ex_file 0 []) ex_postings ∅ 0 0 "_0" 1) "body"
  = Some zeroFieldReader.
Proof. reflexivity. Qed.

(** ** [SeekExact] without an index *)

(** C10.  On a cursor whose field has no index, [SeekExact] panics with
    "terms index was not loaded": it returns neither a result nor an error,
    and no state comes out of the call. *)
Theorem SeekExact_without_index (growslice : nat → nat)
    (e : SegmentTermsEnum) (target : list byte) :
  index (fieldReader e) = None →
  SeekExact growslice e target = Panic "terms index was not loaded".
Proof.
  intros H. unfold SeekExact, seekIndex. rewrite H. reflexivity.
Qed.

Lemma SeekExact_without_index_witness :
  SeekExact ex_growslice ex_cursor_noindex [x78; x61]
  = Panic "terms index was not loaded".
Proof.
  apply SeekExact_without_index. reflexivity.
Defined.

(** ** [scanToFloorFrame] *)

(** The part of C4 the code has: nothing happens on a frame that is not
    floored, for a target no longer than the prefix, and for a target label
    below the next floor label. *)
Lemma scanToFloorFrame_stays (f : segmentTermsEnumFrame) (target : list byte) :
  isFloor f = false ∨ blen target <= prefix f
  ∨ (∃ b, at_index target (prefix f) = Some b ∧ int_of_byte b < nextFloorLabel f) →
  scanToFloorFrame f target = Ok f.
Proof.
  unfold scanToFloorFrame. intros [H|[H|(b & Hb & H)]].
  - rewrite H. reflexivity.
  - destruct (Z.leb_spec (blen target) (prefix f)); [|lia].
    rewrite orb_true_r. reflexivity.
  - rewrite Hb. destruct (Z.ltb_spec (int_of_byte b) (nextFloorLabel f)); [|lia].
    destruct (_ || _); reflexivity.
Qed.


(** C4 at the failing input: a block of prefix length 0 floored at the
    labels [h], [p] and [w], and the target [k]. *)
Theorem scanToFloorFrame_not_implemented :
  scanToFloorFrame ex_floorFrame [x6b] = Panic "not implemented yet".
Proof. reflexivity. Qed.

(** ** The scan of a leaf block *)

(** C1 fails on the code in the first place because the scan never gets to
    its loop: on a loaded block with entries left, [scanToTermLeaf] calls
    [prefixMatches], which is not implemented, and panics -- whatever the
    entries and the target are. *)
Theorem scanToTermLeaf_stops_at_prefixMatches
    (e : SegmentTermsEnum) (p : Z) (target : list byte) (exactOnly : bool) :
  nextEnt (frameAt e p) ≠ -1 →
  nextEnt (frameAt e p) ≠ entCount (frameAt e p) →
  scanToTermLeaf e p target exactOnly = Panic "not implemented yet".
Proof.
  intros H1 H2. unfold scanToTermLeaf.
  destruct (Z.eqb_spec (nextEnt (frameAt e p)) (-1)); [contradiction|].
  cbn [nextEnt entCount set_subCode].
  destruct (Z.eqb_spec (nextEnt (frameAt e p)) (entCount (frameAt e p)));
    [contradiction|].
  reflexivity.
Qed.

Lemma scanToTermLeaf_stops_at_prefixMatches_witness :
  scanToTermLeaf ex_loaded 0 [x78; x61] true = Panic "not implemented yet".
Proof.
  apply scanToTermLeaf_stops_at_prefixMatches; vm_compute; discriminate.
Defined.

(** The difference of two bytes is a byte: converted to [int] it is never
    negative, so the loop cannot find an entry to be before the target by
    comparing bytes. *)
Lemma byte_difference_not_negative (a b : byte) :
  (int_of_byte (byte_sub a b) <? 0) = false.
Proof.
  pose proof (int_of_byte_range (byte_sub a b)).
  destruct (Z.ltb_spec (int_of_byte (byte_sub a b)) 0); [lia|reflexivity].
Qed.


(** A read of a vInt that succeeds moves the cursor forward, by a byte at
    least, and a read past the end of the bytes fails. *)
Lemma din_ReadVInt_advance (r r' : ByteArrayDataInput) (v : Z) :
  din_ReadVInt r = (r', v, None) →
  bytes r' = bytes r ∧ 0 <= Pos r ∧ Pos r + 1 <= Pos r'.
Proof.
  unfold din_ReadVInt, din_ReadVar.
  destruct (decode_var 5 0 _) as [er|[w k]] eqn:E; [discriminate|].
  intros H. injection H as <- _. cbn.
  apply decode_var_range in E as Hk; [|lia]. destruct Hk as [_ Hk].
  split; [reflexivity|]. split; [|lia].
  unfold rest_from in E. destruct (Z.ltb_spec (Pos r) 0); [discriminate|lia].
Qed.

Lemma din_ReadVInt_past (r : ByteArrayDataInput) :
  (length (bytes r) < Z.to_nat (Pos r))%nat →
  din_ReadVInt r = (r, 0, Some EOF).
Proof.
  intros H. unfold din_ReadVInt, din_ReadVar, rest_from.
  destruct (Z.ltb_spec (Pos r) 0); [lia|].
  rewrite drop_ge by lia. reflexivity.
Qed.

(** An entry that could be compared with the target has a suffix that is
    not of negative length. *)
Lemma compareSuffix_Ok (f : segmentTermsEnumFrame) (target : list byte)
    (termLen targetLimit start from : Z) (c : entry_order) :
  compareSuffix f target termLen targetLimit (Z.to_nat (targetLimit - from))
                start from = Ok c →
  from <= targetLimit.
Proof.
  destruct (Z.to_nat (targetLimit - from)) eqn:E; [|lia].
  cbn [compareSuffix]. destruct (Z.eqb_spec from targetLimit); [lia|discriminate].
Qed.

(** The turns [scanToTermLeaf] gives to the loop over the entries are
    enough: once the turns left are more than the bytes left in the suffix
    blob, their number does not matter. *)
Lemma scanLeafEntries_enough (target : list byte) (exactOnly : bool) (p : Z) :
  ∀ (t1 t2 : nat) (e : SegmentTermsEnum),
  live e p →
  let sr := suffixesReader (frameAt e p) in
  (length (bytes sr) < t1 + Z.to_nat (Pos sr))%nat →
  (length (bytes sr) < t2 + Z.to_nat (Pos sr))%nat →
  scanLeafEntries t1 e p target exactOnly = scanLeafEntries t2 e p target exactOnly.
Proof.
  assert (Hpast : ∀ t e, live e p →
            (length (bytes (suffixesReader (frameAt e p)))
             < Z.to_nat (Pos (suffixesReader (frameAt e p))))%nat →
            scanLeafEntries t e p target exactOnly = Err EOF).
  { intros [|t] e Hl Hp; [reflexivity|]. cbn [scanLeafEntries].
    change (suffixesReader (set_nextEnt _ (frameAt e p)))
      with (suffixesReader (frameAt e p)).
    rewrite (din_ReadVInt_past _ Hp). reflexivity. }
  induction t1 as [|t1 IH]; intros [|t2] e Hl sr H1 H2; subst sr.
  - reflexivity.
  - rewrite (Hpast (S t2)); [reflexivity|exact Hl|lia].
  - rewrite (Hpast (S t1)); [reflexivity|exact Hl|lia].
  - cbn [scanLeafEntries].
    change (suffixesReader (set_nextEnt (nextEnt (frameAt e p) + 1) (frameAt e p)))
      with (suffixesReader (frameAt e p)).
    destruct (din_ReadVInt (suffixesReader (frameAt e p)))
      as [[sr v] [er|]] eqn:Eread; [reflexivity|].
    apply din_ReadVInt_advance in Eread as (Hbytes & Hpos & Hadv).
    destruct (_ || _); [reflexivity|].
    set (f := set_suffixesReader (din_SkipBytes _ _) _).
    destruct (compareSuffix f target _ _ _ _ _) as [c| |] eqn:Ecmp;
      [|reflexivity..].
    cbn [mbind outcome_bind].
    destruct c; [|reflexivity..].
    destruct (nextEnt f =? entCount f); [reflexivity|].
    apply compareSuffix_Ok in Ecmp.
    assert (Hv : 0 <= v).
    { unfold f in Ecmp. cbn in Ecmp.
      destruct (blen target <? prefix (frameAt e p) + v) eqn:E; [|lia].
      apply Z.ltb_lt in E. lia. }
    apply IH.
    + apply live_setFrame. exact Hl.
    + rewrite frameAt_setFrame by exact Hl.
      change (bytes (suffixesReader f)) with (bytes sr).
      change (Pos (suffixesReader f)) with (Pos sr + v).
      rewrite Hbytes. lia.
    + rewrite frameAt_setFrame by exact Hl.
      change (bytes (suffixesReader f)) with (bytes sr).
      change (Pos (suffixesReader f)) with (Pos sr + v).
      rewrite Hbytes. lia.
Qed.

(** Past the assertion, the loop itself answers wrongly: in the block of
    [xa] and [xb] the target [xb] is reported as not found, at the first
    entry, and the target [xa] alone is found. *)
Example scanLeafEntries_takes_smaller_entry_for_greater :
  status_of (scanLeafEntries 129 (set_termExists true ex_loaded) 0 [x78; x62] true)
  = Some SEEK_STATUS_NOT_FOUND
  ∧ status_of (scanLeafEntries 129 (set_termExists true ex_loaded) 0 [x78; x61] true)
    = Some SEEK_STATUS_FOUND.
Proof. split; vm_compute; reflexivity. Qed.

(** ** The directory of the fields *)

Lemma in_ReadVInt_range (i i' : IndexInput) (v : Z) (err : option error) :
  in_ReadVInt i = (i', v, err) → - 2 ^ 31 <= v < 2 ^ 31.
Proof.
  unfold in_ReadVInt. destruct (in_ReadVar 5 i) as [[i1 v1] err1].
  intros H. injection H as _ <- _. apply to_int32_range.
Qed.

(** The document count of an entry is a 32-bit integer. *)
Lemma readEntry_docCount (INDEX_OPT_DOCS_ONLY : Z) (fieldInfos : FieldInfos)
    (fp fp1 : BlockTreeTermsReader) (d : DirEntry) :
  readEntry INDEX_OPT_DOCS_ONLY fieldInfos fp = Ok (d, fp1) →
  - 2 ^ 31 <= de_docCount d < 2 ^ 31.
Proof.
  unfold readEntry. intros H.
  repeat match type of H with
  | context [ let '(_, _) := ?x in _ ] =>
      let E := fresh "E" in destruct x as [[? ?] ?] eqn:E
  | context [ match ?x with _ => _ end ] =>
      let E := fresh "E" in destruct x eqn:E; try discriminate H
  end.
  injection H as <- _. cbn.
  match goal with E : in_ReadVInt _ = (_, ?z, _) |- _ <= ?z < _ =>
    exact (in_ReadVInt_range _ _ _ _ E) end.
Qed.

(** Closes the five parts of the statement below in a case where one of
    the checks has rejected the entry. *)
Ltac rejected :=
  cbn; repeat split; intros;
  first
    [ reflexivity
    | exfalso; lia
    | exfalso; tauto
    | match goal with
      | H : Err _ = Err ?er |- is_corrupt_index ?er = true =>
          injection H as <-; reflexivity
      end
    | match goal with
      | H : ?P → _, Hne : ?P |- _ => specialize (H Hne); exfalso; lia
      end ].

(** The checks of one turn of the loop over the fields, on the entry the
    turn has read. *)
Lemma readFields_checks_entry
    (LoadFST : IndexInput → option FST * option error)
    (INDEX_OPT_DOCS_ONLY : Z) (fieldInfos : FieldInfos) (info : SegmentInfo)
    (indexDivisor : Z) (fp fp1 : BlockTreeTermsReader)
    (indexIn : option IndexInput) (n : nat) (d : DirEntry) :
  readEntry INDEX_OPT_DOCS_ONLY fieldInfos fp = Ok (d, fp1) →
  let run := readFields LoadFST INDEX_OPT_DOCS_ONLY fieldInfos info
                        indexDivisor (S n) fp indexIn in
  let docCount_ok := 0 <= de_docCount d <= si_docCount info in
  let sumDocFreq_ok := de_docCount d <= de_sumDocFreq d in
  let sumTotalTermFreq_ok :=
    de_sumTotalTermFreq d ≠ -1 → de_sumDocFreq d <= de_sumTotalTermFreq d in
  (¬ docCount_ok →
   run = Err (InvalidDocCount (de_docCount d) (si_docCount info)))
  ∧ (docCount_ok → ¬ sumDocFreq_ok →
     run = Err (InvalidSumDocFreq (de_sumDocFreq d) (de_docCount d)))
  ∧ (docCount_ok → sumDocFreq_ok → ¬ sumTotalTermFreq_ok →
     run = Err (InvalidSumTotalTermFreq (de_sumTotalTermFreq d) (de_sumDocFreq d)))
  ∧ (docCount_ok → sumDocFreq_ok → sumTotalTermFreq_ok →
     ∀ start indexIn',
       readIndexStart indexDivisor indexIn = Ok (start, indexIn') →
       is_Some (fields fp1 !! fi_name (de_fieldInfo d)) →
       run = Err (DuplicateField (fi_name (de_fieldInfo d))))
  ∧ (∀ er, run = Err er →
       ¬ (docCount_ok ∧ sumDocFreq_ok ∧ sumTotalTermFreq_ok) →
       is_corrupt_index er = true).
Proof.
  intros Hread run docCount_ok sumDocFreq_ok sumTotalTermFreq_ok.
  pose proof (readEntry_docCount _ _ _ _ _ Hread) as Hdc.
  assert (H64 : to_int64 (de_docCount d) = de_docCount d).
  { apply to_int64_small.
    assert (2 ^ 31 < 2 ^ 63) by (apply Z.pow_lt_mono_r; lia). lia. }
  assert (Hrun : run =
    '(fp, indexIn) ←
      (if (de_docCount d <? 0) || (si_docCount info <? de_docCount d) then
         Err (InvalidDocCount (de_docCount d) (si_docCount info))
       else if de_sumDocFreq d <? de_docCount d then
         Err (InvalidSumDocFreq (de_sumDocFreq d) (de_docCount d))
       else if negb (de_sumTotalTermFreq d =? -1)
               && (de_sumTotalTermFreq d <? de_sumDocFreq d) then
         Err (InvalidSumTotalTermFreq (de_sumTotalTermFreq d) (de_sumDocFreq d))
       else
         '(indexStartFP, indexIn) ← readIndexStart indexDivisor indexIn;
         if bool_decide (is_Some (fields fp1 !! fi_name (de_fieldInfo d))) then
           Err (DuplicateField (fi_name (de_fieldInfo d)))
         else
           r ← newFieldReader LoadFST (dict_of fp1) (de_fieldInfo d)
                  (de_numTerms d) (de_rootCode d) (de_sumTotalTermFreq d)
                  (de_sumDocFreq d) (de_docCount d) indexStartFP indexIn;
           Ok (with_fields fp1 (<[fi_name (de_fieldInfo d) := r]> (fields fp1)),
               indexIn));
      readFields LoadFST INDEX_OPT_DOCS_ONLY fieldInfos info indexDivisor n
                 fp indexIn).
  { subst run. cbn [readFields]. unfold readField. rewrite Hread.
    cbn [mbind outcome_bind]. rewrite H64. reflexivity. }
  clearbody run. subst run.
  unfold docCount_ok, sumDocFreq_ok, sumTotalTermFreq_ok.
  clear docCount_ok sumDocFreq_ok sumTotalTermFreq_ok Hread.
  destruct (Z.ltb_spec (de_docCount d) 0) as [Hd|Hd]; [solve [rejected]|].
  destruct (Z.ltb_spec (si_docCount info) (de_docCount d)) as [Hm|Hm];
    [solve [rejected]|].
  destruct (Z.ltb_spec (de_sumDocFreq d) (de_docCount d)) as [Hs|Hs];
    [solve [rejected]|].
  assert (Hdup : ∀ start indexIn',
    readIndexStart indexDivisor indexIn = Ok (start, indexIn') →
    is_Some (fields fp1 !! fi_name (de_fieldInfo d)) →
    ('(fp, indexIn) ←
       ('(indexStartFP, indexIn) ← readIndexStart indexDivisor indexIn;
        if bool_decide (is_Some (fields fp1 !! fi_name (de_fieldInfo d))) then
          Err (DuplicateField (fi_name (de_fieldInfo d)))
        else
          r ← newFieldReader LoadFST (dict_of fp1) (de_fieldInfo d)
                 (de_numTerms d) (de_rootCode d) (de_sumTotalTermFreq d)
                 (de_sumDocFreq d) (de_docCount d) indexStartFP indexIn;
          Ok (with_fields fp1 (<[fi_name (de_fieldInfo d) := r]> (fields fp1)),
              indexIn));
     readFields LoadFST INDEX_OPT_DOCS_ONLY fieldInfos info indexDivisor n
                fp indexIn)
    = Err (DuplicateField (fi_name (de_fieldInfo d)))).
  { intros start indexIn' -> Hsome. cbn.
    rewrite bool_decide_eq_true_2 by assumption. reflexivity. }
  destruct (Z.eqb_spec (de_sumTotalTermFreq d) (-1)) as [Hu|Hu];
    cbn [negb andb orb].
  - repeat split; intros; try (exfalso; lia); try (exfalso; tauto); eauto.
  - destruct (Z.ltb_spec (de_sumTotalTermFreq d) (de_sumDocFreq d)) as [Ht|Ht].
    + rejected.
    + repeat split; intros; try (exfalso; lia); try (exfalso; tauto); eauto.
Qed.

(** The loop over the fields, in two runs. *)
Lemma readFields_app (LoadFST : IndexInput → option FST * option error)
    (INDEX_OPT_DOCS_ONLY : Z) (fieldInfos : FieldInfos) (info : SegmentInfo)
    (indexDivisor : Z) (k n : nat) :
  ∀ (fp : BlockTreeTermsReader) (indexIn : option IndexInput),
  readFields LoadFST INDEX_OPT_DOCS_ONLY fieldInfos info indexDivisor (k + n)
             fp indexIn
  = '(fp, indexIn) ← readFields LoadFST INDEX_OPT_DOCS_ONLY fieldInfos info
                                indexDivisor k fp indexIn;
    readFields LoadFST INDEX_OPT_DOCS_ONLY fieldInfos info indexDivisor n
               fp indexIn.
Proof.
  induction k as [|k IH]; intros fp indexIn; [reflexivity|].
  cbn [readFields Nat.add].
  destruct (readField _ _ _ _ _ _ _) as [[fp' indexIn']| |]; cbn; auto.
Qed.

(** C5.  Take the construction of a reader at any field of the directory:
    the files are open, the fields before it have been read and accepted,
    and its entry has been read from [tim].  The constructor checks the
    entry before it builds the field reader: a document count outside
    [0, segment.max_doc], a [sum_doc_freq] below the document count, a
    [sum_total_term_freq] other than -1 below [sum_doc_freq], and (once the
    pointer into the index has been read) a field name that is already in
    the map each make the construction return the error that describes the
    violation; each of these errors reports a corrupt index. *)
Theorem directory_invariants_checked
    (CheckHeader : IndexInput → string → Z → Z → IndexInput * Z * option error)
    (LoadFST : IndexInput → option FST * option error)
    (INDEX_OPT_DOCS_ONLY : Z) (dir : Directory) (fieldInfos : FieldInfos)
    (info : SegmentInfo) (postings : PostingsReaderBase)
    (segmentSuffix : string) (indexDivisor : Z)
    (fp0 fp fp1 : BlockTreeTermsReader) (indexIn0 indexIn : option IndexInput)
    (numFields : Z) (k : nat) (d : DirEntry) :
  openDirectory CheckHeader dir info postings segmentSuffix indexDivisor
  = Ok (fp0, indexIn0, numFields) →
  (k < Z.to_nat numFields)%nat →
  readFields LoadFST INDEX_OPT_DOCS_ONLY fieldInfos info indexDivisor k
             fp0 indexIn0 = Ok (fp, indexIn) →
  readEntry INDEX_OPT_DOCS_ONLY fieldInfos fp = Ok (d, fp1) →
  let run := newBlockTreeTermsReader CheckHeader LoadFST INDEX_OPT_DOCS_ONLY
               dir fieldInfos info postings segmentSuffix indexDivisor in
  let docCount_ok := 0 <= de_docCount d <= si_docCount info in
  let sumDocFreq_ok := de_docCount d <= de_sumDocFreq d in
  let sumTotalTermFreq_ok :=
    de_sumTotalTermFreq d ≠ -1 → de_sumDocFreq d <= de_sumTotalTermFreq d in
  (¬ docCount_ok →
   run = Err (InvalidDocCount (de_docCount d) (si_docCount info)))
  ∧ (docCount_ok → ¬ sumDocFreq_ok →
     run = Err (InvalidSumDocFreq (de_sumDocFreq d) (de_docCount d)))
  ∧ (docCount_ok → sumDocFreq_ok → ¬ sumTotalTermFreq_ok →
     run = Err (InvalidSumTotalTermFreq (de_sumTotalTermFreq d) (de_sumDocFreq d)))
  ∧ (docCount_ok → sumDocFreq_ok → sumTotalTermFreq_ok →
     ∀ start indexIn',
       readIndexStart indexDivisor indexIn = Ok (start, indexIn') →
       is_Some (fields fp1 !! fi_name (de_fieldInfo d)) →
       run = Err (DuplicateField (fi_name (de_fieldInfo d))))
  ∧ (∀ er, run = Err er →
       ¬ (docCount_ok ∧ sumDocFreq_ok ∧ sumTotalTermFreq_ok) →
       is_corrupt_index er = true).
Proof.
  intros Hopen Hk Hbefore Hread run.
  set (n := (Z.to_nat numFields - S k)%nat).
  set (loop := readFields LoadFST INDEX_OPT_DOCS_ONLY fieldInfos info
                          indexDivisor (S n) fp indexIn).
  assert (Hrun : run = '(fp, _) ← loop; Ok fp).
  { subst run loop. unfold newBlockTreeTermsReader. rewrite Hopen.
    cbn [mbind outcome_bind].
    replace (Z.to_nat numFields) with (k + S n)%nat by lia.
    rewrite readFields_app, Hbefore. reflexivity. }
  assert (Hfail : ∀ er, loop = Err er → run = Err er).
  { intros er E. rewrite Hrun, E. reflexivity. }
  assert (Hback : ∀ er, run = Err er → loop = Err er).
  { intros er E. rewrite Hrun in E.
    destruct loop as [[fp' indexIn']| |]; cbn in E;
      [discriminate|injection E as ->; reflexivity|discriminate]. }
  destruct (readFields_checks_entry LoadFST INDEX_OPT_DOCS_ONLY fieldInfos info
              indexDivisor fp fp1 indexIn n d Hread)
    as (H1 & H2 & H3 & H4 & H5).
  fold loop in H1, H2, H3, H4, H5.
  split; [|split; [|split; [|split]]].
  - intros Hno. apply Hfail, H1, Hno.
  - intros Hd Hno. apply Hfail, H2; assumption.
  - intros Hd Hs Hno. apply Hfail, H3; assumption.
  - intros Hd Hs Ht start indexIn' Hstart Hsome.
    apply Hfail. exact (H4 Hd Hs Ht start indexIn' Hstart Hsome).
  - intros er Hrun' Hno. apply (H5 er); [apply Hback; exact Hrun'|exact Hno].
Qed.

Lemma directory_invariants_checked_witness :
  newBlockTreeTermsReader ex_checkHeader ex_loadFST 1 ex_bad_dir ex_fieldInfos
                          ex_info ex_postings EmptyString (-1)
  = Err (InvalidDocCount 5 3).
Proof.
  destruct (openDirectory ex_checkHeader ex_bad_dir ex_info ex_postings
                          EmptyString (-1))
    as [[[fp0 indexIn0] numFields]| |] eqn:Eopen;
    [|vm_compute in Eopen; discriminate Eopen..].
  destruct (readEntry 1 ex_fieldInfos fp0) as [[d fp1]| |] eqn:E;
    [|vm_compute in Eopen; injection Eopen as <- _ _;
      vm_compute in E; discriminate E..].
  pose proof (directory_invariants_checked ex_checkHeader ex_loadFST 1
                ex_bad_dir ex_fieldInfos ex_info ex_postings EmptyString (-1)
                fp0 fp0 fp1 indexIn0 indexIn0 numFields 0 d Eopen) as H.
  vm_compute in Eopen. injection Eopen as <- <- <-.
  specialize (H ltac:(vm_compute; lia) eq_refl E).
  cbv zeta in H. destruct H as [H _].
  vm_compute in E. injection E as <- <-.
  apply H. cbn. lia.
Defined.

(** ** The answer of a seek and the seeks before it *)

(** C3 at the failing input.  The index has no arc for [a] nor for [b] at
    the root, and the root block has no terms: both seeks are answered by
    the index alone.  On a fresh cursor the seek of [b] leaves the term
    [b]; after a seek of [a] the same seek leaves the term [ab], because
    the missing label is appended to the term buffer instead of being
    written at its place in it. *)
Theorem seek_term_depends_on_prior_seeks :
  newSegmentTermsEnum ex_field = Ok ex_cursor
  ∧ seeks ex_growslice ex_cursor [[x61]] = Ok ex_primed
  ∧ SeekExact ex_growslice ex_cursor [x62] = Ok (false, ex_after_fresh)
  ∧ SeekExact ex_growslice ex_primed [x62] = Ok (false, ex_after_primed)
  ∧ Term ex_after_fresh = Ok [x62]
  ∧ Term ex_after_primed = Ok [x61; x62].
Proof.
  repeat split; vm_compute; reflexivity.
Qed.

(** ** What the walk through the index leaves alone *)

Lemma slice_get_Some (s : slice) (i : Z) (b : byte) :
  slice_get s i = Some b ↔ 0 <= i ∧ visible s !! Z.to_nat i = Some b.
Proof.
  unfold slice_get, slice_len.
  destruct (Z.leb_spec 0 i) as [H0|H0]; cbn; [|split; [discriminate|lia]].
  destruct (Z.ltb_spec i (Z.of_nat (length (visible s)))) as [H1|H1].
  - tauto.
  - split; [discriminate|]. intros [_ Hb]. apply lookup_lt_Some in Hb. lia.
Qed.

Lemma growTerm_spec (e e' : SegmentTermsEnum) (target : list byte) :
  growTerm e target = Ok e' →
  e' = set_term (term e') e
  ∧ (length target <= slice_cap (term e'))%nat
  ∧ visible (term e') = visible (term e).
Proof.
  unfold growTerm.
  destruct (Nat.leb_spec (slice_cap (term e)) (length target)) as [Hc|Hc].
  - destruct (Nat.ltb_spec (length target) (length (visible (term e)))) as [Hl|Hl];
      [discriminate|].
    intros H. injection H as <-. cbn [term set_term].
    split; [reflexivity|].
    unfold slice_regrow, slice_on, slice_cap. cbn [visible spare].
    rewrite firstn_all. rewrite take_app_length.
    rewrite drop_app_length, length_replicate. split; [lia|reflexivity].
  - intros H. injection H as <-. split; [destruct e; reflexivity|].
    split; [lia|reflexivity].
Qed.

Lemma frame_keeps (e e' : SegmentTermsEnum) (o p : Z) :
  frame e o = Ok (e', p) → e' = set_stack (stack e') e.
Proof.
  intros H. apply frame_spec in H as (_ & _ & _ & _ & ext & -> & _). reflexivity.
Qed.

Lemma seekStateLoop_keeps (idx : option FST) (n : nat) :
  ∀ (e e' : SegmentTermsEnum) (o : Z) (b : bool),
  seekStateLoop idx n e o b = Ok e' → e' = set_stack (stack e') e.
Proof.
  induction n as [|n IH]; intros e e' o b H; cbn [seekStateLoop] in H.
  - apply bind_Ok in H as ([e1 p] & Hf & H). apply frame_keeps in Hf.
    ok_inv H; injection H as <-; exact Hf.
  - apply bind_Ok in H as ([e1 p] & Hf & H). apply frame_keeps in Hf.
    ok_inv H; try (injection H as <-; exact Hf);
      apply IH in H; rewrite H, Hf; reflexivity.
Qed.

Lemma printSeekState_keeps (e e' : SegmentTermsEnum) :
  printSeekState e = Ok e' → e' = set_stack (stack e') e.
Proof.
  unfold printSeekState. destruct (currentFrame e <? 0).
  - intros H. injection H as <-. destruct e; reflexivity.
  - apply seekStateLoop_keeps.
Qed.

Lemma pushFrameAt_frames_only (e e' : SegmentTermsEnum) (a : nat) (fp0 len p : Z) :
  pushFrameAt e a fp0 len = Ok (e', p) → frames_only e e'.
Proof.
  unfold pushFrameAt. intros H.
  apply bind_Ok in H as ([e1 p1] & Hf & H).
  pose proof (frame_spec _ _ _ _ Hf) as (-> & Ho & _).
  apply frame_keeps in Hf.
  assert (frames_only e e1) as H1 by (rewrite Hf; destruct e; reflexivity).
  ok_inv H; injection H as <- <-;
    (eapply frames_only_trans; [exact H1|apply frames_only_setFrame; exact Ho]).
Qed.

Lemma pushFrame_frames_only (e e' : SegmentTermsEnum) (a : nat)
    (frameData : list byte) (len p : Z) :
  pushFrame e a frameData len = Ok (e', p) → frames_only e e'.
Proof.
  unfold pushFrame. intros H.
  destruct (din_ReadVLong (din_Reset frameData)) as [[sr code] [er|]];
    [discriminate|].
  apply bind_Ok in H as ([e1 p1] & Hf & H).
  pose proof (frame_spec _ _ _ _ Hf) as (-> & Ho & _).
  apply frame_keeps in Hf.
  apply bind_Ok in H as (f2 & _ & H).
  apply bind_Ok in H as ([e3 p3] & Hat & H). injection H as <- <-.
  apply pushFrameAt_frames_only in Hat.
  eapply frames_only_trans; [|exact Hat].
  eapply frames_only_trans; [|apply frames_only_setFrame; exact Ho].
  rewrite Hf. destruct e; reflexivity.
Qed.

Lemma getArc_spec (e e' : SegmentTermsEnum) (o : Z) (slot : nat) :
  getArc e o = Ok (e', slot) →
  0 <= o ∧ slot = Z.to_nat o ∧ (slot < length (arcs e'))%nat
  ∧ ∃ k, e' = set_arcs (arcs e ++ replicate k zeroArc) e.
Proof.
  unfold getArc, at_index. intros H.
  set (e1 := if o =? _ then _ else _) in H.
  assert (Hk : ∃ k, e1 = set_arcs (arcs e ++ replicate k zeroArc) e).
  { subst e1. destruct (o =? _); [exists 1%nat; reflexivity|].
    destruct (_ <? o); [eexists; reflexivity|].
    exists 0%nat. cbn. rewrite app_nil_r. destruct e; reflexivity. }
  destruct (Z.ltb_spec o 0); [discriminate|].
  destruct (arcs e1 !! Z.to_nat o) eqn:E; [|discriminate].
  injection H as <- <-. apply lookup_lt_Some in E. auto.
Qed.

Lemma slice_set_spec (s s' : slice) (i : Z) (b : byte) :
  slice_set s i b = Some s' →
  0 <= i < slice_len s ∧ slice_cap s' = slice_cap s
  ∧ visible s' = <[Z.to_nat i := b]> (visible s).
Proof.
  unfold slice_set.
  destruct (Z.leb_spec 0 i) as [Hi0|Hi0], (Z.ltb_spec i (slice_len s)) as [Hi1|Hi1];
    try discriminate.
  cbn. intros H. injection H as <-. unfold slice_cap. cbn.
  rewrite length_insert. auto.
Qed.

(** The walk reads nothing from [tim], keeps the capacity of the term
    buffer, and when it ends with the target it ends at its length. *)
Lemma indexLoop_keeps (idx : FST) (target : list byte) (n : nat) :
  ∀ (e e1 : SegmentTermsEnum) (upto : Z) (a : nat) (out : list byte)
    (stop : seek_stop),
  indexLoop idx target n e upto a out = Ok (stop, e1) →
  e_in e1 = e_in e ∧ fieldReader e1 = fieldReader e
  ∧ slice_cap (term e1) = slice_cap (term e)
  ∧ ∀ u, stop = StopConsumed u → u = upto + Z.of_nat n.
Proof.
  induction n as [|n IH]; intros e e1 upto a out stop H; cbn [indexLoop] in H.
  - injection H as <- <-. repeat split. intros u Hu. injection Hu as <-. lia.
  - destruct (at_index target upto) as [b|]; [|discriminate].
    apply bind_Ok in H as ([e2 slot] & Hg & H).
    apply getArc_spec in Hg as (_ & _ & _ & k & ->).
    cbn [arcs set_arcs] in H.
    destruct (_ !! a) as [follow|]; [|discriminate].
    destruct (_ !! slot) as [scratch|]; [|discriminate].
    destruct (FindTargetArc idx _ follow scratch) as [found|scratch'|er];
      [|injection H as <- <-; repeat split; discriminate|discriminate].
    destruct (slice_set _ upto _) as [t|] eqn:Et; [|discriminate].
    apply slice_set_spec in Et as (_ & Hcap & _). cbn in Hcap.
    destruct (Output found); [|discriminate].
    destruct (IsFinal found).
    + apply bind_Ok in H as ([e3 p] & Hp & H).
      apply pushFrame_frames_only, frames_only_fields in Hp
        as (Hfr & Hin & _ & _ & _ & _ & _ & _ & Hterm & _).
      apply IH in H as (-> & -> & -> & Hu). cbn. rewrite Hin, Hfr, Hterm. cbn.
      repeat split; try assumption. intros u E. rewrite (Hu u E). lia.
    + apply IH in H as (-> & -> & -> & Hu). cbn.
      repeat split; try assumption. intros u E. rewrite (Hu u E). lia.
Qed.

Lemma reuseLoop_bounds (e : SegmentTermsEnum) (target : list byte) (n : nat) :
  ∀ (upto : Z) (a : nat) (out : list byte) (last : Z)
    (cmp r : Z) (a' : nat) (out' : list byte) (last' : Z),
  reuseLoop e target n upto a out last = Ok (cmp, r, a', out', last') →
  upto <= r <= upto + Z.of_nat n ∧ (cmp = 0 → r = upto + Z.of_nat n).
Proof.
  induction n as [|n IH]; intros upto a out last cmp r a' out' last' H;
    cbn [reuseLoop] in H.
  - injection H as <- <- _ _ _. lia.
  - destruct (slice_get _ _) as [tb|]; [|discriminate].
    destruct (at_index target upto) as [gb|]; [|discriminate].
    destruct (Z.eqb_spec (int_of_byte (byte_sub tb gb)) 0) as [Hc|Hc];
      cbn [negb] in H.
    + ok_inv H; apply IH in H; lia.
    + injection H as <- <- _ _ _. lia.
Qed.

Lemma setFrame_fields (e : SegmentTermsEnum) (p : Z) (f : segmentTermsEnumFrame) :
  e_in (setFrame e p f) = e_in e ∧ fieldReader (setFrame e p f) = fieldReader e
  ∧ term (setFrame e p f) = term e ∧ arcs (setFrame e p f) = arcs e
  ∧ currentFrame (setFrame e p f) = currentFrame e
  ∧ validIndexPrefix (setFrame e p f) = validIndexPrefix e
  ∧ termExists (setFrame e p f) = termExists e.
Proof. unfold setFrame. destruct (p <? 0); cbn; tauto. Qed.

Lemma indexLoop_keeps_from (idx : FST) (target : list byte)
    (e0 e e1 : SegmentTermsEnum) (r : Z) (a : nat) (out : list byte)
    (stop : seek_stop) :
  indexLoop idx target (Z.to_nat (blen target - r)) e r a out = Ok (stop, e1) →
  e_in e = e_in e0 → fieldReader e = fieldReader e0 →
  (length target <= slice_cap (term e))%nat → 0 <= r <= blen target →
  e_in e1 = e_in e0 ∧ fieldReader e1 = fieldReader e0
  ∧ ∀ u, stop = StopConsumed u → 0 <= u <= Z.of_nat (slice_cap (term e1)).
Proof.
  intros H Hin Hfr Hcap Hr.
  apply indexLoop_keeps in H as (-> & -> & -> & Hu).
  split; [assumption|split; [assumption|]].
  intros u E. rewrite (Hu u E). unfold blen in *. lia.
Qed.

(** The whole walk: nothing is read from [tim], and a walk that ends with
    the target ends within the capacity of the term buffer. *)
Lemma seekIndex_keeps (e e1 : SegmentTermsEnum) (target : list byte)
    (stop : seek_stop) :
  seekIndex e target = Ok (stop, e1) →
  e_in e1 = e_in e ∧ fieldReader e1 = fieldReader e
  ∧ ∀ u, stop = StopConsumed u → 0 <= u <= Z.of_nat (slice_cap (term e1)).
Proof.
  unfold seekIndex. intros H.
  destruct (index (fieldReader e)) as [idx|]; [|discriminate].
  apply bind_Ok in H as (e2 & Hg & H).
  apply growTerm_spec in Hg as (Hg & Hcap & _).
  apply bind_Ok in H as (e3 & Hp & H).
  apply printSeekState_keeps in Hp.
  assert (Hin : e_in e3 = e_in e ∧ fieldReader e3 = fieldReader e
                ∧ term e3 = term e2).
  { rewrite Hp, Hg. cbn. auto. }
  destruct Hin as (Hin & Hfr & Hterm). rewrite <- Hterm in Hcap.
  clear Hp Hg Hterm.
  match type of H with
  | (if ?c then _ else _) = _ => destruct c
  end.
  - destruct (at_index (arcs _) 0) as [first|]; [|discriminate].
    destruct (IsFinal first); [|discriminate]. cbn [negb] in H.
    destruct (Output first) as [output|]; [|discriminate].
    destruct (at_index (stack _) 0); [|discriminate].
    destruct (_ <? _); [discriminate|].
    apply bind_Ok in H as ([[[[cmp r] a] out] last] & Hr & H).
    apply reuseLoop_bounds in Hr as [Hr _].
    apply bind_Ok in H as (cmp' & _ & H).
    assert (Hup : 0 <= r <= blen target).
    { change (validIndexPrefix (set_targetBeforeCurrentLength _ e3))
        with (validIndexPrefix e3) in Hr.
      unfold blen in *.
      destruct (Z.ltb_spec (validIndexPrefix e3) (Z.of_nat (length target))); lia. }
    destruct (cmp' <? 0).
    { eapply indexLoop_keeps_from; [exact H|assumption..]. }
    destruct (0 <? cmp').
    { eapply indexLoop_keeps_from; [exact H|try assumption..];
        match goal with
        | |- context [ setFrame ?x ?p ?f ] =>
            destruct (setFrame_fields x p f) as (E1 & E2 & E3 & _);
            rewrite ?E1, ?E2, ?E3; cbn; assumption
        end. }
    destruct (_ =? _); [|discriminate]. cbn [negb] in H.
    destruct (termExists _).
    { injection H as <- <-. split; [assumption|split; [assumption|]].
      intros u Hu. discriminate Hu. }
    eapply indexLoop_keeps_from; [exact H|assumption..].
  - destruct (at_index (arcs _) 0) as [slot0|]; [|discriminate].
    destruct (Output _) as [output|]; [|discriminate].
    destruct (IsFinal _); [|discriminate]. cbn [negb] in H.
    apply bind_Ok in H as ([e4 p] & Hpush & H).
    apply pushFrame_frames_only, frames_only_fields in Hpush
      as (Hfr4 & Hin4 & _ & _ & _ & _ & _ & _ & Hterm4 & _).
    cbn in Hfr4, Hin4, Hterm4.
    assert (E : length target = Z.to_nat (blen target - 0))
      by (unfold blen; lia).
    rewrite E in H.
    eapply indexLoop_keeps_from; [exact H| | | |];
      cbn [e_in fieldReader term set_currentFrame].
    + congruence.
    + congruence.
    + rewrite Hterm4. exact Hcap.
    + unfold blen. lia.
Qed.

(** ** Absence proved by the index *)

Lemma scanToFloorFrame_same (f f' : segmentTermsEnumFrame) (target : list byte) :
  scanToFloorFrame f target = Ok f' → f' = f.
Proof.
  unfold scanToFloorFrame. intros H. ok_inv H; injection H as <-; reflexivity.
Qed.

(** The part of C2 the code has.  Take any call of [SeekExact] whose walk
    through the index ends -- on a label the index has no arc for, or at
    the end of the target -- on a frame without terms that
    [scanToFloorFrame] leaves as it is.  The call returns false, and the
    input [tim] of the cursor is as it was before the call, not even
    cloned: neither [loadBlock] nor [scanToTerm] has run. *)
Theorem fast_not_found_reads_nothing (growslice : nat → nat)
    (e e1 : SegmentTermsEnum) (target : list byte) (stop : seek_stop)
    (f : segmentTermsEnumFrame) :
  seekIndex e target = Ok (stop, e1) →
  stop ≠ StopSame →
  scanToFloorFrame (frameAt e1 (currentFrame e1)) target = Ok f →
  hasTerms f = false →
  ∃ e', SeekExact growslice e target = Ok (false, e') ∧ e_in e' = e_in e.
Proof.
  intros Hwalk Hstop Hfloor Hterms.
  pose proof (scanToFloorFrame_same _ _ _ Hfloor) as ->.
  apply seekIndex_keeps in Hwalk as Hkeep. destruct Hkeep as (Hin & _ & Hcap).
  unfold SeekExact. rewrite Hwalk. cbn [mbind outcome_bind].
  assert (Hsettle : ∀ v,
    setFrame (set_validIndexPrefix v e1) (currentFrame e1)
             (frameAt e1 (currentFrame e1)) = set_validIndexPrefix v e1).
  { intros v. apply (setFrame_frameAt (set_validIndexPrefix v e1)). }
  assert (Hat : ∀ v,
    hasTerms (frameAt (set_validIndexPrefix v e1)
                      (currentFrame (set_validIndexPrefix v e1))) = false).
  { intros v. exact Hterms. }
  destruct stop as [|targetLabel|targetUpto]; [contradiction| |].
  - unfold indexExhausted.
    change (frameAt (set_validIndexPrefix _ e1) (currentFrame (set_validIndexPrefix _ e1)))
      with (frameAt e1 (currentFrame e1)).
    rewrite Hfloor. cbn [mbind outcome_bind].
    change (currentFrame (set_validIndexPrefix _ e1)) with (currentFrame e1).
    rewrite Hsettle, Hat. cbn [negb].
    eexists. split; [reflexivity|]. exact Hin.
  - unfold targetConsumed.
    change (frameAt (set_validIndexPrefix _ e1) (currentFrame (set_validIndexPrefix _ e1)))
      with (frameAt e1 (currentFrame e1)).
    rewrite Hfloor. cbn [mbind outcome_bind].
    change (currentFrame (set_validIndexPrefix _ e1)) with (currentFrame e1).
    rewrite Hsettle, Hat. cbn [negb term set_termExists set_validIndexPrefix].
    specialize (Hcap targetUpto eq_refl).
    unfold slice_upto.
    destruct (Z.leb_spec 0 targetUpto); [|lia].
    destruct (Z.leb_spec targetUpto (Z.of_nat (slice_cap (term e1)))); [|lia].
    cbn [andb]. eexists. split; [reflexivity|]. exact Hin.
Qed.

Lemma fast_not_found_reads_nothing_witness :
  ∃ e', SeekExact ex_growslice ex_primed [x79; x71] = Ok (false, e')
        ∧ e_in e' = e_in ex_primed.
Proof.
  destruct (seekIndex ex_primed [x79; x71]) as [[stop e1]| |] eqn:E;
    [|vm_compute in E; discriminate E..].
  apply (fast_not_found_reads_nothing ex_growslice ex_primed e1 [x79; x71] stop
           (frameAt e1 (currentFrame e1)) E);
    vm_compute in E; injection E as <- <-;
    [discriminate | reflexivity | reflexivity].
Defined.



(** ** The arc stack and the term buffer *)

Lemma finals_mono (l : list Arc) (n m : nat) :
  (n <= m)%nat → (finals l n <= finals l m)%nat.
Proof.
  induction 1 as [|m _ IH]; [lia|]. cbn [finals]. lia.
Qed.

Lemma finals_ext (l l' : list Arc) (n : nat) :
  (∀ i, (1 <= i <= n)%nat → arc_final l i = arc_final l' i) →
  finals l n = finals l' n.
Proof.
  induction n as [|n IH]; intros H; [reflexivity|]. cbn [finals].
  rewrite IH by (intros i Hi; apply H; lia).
  rewrite (H (S n)) by lia. reflexivity.
Qed.

Lemma arc_final_grow (l : list Arc) (k i : nat) :
  arc_final (l ++ replicate k zeroArc) i = arc_final l i.
Proof.
  unfold arc_final. destruct (Nat.lt_ge_cases i (length l)) as [H|H].
  - rewrite lookup_app_l by exact H. reflexivity.
  - rewrite (lookup_ge_None_2 l i) by exact H.
    rewrite lookup_app_r by exact H.
    destruct (replicate k zeroArc !! (i - length l)%nat) as [a|] eqn:E;
      [|reflexivity].
    apply lookup_replicate in E as [-> _]. reflexivity.
Qed.

Lemma arc_final_insert_ne (l : list Arc) (i j : nat) (a : Arc) :
  i ≠ j → arc_final (<[j := a]> l) i = arc_final l i.
Proof.
  intros H. unfold arc_final. rewrite list_lookup_insert_ne by congruence.
  reflexivity.
Qed.

Lemma finals_insert_above (l : list Arc) (n j : nat) (a : Arc) :
  (n < j)%nat → finals (<[j := a]> l) n = finals l n.
Proof.
  intros H. apply finals_ext. intros i Hi. apply arc_final_insert_ne. lia.
Qed.

Lemma finals_grow (l : list Arc) (k n : nat) :
  finals (l ++ replicate k zeroArc) n = finals l n.
Proof. apply finals_ext. intros i _. apply arc_final_grow. Qed.

(** The frame of the [j]-th final arc lies at or below every depth that
    has [j] final arcs at or below it. *)
Lemma walk_frames_below (e : SegmentTermsEnum) (t : Z) :
  walk_inv e t →
  ∀ j r, 0 <= j <= currentFrame e → 0 <= r →
    j <= Z.of_nat (finals (arcs e) (Z.to_nat r)) →
    prefix (frameAt e j) <= r.
Proof.
  intros W j r Hj Hr Hcount.
  destruct (wi_frames e t W j Hj) as (Hp & Hf & Hfin).
  destruct (Z.eq_dec j 0) as [->|Hj0]; [rewrite (wi_root e t W); exact Hr|].
  destruct (Z.le_gt_cases (prefix (frameAt e j)) r) as [|Hgt]; [assumption|].
  exfalso. specialize (Hfin ltac:(lia)).
  destruct (Z.to_nat (prefix (frameAt e j))) as [|m] eqn:Em; [lia|].
  cbn [finals] in Hf. rewrite Hfin in Hf.
  pose proof (finals_mono (arcs e) (Z.to_nat r) m ltac:(lia)). lia.
Qed.

(** Cutting the walk back to a depth [r] and to the frame of the last
    final arc at or below it. *)
Lemma walk_inv_cut (e : SegmentTermsEnum) (t r : Z) :
  walk_inv e t → 0 <= r <= t →
  walk_inv (set_currentFrame (Z.of_nat (finals (arcs e) (Z.to_nat r))) e) r.
Proof.
  intros W Hr.
  pose proof (finals_mono (arcs e) (Z.to_nat r) (Z.to_nat t) ltac:(lia)) as Hm.
  pose proof (wi_count e t W) as Hc.
  destruct (wi_current e t W) as [Hc0 Hlive].
  assert (Hat : ∀ c j, frameAt (set_currentFrame c e) j = frameAt e j)
    by reflexivity.
  constructor; cbn [currentFrame arcs set_currentFrame]; rewrite ?Hat.
  - exact (wi_numbered e t W).
  - split; [lia|]. unfold live in *. cbn. lia.
  - lia.
  - intros i Hi. apply (wi_labels e t W). lia.
  - exact (wi_root e t W).
  - intros j Hj. rewrite Hat.
    destruct (wi_frames e t W j ltac:(lia)) as (Hp & Hf & Hfin).
    split; [split; [lia|]|split; assumption].
    apply (walk_frames_below e t W); lia.
  - reflexivity.
Qed.

Lemma walk_inv_same (e e' : SegmentTermsEnum) (t : Z) :
  same_walk e e' →
  (∀ i b, 0 <= i < t → slice_get (term e) i = Some b →
          slice_get (term e') i = Some b) →
  walk_inv e t → walk_inv e' t.
Proof.
  intros (Hst & Hlive & Hfr & Harcs & Hcur) Hterm W.
  destruct (wi_current e t W) as [Hc0 Hcl].
  destruct (wi_numbered e t W) as [Hs Hn].
  assert (Hl0 : live e 0) by (unfold live in *; lia).
  constructor.
  - split; [congruence|]. intros j Hj Hj'. apply Hlive in Hj'.
    destruct (Hfr j Hj Hj') as [-> _]. auto.
  - rewrite Hcur. split; [assumption|]. apply Hlive. assumption.
  - exact (wi_depth e t W).
  - intros i Hi. destruct (wi_labels e t W i Hi) as (a & b & Ha & Hb & Hab).
    exists a, b. rewrite Harcs. auto.
  - destruct (Hfr 0 ltac:(lia) Hl0) as [_ ->]. exact (wi_root e t W).
  - rewrite Hcur, Harcs. intros j Hj.
    assert (live e j) by (unfold live in *; lia).
    destruct (Hfr j ltac:(lia) ltac:(assumption)) as [_ ->].
    exact (wi_frames e t W j Hj).
  - rewrite Hcur, Harcs. exact (wi_count e t W).
Qed.

Lemma same_walk_setFrame (e : SegmentTermsEnum) (p : Z) (f : segmentTermsEnumFrame) :
  0 <= p → ord f = ord (frameAt e p) → prefix f = prefix (frameAt e p) →
  same_walk e (setFrame e p f).
Proof.
  intros Hp Hord Hpre. unfold same_walk.
  pose proof (frames_only_fields _ _ (frames_only_setFrame e p f Hp))
    as (_ & _ & -> & -> & _ & _ & _ & _ & _ & ->).
  split; [reflexivity|]. split; [intros j; apply live_setFrame|].
  split; [|split; reflexivity].
  intros j Hj Hlive. destruct (Z.eq_dec p j) as [->|Hne].
  - rewrite frameAt_setFrame by assumption. split; assumption.
  - rewrite frameAt_setFrame_ne by assumption. split; reflexivity.
Qed.

Lemma same_walk_trans (e1 e2 e3 : SegmentTermsEnum) :
  same_walk e1 e2 → same_walk e2 e3 → same_walk e1 e3.
Proof.
  intros (H1 & H2 & H3 & H4 & H5) (K1 & K2 & K3 & K4 & K5).
  split; [congruence|]. split; [intros j; rewrite K2; apply H2|].
  split; [|split; congruence].
  intros j Hj Hlive.
  destruct (K3 j Hj (proj2 (H2 j) Hlive)) as [-> ->].
  apply H3; assumption.
Qed.

Lemma same_walk_refl (e e' : SegmentTermsEnum) :
  staticFrame e' = staticFrame e → stack e' = stack e → arcs e' = arcs e →
  currentFrame e' = currentFrame e → same_walk e e'.
Proof.
  intros Hs Hst Ha Hc. unfold same_walk, live, frameAt.
  rewrite Hs, Hst, Ha, Hc. repeat split; auto.
Qed.

(** ** The two tails of [SeekExact] keep the invariant *)

Lemma slice_append_get (growslice : nat → nat) (s : slice) (x b : byte) (i : Z) :
  slice_get s i = Some b → slice_get (slice_append growslice s x) i = Some b.
Proof.
  rewrite !slice_get_Some. intros [Hi Hb]. split; [exact Hi|].
  unfold slice_append. destruct (spare s); cbn [visible];
    apply lookup_app_l_Some; exact Hb.
Qed.

Lemma slice_on_get (all : list byte) (n : nat) (i : Z) (b : byte) :
  0 <= i → (Z.to_nat i < n)%nat → all !! Z.to_nat i = Some b →
  slice_get (slice_on all n) i = Some b.
Proof.
  intros Hi Hn Hb. apply slice_get_Some. split; [exact Hi|].
  unfold slice_on. cbn [visible]. rewrite lookup_take_lt by exact Hn. exact Hb.
Qed.

Lemma slice_upto_get (s s' : slice) (n i : Z) (b : byte) :
  slice_upto s n = Some s' → 0 <= i < n →
  slice_get s i = Some b → slice_get s' i = Some b.
Proof.
  unfold slice_upto. destruct (_ && _); [|discriminate].
  intros H. injection H as <-. intros Hi Hb.
  apply slice_get_Some in Hb as [_ Hb].
  apply slice_on_get; [lia|lia|]. unfold backing.
  apply lookup_app_l_Some. exact Hb.
Qed.

(** [fillTerm] writes into the term buffer from the prefix of the frame
    on. *)
Lemma fillTerm_spec (e e' : SegmentTermsEnum) (p : Z) :
  fillTerm e p = Ok e' →
  e' = set_term (term e') e
  ∧ ∀ i b, 0 <= i < prefix (frameAt e p) →
      slice_get (term e) i = Some b → slice_get (term e') i = Some b.
Proof.
  unfold fillTerm. intros H.
  apply bind_Ok in H as (t & Ht & H).
  assert (Hget : ∀ i b, slice_get (term e) i = Some b →
                        visible t !! Z.to_nat i = Some b).
  { intros i b Hb. apply slice_get_Some in Hb as [Hi Hb].
    pose proof (lookup_lt_Some _ _ _ Hb) as Hlt.
    destruct (Z.ltb_spec (slice_len (term e))
                         (prefix (frameAt e p) + suffix (frameAt e p)))
      as [Hlen|Hlen].
    - destruct (_ <? _); [discriminate|]. injection Ht as <-.
      unfold slice_regrow, slice_on, slice_len in *. cbn [visible].
      rewrite lookup_take_lt by lia.
      apply lookup_app_l_Some. rewrite lookup_take_lt by lia. exact Hb.
    - injection Ht as <-. exact Hb. }
  destruct (negb _); [discriminate|]. destruct (negb _); [discriminate|].
  injection H as <-. split; [reflexivity|].
  intros i b Hi Hb. apply Hget in Hb.
  pose proof (lookup_lt_Some _ _ _ Hb) as Hlt.
  cbn [term set_term]. apply slice_on_get; [lia|exact Hlt|].
  apply lookup_app_l_Some. rewrite lookup_take_lt by lia.
  unfold backing. apply lookup_app_l_Some. exact Hb.
Qed.

Lemma prefix_setFrame_same (e : SegmentTermsEnum) (p : Z)
    (f : segmentTermsEnumFrame) :
  prefix f = prefix (frameAt e p) →
  prefix (frameAt (setFrame e p f) p) = prefix (frameAt e p).
Proof.
  unfold frameAt, setFrame. destruct (p <? 0) eqn:E; cbn; rewrite ?E; [auto|].
  destruct (stack e !! Z.to_nat p) as [s|] eqn:El; cbn.
  - rewrite list_lookup_insert_eq by (apply lookup_lt_Some in El; lia). auto.
  - rewrite list_insert_ge by (apply lookup_ge_None; exact El).
    rewrite El. reflexivity.
Qed.

(** As the code stands, a scan that returns has done no more than mark the
    frame and fill the term: what it leaves differs from what it found in
    the term buffer past the prefix, in [termExists] and in the frame. *)
Lemma scanToTerm_spec (e e' : SegmentTermsEnum) (p : Z) (target : list byte)
    (exactOnly : bool) (status : SeekStatus) :
  0 <= p →
  scanToTerm e p target exactOnly = Ok (e', status) →
  same_walk e e' ∧ validIndexPrefix e' = validIndexPrefix e
  ∧ e_in e' = e_in e
  ∧ ∀ i b, 0 <= i < prefix (frameAt e p) →
      slice_get (term e) i = Some b → slice_get (term e') i = Some b.
Proof.
  intros Hp. unfold scanToTerm, scanToTermNonLeaf, scanToTermLeaf, prefixMatches.
  destruct (isLeafBlock _); [|discriminate].
  destruct (nextEnt _ =? -1); [discriminate|].
  set (f := set_subCode 0 (frameAt e p)).
  set (e1 := setFrame (set_termExists true e) p f).
  assert (H1 : same_walk e e1).
  { subst e1.
    apply (same_walk_trans _ (set_termExists true e)).
    - apply same_walk_refl; reflexivity.
    - apply same_walk_setFrame; [assumption|reflexivity..]. }
  assert (H1' : validIndexPrefix e1 = validIndexPrefix e ∧ e_in e1 = e_in e
                ∧ term e1 = term e).
  { subst e1. unfold setFrame. destruct (p <? 0); cbn; auto. }
  destruct H1' as (Hv & Hin & Hterm).
  destruct (nextEnt f =? entCount f); [|discriminate].
  intros H. apply bind_Ok in H as (e2 & Hfill & H). injection H as <- _.
  destruct exactOnly.
  - apply fillTerm_spec in Hfill as [He2 Hfill].
    assert (Hpre : prefix (frameAt e1 p) = prefix (frameAt e p)).
    { subst e1. apply (prefix_setFrame_same (set_termExists true e)).
      reflexivity. }
    rewrite Hpre, Hterm in Hfill.
    assert (S2 : same_walk e1 e2)
      by (rewrite He2; apply same_walk_refl; reflexivity).
    split; [exact (same_walk_trans _ _ _ H1 S2)|].
    split; [rewrite He2; exact Hv|]. split; [rewrite He2; exact Hin|].
    exact Hfill.
  - injection Hfill as <-.
    split; [exact H1|]. split; [exact Hv|]. split; [exact Hin|].
    rewrite Hterm. auto.
Qed.

(** [loadBlock] changes the input of the cursor and the frame it loads,
    but neither the index nor the prefix of that frame. *)
Lemma loadBlock_spec (e e' : SegmentTermsEnum) (p : Z) (err : option error) :
  0 <= p →
  loadBlock e p = Ok (e', err) →
  same_walk e e' ∧ validIndexPrefix e' = validIndexPrefix e
  ∧ term e' = term e.
Proof.
  intros Hp. unfold loadBlock. intros H.
  apply bind_Ok in H as (e1 & Hinit & H).
  assert (He1 : ∃ i, e1 = set_e_in i e).
  { unfold initIndexInput in Hinit. ok_inv Hinit; injection Hinit as <-;
      eexists; try reflexivity. destruct e; cbn in *; subst; reflexivity. }
  destruct He1 as [i0 ->].
  assert (Hexit : ∀ i f,
    ord f = ord (frameAt e p) → prefix f = prefix (frameAt e p) →
    let e2 := setFrame (set_e_in (Some i) (set_e_in i0 e)) p f in
    same_walk e e2 ∧ validIndexPrefix e2 = validIndexPrefix e ∧ term e2 = term e).
  { intros i f Ho Hf e2. subst e2. split.
    - apply (same_walk_trans _ (set_e_in (Some i) (set_e_in i0 e))).
      + apply same_walk_refl; reflexivity.
      + apply same_walk_setFrame; assumption.
    - unfold setFrame. destruct (p <? 0); cbn; auto. }
  change (frameAt (set_e_in i0 e) p) with (frameAt e p) in H.
  ok_inv H; injection H as <- <-;
    first [ apply Hexit; reflexivity
          | split; [apply same_walk_refl; reflexivity|split; reflexivity] ].
Qed.

Lemma set_currentFrame_same (e : SegmentTermsEnum) :
  set_currentFrame (currentFrame e) e = e.
Proof. destruct e; reflexivity. Qed.

(** At the end of the walk the valid prefix becomes the prefix of the
    current frame, and the invariant holds at that depth. *)
Lemma walk_inv_settle (e : SegmentTermsEnum) (t : Z) :
  walk_inv e t →
  walk_inv (set_validIndexPrefix (prefix (frameAt e (currentFrame e))) e)
           (prefix (frameAt e (currentFrame e))).
Proof.
  intros W. destruct (wi_current e t W) as [Hc0 Hcl].
  destruct (wi_frames e t W (currentFrame e) ltac:(lia)) as (Hp & Hf & _).
  pose proof (walk_inv_cut e t _ W Hp) as W'.
  rewrite Hf, set_currentFrame_same in W'.
  revert W'. apply walk_inv_same; [apply same_walk_refl; reflexivity|auto].
Qed.

Lemma scanCurrent_inv (e e' : SegmentTermsEnum)
    (target : list byte) (b : bool) :
  walk_inv e (validIndexPrefix e) →
  validIndexPrefix e = prefix (frameAt e (currentFrame e)) →
  scanCurrent e target = Ok (b, e') →
  walk_inv e' (validIndexPrefix e').
Proof.
  intros W Hv H. unfold scanCurrent in H.
  destruct (wi_current _ _ W) as [Hc0 Hcl].
  apply bind_Ok in H as ([e1 err] & Hload & H).
  apply loadBlock_spec in Hload as (S1 & V1 & T1); [|assumption].
  apply bind_Ok in H as ([e2 status] & Hscan & H).
  pose proof S1 as (S1a & S1b & S1c & S1d & S1e).
  rewrite <- S1e in Hc0.
  apply scanToTerm_spec in Hscan as (S2 & V2 & _ & T2); [|assumption].
  assert (He' : e' = e2) by (destruct status; injection H as _ <-; reflexivity).
  subst e'. rewrite V2, V1.
  apply (walk_inv_same e1 e2); [exact S2| |].
  - intros i x Hi. apply T2.
    rewrite S1e in *. destruct (S1c (currentFrame e) Hc0 Hcl) as [_ ->]. lia.
  - apply (walk_inv_same e e1); [exact S1| |exact W].
    intros i x _. rewrite T1. auto.
Qed.

Lemma indexExhausted_inv (growslice : nat → nat) (e e' : SegmentTermsEnum)
    (t : Z) (target : list byte) (targetLabel : Z) (b : bool) :
  walk_inv e t →
  indexExhausted growslice e target targetLabel = Ok (b, e') →
  walk_inv e' (validIndexPrefix e').
Proof.
  intros W H. apply walk_inv_settle in W. unfold indexExhausted in H.
  set (e1 := set_validIndexPrefix _ e) in *.
  change (currentFrame e) with (currentFrame e1) in W.
  change (frameAt e (currentFrame e1)) with (frameAt e1 (currentFrame e1)) in W.
  apply bind_Ok in H as (f & Hfloor & H).
  apply scanToFloorFrame_same in Hfloor as ->.
  rewrite setFrame_frameAt in H.
  destruct (negb _).
  - injection H as _ <-. cbn.
    revert W. apply walk_inv_same; [apply same_walk_refl; reflexivity|].
    intros i x _. cbn. apply slice_append_get.
  - apply (scanCurrent_inv e1 e' target b);
      [exact W|reflexivity|exact H].
Qed.

Lemma targetConsumed_inv (e e' : SegmentTermsEnum)
    (t : Z) (target : list byte) (b : bool) :
  walk_inv e t →
  targetConsumed e target t = Ok (b, e') →
  walk_inv e' (validIndexPrefix e').
Proof.
  intros W H.
  destruct (wi_current e t W) as [Hc0 Hcl].
  destruct (wi_frames e t W (currentFrame e) ltac:(lia)) as (Hp & _ & _).
  apply walk_inv_settle in W. unfold targetConsumed in H.
  set (e1 := set_validIndexPrefix _ e) in *.
  change (currentFrame e) with (currentFrame e1) in W.
  change (frameAt e (currentFrame e1)) with (frameAt e1 (currentFrame e1)) in W.
  apply bind_Ok in H as (f & Hfloor & H).
  apply scanToFloorFrame_same in Hfloor as ->.
  rewrite setFrame_frameAt in H.
  destruct (negb _).
  - cbn [term set_termExists] in H.
    destruct (slice_upto (term e1) t) as [s|] eqn:Es; [|discriminate].
    injection H as _ <-. cbn.
    revert W. apply walk_inv_same; [apply same_walk_refl; reflexivity|].
    intros i x Hi. cbn. apply (slice_upto_get _ _ _ _ _ Es).
    change (frameAt e1 (currentFrame e1)) with (frameAt e (currentFrame e)) in Hi.
    lia.
  - apply (scanCurrent_inv e1 e' target b);
      [exact W|reflexivity|exact H].
Qed.

(** ** The walk keeps the invariant *)

(** Arcs beyond the depth reached do not matter. *)
Lemma walk_inv_arcs (e : SegmentTermsEnum) (t : Z) (l : list Arc) :
  walk_inv e t →
  (∀ i a, (i <= Z.to_nat t)%nat → arcs e !! i = Some a → l !! i = Some a) →
  (∀ i, (1 <= i <= Z.to_nat t)%nat → arc_final l i = arc_final (arcs e) i) →
  walk_inv (set_arcs l e) t.
Proof.
  intros W Hl Hf.
  assert (Hfin : ∀ n, (n <= Z.to_nat t)%nat → finals l n = finals (arcs e) n).
  { intros n Hn. apply finals_ext. intros i Hi. apply Hf. lia. }
  constructor; cbn.
  - exact (wi_numbered e t W).
  - exact (wi_current e t W).
  - exact (wi_depth e t W).
  - intros i Hi. destruct (wi_labels e t W i Hi) as (a & b & Ha & Hb & Hab).
    exists a, b. repeat split; try assumption.
    unfold at_index in *. destruct (1 + i <? 0); [discriminate|].
    apply Hl; [lia|exact Ha].
  - exact (wi_root e t W).
  - intros j Hj. destruct (wi_frames e t W j Hj) as (Hp & Hc & Hfj).
    change (frameAt (set_arcs l e) j) with (frameAt e j).
    rewrite Hfin by lia.
    split; [assumption|]. split; [assumption|].
    intros Hj0. rewrite Hf; [auto|]. specialize (Hfj Hj0).
    destruct (Z.to_nat (prefix (frameAt e j))) eqn:E; [|lia].
    cbn in Hc. lia.
  - rewrite Hfin by lia. exact (wi_count e t W).
Qed.

Lemma walk_inv_getArc (e e' : SegmentTermsEnum) (t o : Z) (slot : nat) :
  walk_inv e t → getArc e o = Ok (e', slot) → walk_inv e' t.
Proof.
  intros W H. apply getArc_spec in H as (_ & _ & _ & k & ->).
  apply walk_inv_arcs; [exact W| |].
  - intros i a _ Ha. apply lookup_app_l_Some. exact Ha.
  - intros i _. apply arc_final_grow.
Qed.

Lemma walk_inv_setArc (e : SegmentTermsEnum) (t : Z) (slot : nat) (a : Arc) :
  walk_inv e t → (Z.to_nat t < slot)%nat →
  walk_inv (set_arcs (<[slot := a]> (arcs e)) e) t.
Proof.
  intros W H. apply walk_inv_arcs; [exact W| |].
  - intros i x Hi Hx. rewrite list_lookup_insert_ne by lia. exact Hx.
  - intros i Hi. apply arc_final_insert_ne. lia.
Qed.

(** The arc found for the byte at depth [t] stored in its slot, and the
    byte stored in the term. *)
Lemma walk_after_arc (e : SegmentTermsEnum) (t : Z) (found : Arc) (x : byte)
    (s : slice) :
  walk_inv e t →
  (Z.to_nat (1 + t) < length (arcs e))%nat →
  slice_set (term e) t x = Some s →
  Label found = int_of_byte x →
  let e4 := set_term s (set_arcs (<[Z.to_nat (1 + t) := found]> (arcs e)) e) in
  labels_upto e4 (t + 1)
  ∧ (∀ j, 0 <= j <= currentFrame e →
       0 <= prefix (frameAt e j) <= t
       ∧ Z.of_nat (finals (arcs e4) (Z.to_nat (prefix (frameAt e j)))) = j
       ∧ (0 < j → arc_final (arcs e4) (Z.to_nat (prefix (frameAt e j))) = true))
  ∧ Z.of_nat (finals (arcs e4) (Z.to_nat (t + 1)))
    = currentFrame e + (if IsFinal found then 1 else 0).
Proof.
  intros W Hslot Hset Hlabel e4.
  pose proof (wi_depth e t W) as Ht.
  apply slice_set_spec in Hset as (Hti & _ & Hvis).
  unfold slice_len in Hti.
  assert (W' := walk_inv_setArc e t (Z.to_nat (1 + t)) found W ltac:(lia)).
  split; [|split].
  - intros i Hi. destruct (Z.eq_dec i t) as [->|Hne].
    + exists found, x. subst e4. cbn [arcs term set_term set_arcs].
      split; [|split; [|exact Hlabel]].
      * unfold at_index. destruct (Z.ltb_spec (1 + t) 0); [lia|].
        apply list_lookup_insert_eq. exact Hslot.
      * apply slice_get_Some. split; [lia|]. rewrite Hvis.
        apply list_lookup_insert_eq. lia.
    + destruct (wi_labels _ _ W' i ltac:(lia)) as (a & b & Ha & Hb & Hab).
      exists a, b. subst e4. cbn [arcs term set_term set_arcs] in *.
      split; [exact Ha|split; [|exact Hab]].
      apply slice_get_Some in Hb as [Hbi Hb]. apply slice_get_Some.
      split; [lia|]. rewrite Hvis.
      rewrite list_lookup_insert_ne by lia. exact Hb.
  - exact (wi_frames _ _ W').
  - subst e4. cbn [arcs set_term set_arcs].
    replace (Z.to_nat (t + 1)) with (S (Z.to_nat t)) by lia.
    cbn [finals]. pose proof (wi_count _ _ W') as Hc.
    cbn [arcs set_arcs currentFrame] in Hc.
    replace (S (Z.to_nat t)) with (Z.to_nat (1 + t)) by lia.
    unfold arc_final at 1. rewrite list_lookup_insert_eq by exact Hslot.
    destruct (IsFinal found); lia.
Qed.

(** A frame pushed for a final arc at depth [t + 1]. *)
Lemma walk_inv_push (e e' : SegmentTermsEnum) (t : Z) (found : Arc) (x : byte)
    (s : slice) (data : list byte) (p : Z) :
  walk_inv e t →
  (Z.to_nat (1 + t) < length (arcs e))%nat →
  slice_set (term e) t x = Some s →
  Label found = int_of_byte x →
  IsFinal found = true →
  pushFrame (set_term s (set_arcs (<[Z.to_nat (1 + t) := found]> (arcs e)) e))
            (Z.to_nat (1 + t)) data (t + 1) = Ok (e', p) →
  walk_inv (set_currentFrame p e') (t + 1).
Proof.
  intros W Hslot Hset Hlabel Hfinal Hpush.
  destruct (walk_after_arc e t found x s W Hslot Hset Hlabel)
    as (Hlabels & Hframes & Hcount).
  rewrite Hfinal in Hcount.
  set (e4 := set_term s (set_arcs _ e)) in *.
  destruct (wi_current e t W) as [Hc0 Hcl].
  destruct (wi_numbered e t W) as [Hstatic Hnum].
  pose proof (wi_depth e t W) as Ht.
  assert (Hat4 : ∀ j, frameAt e4 j = frameAt e j) by reflexivity.
  assert (Hlive4 : ∀ j, live e4 j ↔ live e j) by reflexivity.
  apply pushFrame_spec in Hpush; [|apply Hlive4; exact Hcl].
  change (currentFrame e4) with (currentFrame e) in Hpush.
  rewrite Hat4, (Hnum _ Hc0 Hcl) in Hpush. cbv zeta in Hpush.
  destruct Hpush as (-> & Ho & Hlive' & Hfo & Hord & Hpre & _ & _ & Hother & Hbound).
  apply frames_only_fields in Hfo
    as (_ & _ & Hst' & _ & _ & _ & _ & _ & Hterm' & Harcs').
  assert (Hat : ∀ c j, frameAt (set_currentFrame c e') j = frameAt e' j)
    by reflexivity.
  assert (Hold : ∀ j, 0 <= j <= currentFrame e → frameAt e' j = frameAt e j).
  { intros j Hj. rewrite Hother, Hat4; [reflexivity| |lia].
    apply Hlive4. unfold live in *. lia. }
  constructor; cbn [currentFrame arcs term set_currentFrame]; rewrite ?Hat.
  - split; [cbn; rewrite Hst'; exact Hstatic|].
    intros j Hj Hlj. rewrite Hat.
    destruct (Z.eq_dec j (1 + currentFrame e)) as [->|Hne]; [exact Hord|].
    destruct (Hbound j Hlj) as [Hl|Hl].
    + rewrite Hother, Hat4 by assumption. apply Hnum; [assumption|].
      apply Hlive4. exact Hl.
    + rewrite Hother, Hat4; [apply Hnum; [assumption|]| |assumption].
      * unfold live in *. lia.
      * apply Hlive4. unfold live in *. lia.
  - split; [lia|exact Hlive'].
  - lia.
  - intros i Hi. destruct (Hlabels i Hi) as (a & b & Ha & Hb & Hab).
    exists a, b. cbn [arcs term set_currentFrame]. rewrite Harcs', Hterm'. auto.
  - rewrite Hold by lia. exact (wi_root e t W).
  - intros j Hj. cbn [arcs term set_currentFrame]. rewrite Hat, Harcs'.
    destruct (Z.eq_dec j (1 + currentFrame e)) as [->|Hne].
    + rewrite Hpre. split; [lia|]. split; [lia|].
      intros _. replace (Z.to_nat (t + 1)) with (Z.to_nat (1 + t)) by lia.
      unfold arc_final. subst e4. cbn [arcs set_term set_arcs].
      rewrite list_lookup_insert_eq by exact Hslot. exact Hfinal.
    + rewrite Hold by lia.
      destruct (Hframes j ltac:(lia)) as (Hp & Hf & Hfin).
      split; [lia|]. split; assumption.
  - rewrite Harcs'. lia.
Qed.

(** An arc that is not final followed to depth [t + 1]. *)
Lemma walk_inv_follow (e : SegmentTermsEnum) (t : Z) (found : Arc) (x : byte)
    (s : slice) :
  walk_inv e t →
  (Z.to_nat (1 + t) < length (arcs e))%nat →
  slice_set (term e) t x = Some s →
  Label found = int_of_byte x →
  IsFinal found = false →
  walk_inv (set_term s (set_arcs (<[Z.to_nat (1 + t) := found]> (arcs e)) e))
           (t + 1).
Proof.
  intros W Hslot Hset Hlabel Hfinal.
  destruct (walk_after_arc e t found x s W Hslot Hset Hlabel)
    as (Hlabels & Hframes & Hcount).
  rewrite Hfinal in Hcount.
  pose proof (wi_depth e t W) as Ht.
  constructor.
  - exact (wi_numbered e t W).
  - exact (wi_current e t W).
  - lia.
  - exact Hlabels.
  - exact (wi_root e t W).
  - intros j Hj. destruct (Hframes j Hj) as (Hp & Hf & Hfin).
    split; [|split; assumption].
    change (frameAt (set_term s (set_arcs _ e)) j) with (frameAt e j). lia.
  - cbn [currentFrame set_term set_arcs] in *. lia.
Qed.

(** The walk through the index keeps the invariant, at the depth it
    reaches; when it ends with the target, that depth is its length. *)
Lemma indexLoop_inv (idx : FST) (target : list byte) (n : nat) :
  fst_labels idx →
  ∀ (e e1 : SegmentTermsEnum) (t : Z) (a : nat) (out : list byte)
    (stop : seek_stop),
  walk_inv e t →
  indexLoop idx target n e t a out = Ok (stop, e1) →
  stop ≠ StopSame
  ∧ ∃ t', walk_inv e1 t' ∧ ∀ u, stop = StopConsumed u → u = t'.
Proof.
  intros Hidx. induction n as [|n IH]; intros e e1 t a out stop W H;
    cbn [indexLoop] in H.
  - injection H as <- <-. split; [discriminate|].
    exists t. split; [exact W|]. intros u Hu. injection Hu as <-. reflexivity.
  - destruct (at_index target t) as [b|]; [|discriminate].
    apply bind_Ok in H as ([e2 slot] & Hg & H).
    pose proof (walk_inv_getArc _ _ _ _ _ W Hg) as W2.
    apply getArc_spec in Hg as (_ & -> & Hslot & _).
    destruct (arcs e2 !! a) as [follow|]; [|discriminate].
    destruct (arcs e2 !! Z.to_nat (1 + t)) as [scratch|]; [|discriminate].
    pose proof (wi_depth _ _ W2) as Ht.
    destruct (FindTargetArc idx (int_of_byte b) follow scratch)
      as [found|scratch'|er] eqn:Efind; [| |discriminate].
    + apply Hidx in Efind.
      destruct (slice_set (term _) t _) as [s|] eqn:Eset; [|discriminate].
      cbn [term set_arcs] in Eset. rewrite byte_of_int_of_byte in Eset.
      destruct (Output found); [|discriminate].
      destruct (IsFinal found) eqn:Efinal.
      * apply bind_Ok in H as ([e3 p] & Hpush & H).
        apply (walk_inv_push e2 e3 t found b s) in Hpush; try assumption.
        exact (IH _ _ _ _ _ _ Hpush H).
      * apply (IH _ _ _ _ _ _ (walk_inv_follow e2 t found b s W2 Hslot Eset
                                   Efind Efinal) H).
    + injection H as <- <-. split; [discriminate|].
      exists t. split; [|discriminate].
      apply walk_inv_setArc; [exact W2|lia].
Qed.

(** The frame the reuse loop ends on is the frame of the last final arc
    among those it went through. *)
Lemma reuseLoop_inv (e : SegmentTermsEnum) (target : list byte) (n : nat) :
  frames_numbered e →
  ∀ (upto : Z) (a : nat) (out : list byte) (last : Z)
    (cmp r : Z) (a' : nat) (out' : list byte) (last' : Z),
  0 <= upto → live e last →
  last = Z.of_nat (finals (arcs e) (Z.to_nat upto)) →
  reuseLoop e target n upto a out last = Ok (cmp, r, a', out', last') →
  live e last' ∧ last' = Z.of_nat (finals (arcs e) (Z.to_nat r)).
Proof.
  intros [_ Hnum]. induction n as [|n IH];
    intros upto a out last cmp r a' out' last' Hu Hlive Hlast H;
    cbn [reuseLoop] in H.
  - injection H as <- <- <- <- <-. auto.
  - destruct (slice_get (term e) upto) as [tb|]; [|discriminate].
    destruct (at_index target upto) as [gb|]; [|discriminate].
    destruct (negb (int_of_byte (byte_sub tb gb) =? 0)).
    { injection H as <- <- <- <- <-. auto. }
    destruct (at_index (arcs e) (1 + upto)) as [next|] eqn:Enext; [|discriminate].
    destruct (negb (Label next =? int_of_byte gb)); [discriminate|].
    destruct (Output next) as [o|]; [|discriminate].
    apply bind_Ok in H as (q & Hq & H).
    assert (Hstep : Z.to_nat (upto + 1) = S (Z.to_nat upto)) by lia.
    assert (Hfin : arc_final (arcs e) (S (Z.to_nat upto)) = IsFinal next).
    { unfold at_index in Enext.
      destruct (1 + upto <? 0) eqn:E; [discriminate|].
      replace (Z.to_nat (1 + upto)) with (S (Z.to_nat upto)) in Enext by lia.
      unfold arc_final. rewrite Enext. reflexivity. }
    apply IH in H; [exact H|lia| |].
    + destruct (IsFinal next).
      * destruct (at_index (stack e) _) eqn:Eq; [|discriminate].
        injection Hq as <-. unfold at_index in Eq.
        destruct (_ <? 0) eqn:E; [discriminate|].
        apply lookup_lt_Some in Eq. unfold live. lia.
      * injection Hq as <-. exact Hlive.
    + rewrite Hstep. cbn [finals]. rewrite Hfin.
      destruct (IsFinal next).
      * destruct (at_index (stack e) _); [|discriminate].
        injection Hq as <-. rewrite Hnum; [lia|lia|exact Hlive].
      * injection Hq as <-. lia.
Qed.

(** The frames up to the current one are there already: looking them over
    leaves the cursor as it is. *)
Lemma seekStateLoop_same (idx : option FST) (n : nat) :
  ∀ (e e' : SegmentTermsEnum) (o : Z) (b : bool),
  frames_numbered e → 0 <= o → live e (o + Z.of_nat n) →
  seekStateLoop idx n e o b = Ok e' → e' = e.
Proof.
  induction n as [|n IH]; intros e e' o b Hnum Ho Hlive H;
    cbn [seekStateLoop] in H;
    (rewrite frame_again in H; [|exact Ho|unfold live in *; lia|
       apply Hnum; [exact Ho|unfold live in *; lia]]);
    cbn [mbind outcome_bind] in H;
    (destruct (slice_upto _ _); [|discriminate]);
    apply bind_Ok in H as ([] & _ & H).
  - destruct (_ =? _); injection H as <-; reflexivity.
  - destruct (_ =? _); [injection H as <-; reflexivity|].
    apply IH in H; [exact H|exact Hnum|lia|].
    unfold live in *. lia.
Qed.

Lemma printSeekState_same (e e' : SegmentTermsEnum) :
  seek_inv e → printSeekState e = Ok e' → e' = e.
Proof.
  intros Hinv H. unfold printSeekState in H.
  destruct (currentFrame e <? 0) eqn:E; [injection H as <-; reflexivity|].
  destruct Hinv as [(Hc & _)|W]; [lia|].
  apply seekStateLoop_same in H; [exact H|exact (wi_numbered _ _ W)|lia|].
  destruct (wi_current _ _ W) as [Hc Hl].
  replace (0 + Z.of_nat (Z.to_nat (currentFrame e))) with (currentFrame e) by lia.
  exact Hl.
Qed.

Lemma frames_numbered_same (e e' : SegmentTermsEnum) :
  same_walk e e' → frames_numbered e → frames_numbered e'.
Proof.
  intros (Hst & Hlive & Hfr & _ & _) [Hs Hnum]. split; [congruence|].
  intros j Hj Hl. apply Hlive in Hl.
  destruct (Hfr j Hj Hl) as [-> _]. exact (Hnum j Hj Hl).
Qed.

Lemma seek_inv_same (e e' : SegmentTermsEnum) :
  same_walk e e' → validIndexPrefix e' = validIndexPrefix e →
  (∀ i b, slice_get (term e) i = Some b → slice_get (term e') i = Some b) →
  seek_inv e → seek_inv e'.
Proof.
  intros Hsame Hvip Hterm [(Hc & Hv & Hnum)|W].
  - left. split; [|split].
    + destruct Hsame as (_ & _ & _ & _ & ->). exact Hc.
    + congruence.
    + exact (frames_numbered_same _ _ Hsame Hnum).
  - right. rewrite Hvip. apply (walk_inv_same e); [exact Hsame| |exact W].
    intros i b _. apply Hterm.
Qed.

Lemma slice_get_visible (s s' : slice) (i : Z) :
  visible s' = visible s → slice_get s' i = slice_get s i.
Proof. intros H. unfold slice_get, slice_len. rewrite H. reflexivity. Qed.

(** The root frame pushed on a cursor that has no current frame. *)
Lemma walk_inv_root (e e' : SegmentTermsEnum) (first : Arc) (data : list byte)
    (p : Z) :
  frames_numbered e →
  pushFrame (set_currentFrame (-1) (set_arcs (<[0%nat := first]> (arcs e)) e))
            0%nat data 0 = Ok (e', p) →
  walk_inv (set_currentFrame p e') 0.
Proof.
  intros [Hstatic Hnum] Hpush.
  set (e0 := set_currentFrame (-1) _) in Hpush.
  assert (Hat0 : ∀ j, frameAt e0 j = frameAt e j) by reflexivity.
  assert (Hlive0 : ∀ j, live e0 j ↔ live e j) by reflexivity.
  apply pushFrame_spec in Hpush; [|unfold live; cbn; lia].
  change (currentFrame e0) with (-1) in Hpush.
  change (frameAt e0 (-1)) with (staticFrame e) in Hpush.
  rewrite Hstatic in Hpush. cbv zeta in Hpush.
  change (1 + -1) with 0 in Hpush.
  destruct Hpush as (-> & _ & Hlive' & Hfo & Hord & Hpre & _ & _ & Hother & Hbound).
  apply frames_only_fields in Hfo
    as (_ & _ & Hst' & _ & _ & _ & _ & _ & Hterm' & Harcs').
  assert (Hat : ∀ c j, frameAt (set_currentFrame c e') j = frameAt e' j)
    by reflexivity.
  constructor; cbn [currentFrame arcs term set_currentFrame]; rewrite ?Hat.
  - split; [cbn; rewrite Hst'; exact Hstatic|].
    intros j Hj Hlj. rewrite Hat.
    destruct (Z.eq_dec j 0) as [->|Hne]; [exact Hord|].
    destruct (Hbound j Hlj) as [Hl|Hl]; [|lia].
    rewrite Hother, Hat0 by assumption. apply Hnum; [assumption|].
    apply Hlive0. exact Hl.
  - split; [lia|exact Hlive'].
  - lia.
  - intros i Hi. lia.
  - exact Hpre.
  - intros j Hj. assert (j = 0) as -> by lia. rewrite Hat, Hpre.
    split; [lia|]. split; [reflexivity|lia].
  - reflexivity.
Qed.

(** The walk of [SeekExact] through the index: where it stops, the walk
    invariant holds at the depth reached. *)
Lemma seekIndex_inv (e e1 : SegmentTermsEnum) (target : list byte)
    (stop : seek_stop) :
  seek_inv e →
  (∀ idx, index (fieldReader e) = Some idx → fst_labels idx) →
  seekIndex e target = Ok (stop, e1) →
  match stop with
  | StopSame => seek_inv e1
  | StopExhausted _ => ∃ t, walk_inv e1 t
  | StopConsumed u => walk_inv e1 u
  end.
Proof.
  intros Hinv Hfst H. unfold seekIndex in H.
  destruct (index (fieldReader e)) as [idx|]; [|discriminate].
  specialize (Hfst idx eq_refl).
  assert (Hloop : ∀ n e2 t a out, walk_inv e2 t →
            indexLoop idx target n e2 t a out = Ok (stop, e1) →
            match stop with
            | StopSame => seek_inv e1
            | StopExhausted _ => ∃ t, walk_inv e1 t
            | StopConsumed u => walk_inv e1 u
            end).
  { intros n e2 t a out W Hl.
    destruct (indexLoop_inv idx target n Hfst _ _ _ _ _ _ W Hl)
      as (Hns & t' & W' & Hu).
    destruct stop as [|l|u]; [congruence|eauto|].
    rewrite (Hu u eq_refl). exact W'. }
  apply bind_Ok in H as (e2 & Hgrow & H).
  apply growTerm_spec in Hgrow as (He2 & _ & Hvis).
  apply bind_Ok in H as (e3 & Hprint & H).
  assert (Hinv2 : seek_inv (set_eof false e2)).
  { apply (seek_inv_same e); [| |intros i b; rewrite He2; cbn [term set_eof set_term];
                                 rewrite (slice_get_visible (term e) (term e2) i Hvis);
                                 trivial|exact Hinv].
    - apply same_walk_refl; rewrite He2; reflexivity.
    - rewrite He2; reflexivity. }
  apply printSeekState_same in Hprint; [|exact Hinv2]. subst e3.
  clear Hinv He2 Hvis.
  set (e4 := set_targetBeforeCurrentLength _ _) in H.
  assert (Hinv4 : seek_inv e4).
  { apply (seek_inv_same (set_eof false e2)); [| |trivial|exact Hinv2];
      [apply same_walk_refl|]; reflexivity. }
  clearbody e4. clear Hinv2 e2 e.
  destruct (negb (ord (frameAt e4 (currentFrame e4)) =? ord (staticFrame e4)))
    eqn:Ebranch.
  - assert (W : walk_inv e4 (validIndexPrefix e4)).
    { destruct Hinv4 as [(Hc & _)|W]; [|exact W].
      rewrite Hc in Ebranch. change (frameAt e4 (-1)) with (staticFrame e4) in Ebranch.
      rewrite Z.eqb_refl in Ebranch. discriminate. }
    clear Hinv4 Ebranch.
    destruct (at_index (arcs e4) 0) as [first|]; [|discriminate].
    destruct (negb (IsFinal first)); [discriminate|].
    destruct (Output first) as [output|]; [|discriminate].
    destruct (at_index (stack e4) 0) as [f0|] eqn:Ef0; [|discriminate].
    destruct (Z.ltb_spec (slice_len (term e4)) (validIndexPrefix e4)) as [|Hlen];
      [discriminate|].
    apply bind_Ok in H as ([[[[cmp r] a] out] last] & Hreuse & H).
    pose proof (wi_depth _ _ W) as Hvip.
    assert (Hlive0 : live e4 0).
    { unfold at_index in Ef0. cbn in Ef0. apply lookup_lt_Some in Ef0.
      unfold live. lia. }
    destruct (reuseLoop_bounds _ _ _ _ _ _ _ _ _ _ _ _ Hreuse) as [Hr Hr0].
    apply reuseLoop_inv in Hreuse as [Hlast Hfin];
      [|exact (wi_numbered _ _ W)|lia|exact Hlive0|reflexivity].
    set (limit := if validIndexPrefix e4 <? blen target
                  then validIndexPrefix e4 else blen target) in *.
    assert (Hlimit : 0 <= limit <= validIndexPrefix e4).
    { subst limit. unfold blen.
      destruct (Z.ltb_spec (validIndexPrefix e4) (Z.of_nat (length target))); lia. }
    assert (Hcut : walk_inv (set_currentFrame last e4) r).
    { rewrite Hfin. apply (walk_inv_cut e4 (validIndexPrefix e4)); [exact W|lia]. }
    apply bind_Ok in H as (cmp' & Hcmp & H).
    destruct (cmp' <? 0) eqn:Eneg; [exact (Hloop _ _ _ _ _ Hcut H)|].
    destruct (0 <? cmp') eqn:Epos.
    + refine (Hloop _ _ _ _ _ _ H).
      set (e5 := set_currentFrame last (set_targetBeforeCurrentLength 0 e4)).
      assert (W5 : walk_inv e5 r).
      { apply (walk_inv_same (set_currentFrame last e4)); [|trivial|exact Hcut].
        apply same_walk_refl; reflexivity. }
      apply (walk_inv_same e5); [| |exact W5];
        [|intros i b _;
          destruct (setFrame_fields e5 (currentFrame e5)
                      (rewind (frameAt e5 (currentFrame e5))))
            as (_ & _ & -> & _); trivial].
      destruct (rewind_keeps (frameAt e5 (currentFrame e5))) as (Ho & Hp & _).
      apply same_walk_setFrame; [|exact Ho|exact Hp].
      exact (proj1 (wi_current _ _ W5)).
    + destruct (Z.eqb_spec (slice_len (term e4)) (blen target)) as [Esame|];
        [|discriminate]. cbn [negb] in H.
      destruct (termExists e4).
      * injection H as <- <-. right. exact W.
      * refine (Hloop _ _ _ _ _ _ H).
        assert (cmp = 0) as ->.
        { destruct (Z.eqb_spec cmp 0) as [|Hne]; [assumption|].
          injection Hcmp as <-. apply Z.ltb_ge in Eneg, Epos. lia. }
        assert (r = validIndexPrefix e4) as ->; [|exact W].
        specialize (Hr0 eq_refl). subst limit.
        destruct (Z.ltb_spec (validIndexPrefix e4) (blen target)); lia.
  - assert (Hnum : frames_numbered e4).
    { destruct Hinv4 as [(_ & _ & Hn)|W]; [exact Hn|exact (wi_numbered _ _ W)]. }
    destruct (at_index _ 0) as [slot0|]; [|discriminate].
    destruct (Output (FirstArc idx slot0)) as [output|]; [|discriminate].
    destruct (negb (IsFinal (FirstArc idx slot0))); [discriminate|].
    apply bind_Ok in H as ([e5 p] & Hpush & H).
    refine (Hloop _ _ _ _ _ _ H).
    exact (walk_inv_root (set_targetBeforeCurrentLength (-1) e4) e5 _ _ p Hnum Hpush).
Qed.

(** The cursor stays on its field. *)
Lemma loadBlock_fieldReader (e e' : SegmentTermsEnum) (p : Z) (err : option error) :
  loadBlock e p = Ok (e', err) → fieldReader e' = fieldReader e.
Proof.
  unfold loadBlock. intros H.
  apply bind_Ok in H as (e1 & Hinit & H).
  assert (He1 : ∃ i, e1 = set_e_in i e).
  { unfold initIndexInput in Hinit. ok_inv Hinit; injection Hinit as <-;
      eexists; try reflexivity. destruct e; cbn in *; subst; reflexivity. }
  destruct He1 as [i0 ->].
  assert (Hexit : ∀ i f,
    fieldReader (setFrame (set_e_in (Some i) (set_e_in i0 e)) p f) = fieldReader e).
  { intros i f. unfold setFrame. destruct (p <? 0); reflexivity. }
  ok_inv H; injection H as <- <-; first [apply Hexit|reflexivity].
Qed.

Lemma scanToTerm_fieldReader (e e' : SegmentTermsEnum) (p : Z)
    (target : list byte) (exactOnly : bool) (status : SeekStatus) :
  scanToTerm e p target exactOnly = Ok (e', status) →
  fieldReader e' = fieldReader e.
Proof.
  unfold scanToTerm, scanToTermNonLeaf, scanToTermLeaf, prefixMatches.
  destruct (isLeafBlock _); [|discriminate].
  destruct (nextEnt _ =? -1); [discriminate|].
  set (f := set_subCode 0 (frameAt e p)).
  set (e1 := setFrame (set_termExists true e) p f).
  assert (H1 : fieldReader e1 = fieldReader e).
  { subst e1. unfold setFrame. destruct (p <? 0); reflexivity. }
  destruct (nextEnt f =? entCount f); [|discriminate].
  intros H. apply bind_Ok in H as (e2 & Hfill & H). injection H as <- _.
  destruct exactOnly.
  - apply fillTerm_spec in Hfill as [-> _]. exact H1.
  - injection Hfill as <-. exact H1.
Qed.

Lemma scanCurrent_fieldReader (e e' : SegmentTermsEnum) (target : list byte)
    (b : bool) :
  scanCurrent e target = Ok (b, e') → fieldReader e' = fieldReader e.
Proof.
  unfold scanCurrent. intros H.
  apply bind_Ok in H as ([e1 err] & Hload & H).
  apply bind_Ok in H as ([e2 status] & Hscan & H).
  apply loadBlock_fieldReader in Hload. apply scanToTerm_fieldReader in Hscan.
  destruct status; injection H as _ <-; congruence.
Qed.

Lemma SeekExact_fieldReader (growslice : nat → nat) (e e' : SegmentTermsEnum)
    (target : list byte) (b : bool) :
  SeekExact growslice e target = Ok (b, e') → fieldReader e' = fieldReader e.
Proof.
  unfold SeekExact. intros H.
  apply bind_Ok in H as ([stop e1] & Hwalk & H).
  apply seekIndex_keeps in Hwalk as (_ & <- & _).
  assert (Hset : ∀ v f,
    fieldReader (setFrame (set_validIndexPrefix v e1) (currentFrame e1) f)
    = fieldReader e1).
  { intros v f. unfold setFrame. destruct (_ <? 0); reflexivity. }
  destruct stop as [|l|u].
  - injection H as _ <-. reflexivity.
  - unfold indexExhausted in H.
    apply bind_Ok in H as (f & _ & H).
    destruct (negb _).
    + injection H as _ <-. apply Hset.
    + apply scanCurrent_fieldReader in H. rewrite H. apply Hset.
  - unfold targetConsumed in H.
    apply bind_Ok in H as (f & _ & H).
    destruct (negb _).
    + destruct (slice_upto _ _); [|discriminate].
      injection H as _ <-. apply Hset.
    + apply scanCurrent_fieldReader in H. rewrite H. apply Hset.
Qed.

(** One call of [SeekExact] keeps the invariant. *)
Lemma SeekExact_inv (growslice : nat → nat) (e e' : SegmentTermsEnum)
    (target : list byte) (b : bool) :
  seek_inv e →
  (∀ idx, index (fieldReader e) = Some idx → fst_labels idx) →
  SeekExact growslice e target = Ok (b, e') →
  seek_inv e'.
Proof.
  intros Hinv Hfst H. unfold SeekExact in H.
  apply bind_Ok in H as ([stop e1] & Hwalk & H).
  apply seekIndex_inv in Hwalk; [|exact Hinv|exact Hfst].
  destruct stop as [|l|u].
  - injection H as _ <-. exact Hwalk.
  - destruct Hwalk as [t W]. right.
    exact (indexExhausted_inv growslice _ _ _ _ _ _ W H).
  - right. exact (targetConsumed_inv _ _ _ _ _ Hwalk H).
Qed.

Lemma seek_inv_consistent (e : SegmentTermsEnum) :
  seek_inv e → arcs_consistent e.
Proof.
  intros [(_ & Hv & _)|W]; unfold arcs_consistent.
  - rewrite Hv. intros i Hi. lia.
  - exact (wi_labels _ _ W).
Qed.

(** A cursor as [newSegmentTermsEnum] makes it. *)
Lemma newSegmentTermsEnum_inv (r : FieldReader) (e : SegmentTermsEnum) :
  newSegmentTermsEnum r = Ok e → seek_inv e ∧ fieldReader e = r.
Proof.
  unfold newSegmentTermsEnum. intros H.
  destruct (owner r); [|discriminate].
  apply bind_Ok in H as (static & Hstatic & H).
  assert (Hord : ord static = -1).
  { unfold newFrame in Hstatic. ok_inv Hstatic; injection Hstatic as <-;
      reflexivity. }
  assert (Hans : ∀ a,
    let e0 := mkEnum r None [] static (-1) false 0 NewEmptyByteArrayDataInput 0
                     false (mkSlice [] []) [a] in
    seek_inv e0 ∧ fieldReader e0 = r).
  { intros a e0. split; [|reflexivity]. left. split; [reflexivity|].
    split; [reflexivity|]. split; [exact Hord|].
    intros j Hj Hl. unfold live in Hl. cbn in Hl. lia. }
  destruct (index r) as [idx|].
  - destruct (negb _); [discriminate|]. injection H as <-. apply Hans.
  - injection H as <-. apply Hans.
Qed.

Lemma ex_index_labels : fst_labels ex_index.
Proof.
  intros label follow scratch found. cbn.
  destruct (Z.eqb_spec (Target follow) 0), (Z.eqb_spec label 120),
    (Z.eqb_spec label 121), (Z.eqb_spec (Target follow) 2),
    (Z.eqb_spec label 122); cbn; intros H; try discriminate;
    injection H as <-; cbn; congruence.
Qed.

(** C9.  On a cursor made by [newSegmentTermsEnum], over an index whose
    [FindTargetArc] answers with an arc of the label asked for, after every
    run of [SeekExact] calls that return: for every [i] with
    [0 <= i < validIndexPrefix], [arcs[1+i]] and [term[i]] are there and
    the label of the one is the other. *)
Theorem arcs_consistent_after_seeks (growslice : nat → nat) (r : FieldReader)
    (e0 e : SegmentTermsEnum) (targets : list (list byte)) :
  (∀ idx, index r = Some idx → fst_labels idx) →
  newSegmentTermsEnum r = Ok e0 →
  seeks growslice e0 targets = Ok e →
  arcs_consistent e.
Proof.
  intros Hfst Hnew Hrun.
  apply newSegmentTermsEnum_inv in Hnew as [Hinv Hr].
  apply seek_inv_consistent.
  revert e0 Hinv Hr Hrun.
  induction targets as [|target rest IH]; intros e0 Hinv Hr Hrun;
    cbn [seeks] in Hrun.
  - injection Hrun as <-. exact Hinv.
  - apply bind_Ok in Hrun as ([b e1] & Hseek & Hrun).
    apply (IH e1); [| |exact Hrun].
    + apply (SeekExact_inv growslice e0 e1 target b); [exact Hinv| |exact Hseek].
      rewrite Hr. exact Hfst.
    + rewrite (SeekExact_fieldReader _ _ _ _ _ Hseek). exact Hr.
Qed.

Lemma arcs_consistent_after_seeks_witness :
  validIndexPrefix ex_sought = 1
  ∧ slice_bytes (term ex_sought) = [x79; x71]
  ∧ arcs_consistent ex_sought.
Proof.
  split; [reflexivity|]. split; [reflexivity|].
  apply (arcs_consistent_after_seeks ex_growslice ex_field ex_cursor ex_sought
           [[x61]; [x79; x71]]).
  - intros idx H. injection H as <-. exact ex_index_labels.
  - reflexivity.
  - vm_compute. reflexivity.
Defined.

(** * The rest of the sources *)

(** ** File names *)

Example FileNameFromGeneration_ex :
  FileNameFromGeneration ex_FormatInt "segments" "" 46 = "segments_1a"%string
  ∧ FileNameFromGeneration ex_FormatInt "_3" "del" 2 = "_3_2.del"%string
  ∧ ParseSegmentName "_3_2.del" = Ok "_3"%string
  ∧ StripSegmentName "_3_2.del" = Ok "_2.del"%string
  ∧ StripExtension "_3_2.del" = "_3_2"%string.
Proof. repeat split. Qed.

Lemma str_app_cons (x : Ascii.ascii) (a b : string) :
  (String x a +:+ b)%string = String x (a +:+ b).
Proof. reflexivity. Qed.

Lemma str_app_nil (b : string) : (EmptyString +:+ b)%string = b.
Proof. reflexivity. Qed.

Lemma str_take_drop (n : nat) (s : string) :
  (str_take n s +:+ str_drop n s)%string = s.
Proof.
  revert s. induction n as [|n IH]; intros [|c s]; try reflexivity.
  cbn [str_take str_drop]. rewrite str_app_cons, IH. reflexivity.
Qed.

Lemma str_take_all (n : nat) (s : string) :
  (String.length s <= n)%nat → str_take n s = s.
Proof.
  revert s. induction n as [|n IH]; intros [|c s] H; cbn in *;
    try reflexivity; [lia|].
  rewrite IH by lia. reflexivity.
Qed.

Lemma str_drop_length (n : nat) (s : string) :
  String.length (str_drop n s) = (String.length s - n)%nat.
Proof.
  revert s. induction n as [|n IH]; intros [|c s]; cbn; try reflexivity.
  apply IH.
Qed.

Lemma str_take_app (a b : string) :
  str_take (String.length a) (a +:+ b) = a.
Proof.
  induction a as [|c a IH]; [destruct b; reflexivity|].
  rewrite str_app_cons. cbn [String.length str_take]. rewrite IH. reflexivity.
Qed.

Lemma str_drop_app (a b : string) :
  str_drop (String.length a) (a +:+ b) = b.
Proof.
  induction a as [|c a IH]; [destruct b; reflexivity|].
  rewrite str_app_cons. cbn [String.length str_drop]. exact IH.
Qed.

Lemma str_app_length (a b : string) :
  String.length (a +:+ b) = (String.length a + String.length b)%nat.
Proof.
  induction a as [|c a IH]; [reflexivity|].
  rewrite str_app_cons. cbn [String.length]. rewrite IH. reflexivity.
Qed.

Lemma str_app_assoc (a b c : string) :
  ((a +:+ b) +:+ c)%string = (a +:+ (b +:+ c))%string.
Proof.
  induction a as [|x a IH]; [reflexivity|].
  rewrite !str_app_cons, IH. reflexivity.
Qed.

Lemma str_app_empty (a : string) : (a +:+ "")%string = a.
Proof.
  induction a as [|x a IH]; [reflexivity|].
  rewrite str_app_cons, IH. reflexivity.
Qed.

Lemma has_byte_app (c : Ascii.ascii) (a b : string) :
  has_byte c (a +:+ b) = has_byte c a || has_byte c b.
Proof.
  induction a as [|x a IH]; [reflexivity|].
  rewrite str_app_cons. cbn [has_byte]. rewrite IH, orb_assoc. reflexivity.
Qed.

Lemma prefix_byte (c d : Ascii.ascii) (s : string) :
  String.prefix (String c "") (String d s) = Ascii.eqb c d.
Proof.
  cbn. destruct (Ascii.ascii_dec c d) as [->|Hne].
  - rewrite Ascii.eqb_refl. destruct s; reflexivity.
  - symmetry. apply Ascii.eqb_neq. exact Hne.
Qed.

(** [strings.Index] with a separator of one byte. *)
Lemma strings_Index_byte (c : Ascii.ascii) (s : string) :
  if has_byte c s
  then ∃ a b, s = (a +:+ String c b)%string ∧ has_byte c a = false
              ∧ strings_Index s (String c "") = str_len a
  else strings_Index s (String c "") = -1.
Proof.
  induction s as [|d s IH].
  - reflexivity.
  - cbn [has_byte strings_Index]. rewrite prefix_byte.
    destruct (Ascii.eqb c d) eqn:E.
    + apply Ascii.eqb_eq in E as <-. exists EmptyString, s. auto.
    + cbn [orb]. destruct (has_byte c s).
      * destruct IH as (a & b & -> & Ha & ->). exists (String d a), b.
        split; [reflexivity|]. split; [cbn; rewrite E, Ha; reflexivity|].
        unfold str_len. cbn [String.length].
        destruct (Z.ltb_spec (Z.of_nat (String.length a)) 0); lia.
      * rewrite IH. reflexivity.
Qed.

Lemma strings_Index_absent (c : Ascii.ascii) (s : string) :
  has_byte c s = false → strings_Index s (String c "") = -1.
Proof. intros H. pose proof (strings_Index_byte c s) as S. rewrite H in S. exact S. Qed.

Lemma strings_Index_first (c : Ascii.ascii) (a b : string) :
  has_byte c a = false →
  strings_Index (a +:+ String c b) (String c "") = str_len a.
Proof.
  intros Ha. induction a as [|d a IH].
  - rewrite str_app_nil. cbn [strings_Index].
    rewrite prefix_byte, Ascii.eqb_refl. reflexivity.
  - cbn in Ha. apply orb_false_elim in Ha as [Hd Ha].
    rewrite str_app_cons. cbn [strings_Index].
    rewrite prefix_byte, Hd, (IH Ha).
    unfold str_len. cbn [String.length].
    destruct (Z.ltb_spec (Z.of_nat (String.length a)) 0); lia.
Qed.

Lemma str_slice_all (s : string) (lo : Z) :
  0 <= lo <= str_len s →
  str_slice s lo (str_len s) = Ok (str_drop (Z.to_nat lo) s).
Proof.
  intros H. unfold str_slice.
  destruct (Z.leb_spec 0 lo); [|lia]. destruct (Z.leb_spec lo (str_len s)); [|lia].
  rewrite Z.leb_refl. cbn [andb]. rewrite str_take_all; [reflexivity|].
  rewrite str_drop_length. unfold str_len in *. lia.
Qed.

Lemma str_slice_head (s : string) (hi : Z) :
  0 <= hi <= str_len s →
  str_slice s 0 hi = Ok (str_take (Z.to_nat hi) s).
Proof.
  intros H. unfold str_slice.
  destruct (Z.leb_spec 0 hi); [|lia]. destruct (Z.leb_spec hi (str_len s)); [|lia].
  cbn. rewrite Z.sub_0_r. reflexivity.
Qed.

(** Where [indexOfSegmentName] cuts a name that is not empty. *)
Lemma indexOfSegmentName_spec (c : Ascii.ascii) (r : string) :
  let f := String c r in
  ∃ idx, indexOfSegmentName f = Ok idx
    ∧ (if has_byte "_" r || has_byte "." f
       then 0 <= idx <= str_len f else idx = -1).
Proof.
  intros f. unfold indexOfSegmentName.
  rewrite (str_slice_all f 1) by (unfold str_len; cbn; lia).
  change (str_drop (Z.to_nat 1) f) with r. cbn [mbind outcome_bind].
  pose proof (strings_Index_byte "_" r) as Hu.
  destruct (has_byte "_" r).
  - destruct Hu as (a & b & -> & _ & ->).
    destruct (Z.leb_spec 0 (str_len a)); [|unfold str_len in *; lia].
    eexists. split; [reflexivity|]. cbn [orb].
    subst f. unfold str_len in *. cbn [String.length].
    rewrite str_app_length. cbn [String.length]. lia.
  - rewrite Hu. cbn [Z.leb orb]. change (0 <=? -1) with false. cbv iota.
    eexists. split; [reflexivity|].
    pose proof (strings_Index_byte "." f) as Hd.
    destruct (has_byte "." f); [|exact Hd].
    destruct Hd as (a & b & E & _ & ->). rewrite E.
    unfold str_len. rewrite str_app_length. lia.
Qed.

(** X1.  [ParseSegmentName] and [StripSegmentName] cut a file name at the
    same place: when the name has a [_] after its first byte, or a [.],
    the two results put together are the name; when it has neither, each
    of the two is the whole name.  On the empty name both panic, on the
    slice expression [filename[1:]]. *)
Theorem segment_name_split (f : string) :
  match f with
  | EmptyString =>
      ParseSegmentName f = Panic slice_panic
      ∧ StripSegmentName f = Panic slice_panic
  | String _ r =>
      ∃ p s, ParseSegmentName f = Ok p ∧ StripSegmentName f = Ok s
        ∧ if has_byte "_" r || has_byte "." f
          then (p +:+ s)%string = f
          else p = f ∧ s = f
  end.
Proof.
  destruct f as [|c r]; [split; reflexivity|].
  destruct (indexOfSegmentName_spec c r) as (idx & Hidx & Hrange).
  unfold ParseSegmentName, StripSegmentName. rewrite Hidx.
  cbn [mbind outcome_bind].
  destruct (has_byte "_" r || has_byte "." (String c r)).
  - destruct (Z.eqb_spec idx (-1)); [lia|]. cbn [negb].
    rewrite str_slice_head, str_slice_all by exact Hrange.
    eexists _, _. split; [reflexivity|]. split; [reflexivity|].
    apply str_take_drop.
  - subst idx. cbn. eexists _, _. repeat split.
Qed.

(** A name cut at the separator that follows its segment name. *)
Lemma segment_name_cut (c : ascii) (r x : string) (sep : ascii) :
  let name := String c r in
  has_byte "_" r = false →
  sep = "_"%char
  ∨ (sep = "."%char ∧ has_byte "_" x = false ∧ has_byte "." name = false) →
  ParseSegmentName (name +:+ String sep x) = Ok name
  ∧ StripSegmentName (name +:+ String sep x) = Ok (String sep x).
Proof.
  intros name Hr Hsep.
  assert (Hidx : indexOfSegmentName (name +:+ String sep x) = Ok (str_len name)).
  { unfold indexOfSegmentName. subst name. rewrite str_app_cons.
    rewrite (str_slice_all _ 1) by (unfold str_len; cbn; lia).
    change (str_drop (Z.to_nat 1) (String c (r +:+ String sep x)))
      with (r +:+ String sep x)%string.
    cbn [mbind outcome_bind].
    destruct Hsep as [->|(-> & Hx & Hname)].
    - rewrite (strings_Index_first "_" r x Hr).
      destruct (Z.leb_spec 0 (str_len r)); [|unfold str_len in *; lia].
      unfold str_len. cbn [String.length]. f_equal. lia.
    - rewrite strings_Index_absent
        by (rewrite has_byte_app; cbn [has_byte]; rewrite Hr, Hx; reflexivity).
      change (0 <=? -1) with false. cbv iota.
      rewrite <- str_app_cons.
      rewrite (strings_Index_first "." (String c r) x Hname). reflexivity. }
  unfold ParseSegmentName, StripSegmentName. rewrite Hidx.
  cbn [mbind outcome_bind].
  assert (Hlen : 0 <= str_len name <= str_len (name +:+ String sep x)).
  { unfold str_len. rewrite str_app_length. lia. }
  destruct (Z.eqb_spec (str_len name) (-1)); [lia|]. cbn [negb].
  rewrite str_slice_head, str_slice_all by exact Hlen.
  unfold str_len. rewrite Nat2Z.id, str_take_app, str_drop_app. auto.
Qed.

(** X2.  [ParseSegmentName] undoes [SegmentFileName], and
    [StripSegmentName] gives what [SegmentFileName] has added: for a
    segment name that is not empty, has no [_] after its first byte and no
    [.], and with a suffix, or else an extension without [_]. *)
Theorem segment_file_name_round_trip (c : ascii) (r suffix ext : string) :
  let name := String c r in
  has_byte "_" r = false →
  has_byte "." name = false →
  suffix ≠ EmptyString ∨ has_byte "_" ext = false →
  ParseSegmentName (SegmentFileName name suffix ext) = Ok name
  ∧ (suffix ≠ EmptyString ∨ ext ≠ EmptyString →
     ∃ rest, SegmentFileName name suffix ext = (name +:+ rest)%string
       ∧ StripSegmentName (SegmentFileName name suffix ext) = Ok rest).
Proof.
  intros name Hr Hname Hsep. subst name. unfold SegmentFileName.
  destruct suffix as [|s0 suffix].
  - destruct Hsep as [Hsep|Hext]; [congruence|].
    destruct ext as [|e0 ext].
    + cbn [String.length Nat.ltb Nat.leb orb]. split.
      * destruct (indexOfSegmentName_spec c r) as (idx & Hidx & Hrange).
        cbv zeta in Hidx, Hrange. rewrite Hr, Hname in Hrange.
        cbn in Hrange. subst idx.
        unfold ParseSegmentName. rewrite Hidx. reflexivity.
      * intros [H|H]; congruence.
    + cbn [String.length Nat.ltb Nat.leb orb].
      rewrite str_app_nil.
      change ("." +:+ String e0 ext)%string with (String "." (String e0 ext)).
      destruct (segment_name_cut c r (String e0 ext) "." Hr) as [Hp Hs];
        [right; auto|].
      split; [exact Hp|]. intros _. eexists. split; [reflexivity|exact Hs].
  - cbn [String.length Nat.ltb Nat.leb orb].
    rewrite Bool.orb_true_r.
    change ("_" +:+ String s0 suffix)%string with (String "_" (String s0 suffix)).
    rewrite str_app_cons.
    destruct (segment_name_cut c r
                (String s0 suffix
                 +:+ (if (0 <? String.length ext)%nat then "." +:+ ext else ""))
                "_" Hr) as [Hp Hs]; [left; reflexivity|].
    split; [exact Hp|]. intros _. eexists. split; [reflexivity|exact Hs].
Qed.

Lemma segment_file_name_round_trip_witness :
  ParseSegmentName (SegmentFileName "_0" "Lucene41" "tim") = Ok "_0"%string
  ∧ StripSegmentName (SegmentFileName "_0" "Lucene41" "tim")
    = Ok "_Lucene41.tim"%string.
Proof.
  assert (Hs : "Lucene41"%string ≠ EmptyString) by discriminate.
  pose proof (segment_file_name_round_trip "_" "0" "Lucene41" "tim"
                eq_refl eq_refl (or_introl Hs)) as [Hp Hr].
  split; [exact Hp|].
  destruct Hr as (rest & Hrest & Hr); [left; exact Hs|].
  rewrite Hr. vm_compute in Hrest. injection Hrest as Hrest.
  rewrite <- Hrest. reflexivity.
Defined.

Lemma StripExtension_cut (a x : string) :
  has_byte "." a = false → StripExtension (a +:+ String "." x) = a.
Proof.
  intros Ha. unfold StripExtension.
  rewrite (strings_Index_first "." a x Ha).
  destruct (Z.eqb_spec (str_len a) (-1)); [unfold str_len in *; lia|].
  cbn [negb]. unfold str_len. rewrite Nat2Z.id. apply str_take_app.
Qed.

Lemma StripExtension_none (a : string) :
  has_byte "." a = false → StripExtension a = a.
Proof.
  intros Ha. unfold StripExtension. rewrite (strings_Index_absent "." a Ha).
  reflexivity.
Qed.

(** X3.  [StripExtension] takes the extension off a name made by
    [SegmentFileName], and nothing else, when neither the segment name nor
    the suffix has a [.]: the result is the name made without extension. *)
Theorem strip_extension_of_segment_file_name (name suffix ext : string) :
  has_byte "." name = false →
  has_byte "." suffix = false →
  StripExtension (SegmentFileName name suffix ext)
  = SegmentFileName name suffix EmptyString.
Proof.
  intros Hname Hsuffix. unfold SegmentFileName.
  destruct suffix as [|s0 suffix], ext as [|e0 ext];
    cbn [String.length Nat.ltb Nat.leb orb].
  - apply StripExtension_none. exact Hname.
  - rewrite str_app_nil.
    change ("." +:+ String e0 ext)%string with (String "." (String e0 ext)).
    apply StripExtension_cut. exact Hname.
  - apply StripExtension_none.
    rewrite !has_byte_app, Hname. change (has_byte "." "_") with false.
    rewrite Hsuffix. reflexivity.
  - rewrite str_app_empty.
    change ("." +:+ String e0 ext)%string with (String "." (String e0 ext)).
    rewrite <- str_app_assoc. apply StripExtension_cut.
    rewrite !has_byte_app, Hname. change (has_byte "." "_") with false.
    rewrite Hsuffix. reflexivity.
Qed.

Lemma strip_extension_of_segment_file_name_witness :
  StripExtension (SegmentFileName "_0" "Lucene41" "tim") = "_0_Lucene41"%string.
Proof.
  exact (strip_extension_of_segment_file_name "_0" "Lucene41" "tim"
           eq_refl eq_refl).
Defined.

(** X4.  The file name of a generation.  Generation -1 has the empty name,
    on which [ParseSegmentName] panics; generation 0 has the name
    [SegmentFileName] makes without suffix; every other generation has
    the base, a [_] and the generation as [FormatInt] writes it, so that
    [ParseSegmentName] gives the base back when it is not empty and has no
    [_] after its first byte. *)
Theorem generation_file_name (FormatInt : Z → Z → string) (c : ascii)
    (r ext : string) (gen : Z) :
  let base := String c r in
  let name := FileNameFromGeneration FormatInt base ext in
  name (-1) = EmptyString
  ∧ ParseSegmentName (name (-1)) = Panic slice_panic
  ∧ name 0 = SegmentFileName base EmptyString ext
  ∧ (has_byte "_" r = false → gen ≠ -1 → gen ≠ 0 →
     ParseSegmentName (name gen) = Ok base
     ∧ StripSegmentName (name gen)
       = Ok ("_" +:+ FormatInt gen 36
             +:+ (if (0 <? String.length ext)%nat then "." +:+ ext else ""))%string).
Proof.
  intros base name. split; [reflexivity|]. split; [reflexivity|].
  split; [reflexivity|]. intros Hr Hm1 H0.
  subst name. unfold FileNameFromGeneration.
  destruct (Z.eqb_spec gen (-1)); [contradiction|].
  destruct (Z.eqb_spec gen 0); [contradiction|].
  set (tail := (FormatInt gen 36
                +:+ (if (0 <? String.length ext)%nat then "." +:+ ext else ""))%string).
  change ("_" +:+ tail)%string with (String "_" tail).
  apply segment_name_cut; [exact Hr|left; reflexivity].
Qed.

Lemma generation_file_name_witness :
  ParseSegmentName (FileNameFromGeneration ex_FormatInt "segments" "" 46)
  = Ok "segments"%string
  ∧ StripSegmentName (FileNameFromGeneration ex_FormatInt "segments" "" 46)
    = Ok "_1a"%string.
Proof.
  destruct (generation_file_name ex_FormatInt "s" "egments" "" 46)
    as (_ & _ & _ & H).
  destruct (H eq_refl ltac:(lia) ltac:(lia)) as [Hp Hs].
  split; [exact Hp|exact Hs].
Defined.

(** ** The fields of a reader that has been built *)

Lemma readHeader_fields
    (CheckHeader : IndexInput → string → Z → Z → IndexInput * Z * option error)
    (r r' : BlockTreeTermsReader) (v : Z) (err : option error) :
  readHeader CheckHeader r = (r', v, err) → fields r' = fields r.
Proof.
  unfold readHeader.
  destruct (CheckHeader _ _ _ _) as [[i ver] [e|]].
  - intros H. injection H as <- _ _. reflexivity.
  - destruct (ver <? _).
    + destruct (in_ReadLong _) as [[i' d] err']. intros H.
      injection H as <- _ _. reflexivity.
    + intros H. injection H as <- _ _. reflexivity.
Qed.

Lemma readIndexHeader_fields
    (CheckHeader : IndexInput → string → Z → Z → IndexInput * Z * option error)
    (r r' : BlockTreeTermsReader) (input i' : IndexInput) (v : Z)
    (err : option error) :
  readIndexHeader CheckHeader r input = (r', i', v, err) → fields r' = fields r.
Proof.
  unfold readIndexHeader.
  destruct (CheckHeader _ _ _ _) as [[i ver] [e|]].
  - intros H. injection H as <- _ _ _. reflexivity.
  - destruct (ver <? _).
    + destruct (in_ReadLong _) as [[i2 d] err']. intros H.
      injection H as <- _ _ _. reflexivity.
    + intros H. injection H as <- _ _ _. reflexivity.
Qed.

(** When the loop over the fields starts, the map of the fields is empty,
    and without index divisor no index input is open. *)
Lemma openDirectory_spec
    (CheckHeader : IndexInput → string → Z → Z → IndexInput * Z * option error)
    (dir : Directory) (info : SegmentInfo) (postings : PostingsReaderBase)
    (segmentSuffix : string) (indexDivisor : Z)
    (fp : BlockTreeTermsReader) (indexIn : option IndexInput) (numFields : Z) :
  openDirectory CheckHeader dir info postings segmentSuffix indexDivisor
  = Ok (fp, indexIn, numFields) →
  fields fp = ∅ ∧ 0 <= numFields ∧ (indexDivisor = -1 → indexIn = None).
Proof.
  unfold openDirectory. intros H.
  apply bind_Ok in H as (i & _ & H).
  destruct (readHeader _ _) as [[fp1 ver] err] eqn:Ehead.
  apply readHeader_fields in Ehead. cbn [fields] in Ehead.
  destruct err as [e|]; [discriminate|].
  apply bind_Ok in H as ([fp2 ii] & Hopen & H).
  assert (H2 : fields fp2 = ∅ ∧ (indexDivisor = -1 → ii = None)).
  { destruct (Z.eqb_spec indexDivisor (-1)) as [Hd|Hd]; cbn [negb] in Hopen.
    - injection Hopen as <- <-. auto.
    - apply bind_Ok in Hopen as (i2 & _ & Hopen).
      destruct (readIndexHeader _ _ _) as [[[fp3 i3] iv] err] eqn:Eidx.
      apply readIndexHeader_fields in Eidx. cbn [fields with_version] in Eidx.
      destruct err as [e|]; [discriminate|].
      destruct (negb _); [discriminate|].
      injection Hopen as <- <-. split; [congruence|contradiction]. }
  destruct H2 as [Hf Hii].
  destruct (in_ReadVInt _) as [[i4 n] [e|]]; [discriminate|].
  destruct (Z.ltb_spec n 0); [discriminate|].
  injection H as <- <- <-. split; [exact Hf|]. split; [assumption|].
  intros Hd. rewrite (Hii Hd).
  destruct (negb (indexDivisor =? -1)); reflexivity.
Qed.

Lemma readEntry_fields (INDEX_OPT_DOCS_ONLY : Z) (fieldInfos : FieldInfos)
    (fp fp1 : BlockTreeTermsReader) (d : DirEntry) :
  readEntry INDEX_OPT_DOCS_ONLY fieldInfos fp = Ok (d, fp1) →
  fields fp1 = fields fp.
Proof.
  unfold readEntry. intros H.
  destruct (in_ReadVInt (r_in fp)) as [[i0 field] [e|]]; [discriminate|].
  destruct (in_ReadVLong _) as [[i1 nTerms] [e|]]; [discriminate|].
  destruct (in_ReadVInt _) as [[i2 numBytes] [e|]]; [discriminate|].
  destruct (numBytes <? 0); [discriminate|].
  destruct (in_ReadBytes _ _) as [[i3 code] [e|]]; [discriminate|].
  set (fp3 := with_in (with_in (with_in (with_in fp i0) i1) i2) i3) in H.
  assert (Hsttf : ∀ x,
    x = (if indexOptions (default zeroFieldInfo (byNumber fieldInfos !! field))
            =? INDEX_OPT_DOCS_ONLY
         then (fp3, -1, None)
         else let '(i, v, err) := in_ReadVLong (r_in fp3) in
              (with_in fp3 i, v, err)) →
    fields (fst (fst x)) = fields fp).
  { intros x ->. destruct (_ =? _); [reflexivity|].
    destruct (in_ReadVLong _) as [[i v] err]. reflexivity. }
  specialize (Hsttf _ eq_refl).
  destruct (if _ =? _ then _ else _) as [[fp4 sttf] [e|]]; [discriminate|].
  cbn [fst] in Hsttf.
  destruct (in_ReadVLong _) as [[i5 sdf] [e|]]; [discriminate|].
  destruct (in_ReadVInt _) as [[i6 dc] [e|]]; [discriminate|].
  injection H as _ <-. exact Hsttf.
Qed.

(** What the directory promises about a field, as the constructor has
    checked it. *)
Lemma newFieldReader_fields (LoadFST : IndexInput → option FST * option error)
    (own : TermsDict) (fi : FieldInfo) (nTerms : Z) (code0 : list byte)
    (sttf sdf dc start : Z) (indexIn : option IndexInput) (r : FieldReader) :
  newFieldReader LoadFST own fi nTerms code0 sttf sdf dc start indexIn = Ok r →
  0 < nTerms ∧ owner r = Some own ∧ numTerms r = nTerms ∧ fieldInfo r = fi
  ∧ sumTotalTermFreq r = sttf ∧ sumDocFreq r = sdf ∧ docCount r = dc
  ∧ rootCode r = code0 ∧ (indexIn = None → index r = None).
Proof.
  unfold newFieldReader. intros H.
  destruct (Z.leb_spec nTerms 0); [discriminate|].
  destruct (din_ReadVLong _) as [[rd n] [e|]]; [discriminate|].
  destruct indexIn as [ii|].
  - destruct (LoadFST _) as [idx [e|]]; [discriminate|].
    injection H as <-. cbn. repeat split; try assumption. discriminate.
  - injection H as <-. cbn. repeat split; assumption.
Qed.

(** One turn of the loop over the fields files one checked field reader
    under a name that was free. *)
Lemma readField_spec (LoadFST : IndexInput → option FST * option error)
    (INDEX_OPT_DOCS_ONLY : Z) (fieldInfos : FieldInfos) (info : SegmentInfo)
    (indexDivisor : Z) (fp fp' : BlockTreeTermsReader)
    (indexIn indexIn' : option IndexInput) :
  readField LoadFST INDEX_OPT_DOCS_ONLY fieldInfos info indexDivisor fp indexIn
  = Ok (fp', indexIn') →
  ∃ name r, fields fp !! name = None
    ∧ fields fp' = <[name := r]> (fields fp)
    ∧ field_checked info name r
    ∧ (indexIn = None → indexDivisor = -1 → indexIn' = None ∧ index r = None).
Proof.
  unfold readField. intros H.
  apply bind_Ok in H as ([d fp1] & Hread & H).
  pose proof (readEntry_docCount _ _ _ _ _ Hread) as Hdc.
  apply readEntry_fields in Hread as Hfields.
  assert (H64 : to_int64 (de_docCount d) = de_docCount d).
  { apply to_int64_small.
    assert (2 ^ 31 < 2 ^ 63) by (apply Z.pow_lt_mono_r; lia). lia. }
  rewrite H64 in H.
  destruct (Z.ltb_spec (de_docCount d) 0); [discriminate|].
  destruct (Z.ltb_spec (si_docCount info) (de_docCount d)); [discriminate|].
  cbn [orb] in H.
  destruct (Z.ltb_spec (de_sumDocFreq d) (de_docCount d)); [discriminate|].
  assert (Hsttf : de_sumTotalTermFreq d = -1
                  ∨ de_sumDocFreq d <= de_sumTotalTermFreq d).
  { destruct (Z.eqb_spec (de_sumTotalTermFreq d) (-1)); [left; assumption|].
    destruct (Z.ltb_spec (de_sumTotalTermFreq d) (de_sumDocFreq d));
      [discriminate|right; assumption]. }
  destruct (negb _ && _); [discriminate|].
  apply bind_Ok in H as ([start ii] & Hstart & H).
  destruct (bool_decide _) eqn:Edup; [discriminate|].
  apply bool_decide_eq_false in Edup.
  apply bind_Ok in H as (r & Hnew & H). injection H as <- <-.
  apply newFieldReader_fields in Hnew
    as (Hn & Ho & Hnt & Hfi & Hst & Hsd & Hdoc & _ & Hidx).
  exists (fi_name (de_fieldInfo d)), r.
  split; [rewrite <- Hfields; apply eq_None_not_Some; exact Edup|].
  split; [cbn [fields with_fields]; rewrite Hfields; reflexivity|].
  split.
  - unfold field_checked. rewrite Hnt, Hdoc, Hsd, Hst, Hfi, Ho.
    repeat split; try assumption; try lia. eexists; reflexivity.
  - intros -> ->. unfold readIndexStart in Hstart. cbn in Hstart.
    injection Hstart as _ <-. auto.
Qed.

(** X5.  Every field reader of a dictionary reader that has been built
    passed the checks of the directory: it has terms, its document count
    is within [0, segment.max_doc], its [sum_doc_freq] is not below the
    document count, its [sum_total_term_freq] is -1 or not below
    [sum_doc_freq], it is filed under the name of its field, and it has
    its owner. *)
Theorem built_fields_checked
    (CheckHeader : IndexInput → string → Z → Z → IndexInput * Z * option error)
    (LoadFST : IndexInput → option FST * option error)
    (INDEX_OPT_DOCS_ONLY : Z) (dir : Directory) (fieldInfos : FieldInfos)
    (info : SegmentInfo) (postings : PostingsReaderBase)
    (segmentSuffix : string) (indexDivisor : Z) (rd : BlockTreeTermsReader)
    (name : string) (r : FieldReader) :
  newBlockTreeTermsReader CheckHeader LoadFST INDEX_OPT_DOCS_ONLY dir
    fieldInfos info postings segmentSuffix indexDivisor = Ok rd →
  fields rd !! name = Some r →
  field_checked info name r.
Proof.
  unfold newBlockTreeTermsReader. intros H.
  apply bind_Ok in H as ([[fp0 ii0] n] & Hopen & H).
  apply openDirectory_spec in Hopen as (Hempty & _ & _).
  apply bind_Ok in H as ([fp1 ii1] & Hloop & H). injection H as <-.
  revert name r.
  assert (Hstart : ∀ name r, fields fp0 !! name = Some r →
                             field_checked info name r).
  { intros name r. rewrite Hempty, lookup_empty. discriminate. }
  clear Hempty. revert fp0 ii0 Hloop Hstart.
  induction (Z.to_nat n) as [|k IH]; intros fp0 ii0 Hloop Hstart;
    cbn [readFields] in Hloop.
  - injection Hloop as <- _. exact Hstart.
  - apply bind_Ok in Hloop as ([fp2 ii2] & Hfield & Hloop).
    apply (IH fp2 ii2 Hloop).
    apply readField_spec in Hfield as (fname & fr & _ & Hins & Hok & _).
    intros name r. rewrite Hins.
    destruct (decide (fname = name)) as [->|Hne].
    + rewrite lookup_insert_eq. intros E. injection E as <-. exact Hok.
    + rewrite lookup_insert_ne by exact Hne. apply Hstart.
Qed.

Lemma built_fields_checked_witness :
  ∃ rd r,
    newBlockTreeTermsReader ex_checkHeader ex_loadFST 1 ex_good_dir
      ex_fieldInfos ex_info ex_postings EmptyString (-1) = Ok rd
    ∧ fields rd !! "f"%string = Some r
    ∧ field_checked ex_info "f" r.
Proof.
  destruct (newBlockTreeTermsReader ex_checkHeader ex_loadFST 1 ex_good_dir
              ex_fieldInfos ex_info ex_postings EmptyString (-1))
    as [rd| |] eqn:E; [|vm_compute in E; discriminate E..].
  destruct (fields rd !! "f"%string) as [r|] eqn:F.
  - exists rd, r. split; [reflexivity|]. split; [exact F|].
    exact (built_fields_checked _ _ _ _ _ _ _ _ _ rd "f" r E F).
  - exfalso. vm_compute in E. injection E as <-. vm_compute in F.
    discriminate F.
Defined.

Lemma readFields_count (LoadFST : IndexInput → option FST * option error)
    (INDEX_OPT_DOCS_ONLY : Z) (fieldInfos : FieldInfos) (info : SegmentInfo)
    (indexDivisor : Z) (k : nat) :
  ∀ (fp fp' : BlockTreeTermsReader) (indexIn indexIn' : option IndexInput),
  readFields LoadFST INDEX_OPT_DOCS_ONLY fieldInfos info indexDivisor k
             fp indexIn = Ok (fp', indexIn') →
  size (fields fp') = (size (fields fp) + k)%nat.
Proof.
  induction k as [|k IH]; intros fp fp' indexIn indexIn' H; cbn [readFields] in H.
  - injection H as <- _. lia.
  - apply bind_Ok in H as ([fp1 ii1] & Hfield & H).
    apply IH in H. rewrite H.
    apply readField_spec in Hfield as (name & r & Hfree & -> & _).
    rewrite (map_size_insert_None _ _ _ Hfree). lia.
Qed.

(** X6.  A dictionary reader that has been built has as many fields as
    the directory of [tim] announces: no entry is dropped and none
    replaces another. *)
Theorem built_fields_count
    (CheckHeader : IndexInput → string → Z → Z → IndexInput * Z * option error)
    (LoadFST : IndexInput → option FST * option error)
    (INDEX_OPT_DOCS_ONLY : Z) (dir : Directory) (fieldInfos : FieldInfos)
    (info : SegmentInfo) (postings : PostingsReaderBase)
    (segmentSuffix : string) (indexDivisor : Z)
    (fp0 rd : BlockTreeTermsReader) (indexIn0 : option IndexInput)
    (numFields : Z) :
  openDirectory CheckHeader dir info postings segmentSuffix indexDivisor
  = Ok (fp0, indexIn0, numFields) →
  newBlockTreeTermsReader CheckHeader LoadFST INDEX_OPT_DOCS_ONLY dir
    fieldInfos info postings segmentSuffix indexDivisor = Ok rd →
  Z.of_nat (size (fields rd)) = numFields.
Proof.
  intros Hopen H. unfold newBlockTreeTermsReader in H. rewrite Hopen in H.
  cbn [mbind outcome_bind] in H.
  apply openDirectory_spec in Hopen as (Hempty & Hn & _).
  apply bind_Ok in H as ([fp1 ii1] & Hloop & H). injection H as <-.
  apply readFields_count in Hloop. rewrite Hloop, Hempty, map_size_empty. lia.
Qed.

Lemma built_fields_count_witness :
  ∃ rd,
    newBlockTreeTermsReader ex_checkHeader ex_loadFST 1 ex_good_dir
      ex_fieldInfos ex_info ex_postings EmptyString (-1) = Ok rd
    ∧ Z.of_nat (size (fields rd)) = 1.
Proof.
  destruct (openDirectory ex_checkHeader ex_good_dir ex_info ex_postings
                          EmptyString (-1))
    as [[[fp0 indexIn0] numFields]| |] eqn:Eopen;
    [|vm_compute in Eopen; discriminate Eopen..].
  destruct (newBlockTreeTermsReader ex_checkHeader ex_loadFST 1 ex_good_dir
              ex_fieldInfos ex_info ex_postings EmptyString (-1))
    as [rd| |] eqn:E; [|vm_compute in E; discriminate E..].
  exists rd. split; [reflexivity|].
  rewrite (built_fields_count _ _ _ _ _ _ _ _ _ fp0 rd indexIn0 numFields
             Eopen E).
  vm_compute in Eopen. injection Eopen as _ _ <-. reflexivity.
Defined.

Lemma readFields_without_index
    (LoadFST : IndexInput → option FST * option error)
    (INDEX_OPT_DOCS_ONLY : Z) (fieldInfos : FieldInfos) (info : SegmentInfo)
    (k : nat) :
  ∀ (fp fp' : BlockTreeTermsReader) (indexIn' : option IndexInput),
  readFields LoadFST INDEX_OPT_DOCS_ONLY fieldInfos info (-1) k fp None
  = Ok (fp', indexIn') →
  (∀ name r, fields fp !! name = Some r → index r = None) →
  ∀ name r, fields fp' !! name = Some r → index r = None.
Proof.
  induction k as [|k IH]; intros fp fp' indexIn' H Hstart; cbn [readFields] in H.
  - injection H as <- _. exact Hstart.
  - apply bind_Ok in H as ([fp1 ii1] & Hfield & H).
    apply readField_spec in Hfield as (fname & fr & _ & Hins & _ & Hidx).
    destruct (Hidx eq_refl eq_refl) as [-> Hnone].
    apply (IH _ _ _ H). intros name r. rewrite Hins.
    destruct (decide (fname = name)) as [->|Hne].
    + rewrite lookup_insert_eq. intros E. injection E as <-. exact Hnone.
    + rewrite lookup_insert_ne by exact Hne. apply Hstart.
Qed.

(** X7.  A dictionary reader built without the index ([indexDivisor] -1)
    cannot be sought: none of its fields has an index, and on every cursor
    of every one of its fields [SeekExact] panics with "terms index was
    not loaded", whatever the target. *)
Theorem built_without_index_cannot_seek
    (CheckHeader : IndexInput → string → Z → Z → IndexInput * Z * option error)
    (LoadFST : IndexInput → option FST * option error)
    (INDEX_OPT_DOCS_ONLY : Z) (dir : Directory) (fieldInfos : FieldInfos)
    (info : SegmentInfo) (postings : PostingsReaderBase)
    (segmentSuffix : string) (rd : BlockTreeTermsReader)
    (name : string) (r : FieldReader) :
  newBlockTreeTermsReader CheckHeader LoadFST INDEX_OPT_DOCS_ONLY dir
    fieldInfos info postings segmentSuffix (-1) = Ok rd →
  fields rd !! name = Some r →
  index r = None
  ∧ ∀ (growslice : nat → nat) (e : SegmentTermsEnum) (target : list byte),
      newSegmentTermsEnum r = Ok e →
      SeekExact growslice e target = Panic "terms index was not loaded".
Proof.
  intros H Hr.
  assert (Hnone : index r = None).
  { unfold newBlockTreeTermsReader in H.
    apply bind_Ok in H as ([[fp0 ii0] n] & Hopen & H).
    apply openDirectory_spec in Hopen as (Hempty & _ & Hii).
    rewrite (Hii eq_refl) in H.
    apply bind_Ok in H as ([fp1 ii1] & Hloop & H). injection H as <-.
    apply (readFields_without_index _ _ _ _ _ _ _ _ Hloop) with (name := name);
      [|exact Hr].
    intros nm fr. rewrite Hempty, lookup_empty. discriminate. }
  split; [exact Hnone|]. intros growslice e target He.
  apply newSegmentTermsEnum_inv in He as [_ He].
  unfold SeekExact, seekIndex. rewrite He, Hnone. reflexivity.
Qed.

Lemma built_without_index_cannot_seek_witness :
  ∃ rd r e,
    newBlockTreeTermsReader ex_checkHeader ex_loadFST 1 ex_good_dir
      ex_fieldInfos ex_info ex_postings EmptyString (-1) = Ok rd
    ∧ fields rd !! "f"%string = Some r
    ∧ newSegmentTermsEnum r = Ok e
    ∧ SeekExact ex_growslice e [x78; x61] = Panic "terms index was not loaded".
Proof.
  destruct (newBlockTreeTermsReader ex_checkHeader ex_loadFST 1 ex_good_dir
              ex_fieldInfos ex_info ex_postings EmptyString (-1))
    as [rd| |] eqn:E; [|vm_compute in E; discriminate E..].
  destruct (fields rd !! "f"%string) as [r|] eqn:F;
    [|exfalso; vm_compute in E; injection E as <-; vm_compute in F;
      discriminate F].
  destruct (newSegmentTermsEnum r) as [e| |] eqn:N;
    [|exfalso; vm_compute in E; injection E as <-; vm_compute in F;
      injection F as <-; vm_compute in N; discriminate N..].
  exists rd, r, e. split; [reflexivity|]. split; [exact F|].
  split; [exact N|].
  destruct (built_without_index_cannot_seek _ _ _ _ _ _ _ _ rd "f" r E F)
    as [_ Hseek].
  exact (Hseek ex_growslice e [x78; x61] N).
Defined.

(** ** What [SeekExact] never does *)

Lemma newFrame_unscanned (r : FieldReader) (o : Z) (f : segmentTermsEnumFrame) :
  newFrame r o = Ok f → unscanned_frame f.
Proof.
  unfold newFrame. destruct (owner r); [|discriminate].
  intros H. injection H as <-. split; cbn; [right; reflexivity|discriminate].
Qed.

Lemma newFrames_unscanned (r : FieldReader) (n : nat) :
  ∀ (from : Z) (fs : list segmentTermsEnumFrame),
  newFrames r from n = Ok fs → Forall unscanned_frame fs.
Proof.
  induction n as [|n IH]; intros from fs H; cbn [newFrames] in H.
  - injection H as <-. constructor.
  - apply bind_Ok in H as (f & Hf & H). apply bind_Ok in H as (fs' & Hfs & H).
    injection H as <-. constructor; [exact (newFrame_unscanned _ _ _ Hf)|].
    exact (IH _ _ Hfs).
Qed.

Lemma frameAt_unscanned (e : SegmentTermsEnum) (p : Z) :
  frames_unscanned e → unscanned_frame (frameAt e p).
Proof.
  intros [Hs Hf]. unfold frameAt. destruct (p <? 0); [exact Hs|].
  destruct (stack e !! Z.to_nat p) as [f|] eqn:E; [|exact Hs].
  exact (proj1 (Forall_lookup _ _) Hf _ _ E).
Qed.

Lemma setFrame_unscanned (e : SegmentTermsEnum) (p : Z)
    (f : segmentTermsEnumFrame) :
  frames_unscanned e → unscanned_frame f → frames_unscanned (setFrame e p f).
Proof.
  intros [Hs Hf] H. unfold setFrame, frames_unscanned.
  destruct (p <? 0); cbn; [auto|].
  split; [exact Hs|]. apply Forall_insert; assumption.
Qed.

Lemma frame_unscanned (e e' : SegmentTermsEnum) (o p : Z) :
  frame e o = Ok (e', p) → frames_unscanned e → frames_unscanned e'.
Proof.
  unfold frame. intros H [Hs Hf].
  apply bind_Ok in H as (e1 & H1 & H).
  assert (frames_unscanned e1) as H2.
  { destruct (o =? _).
    - apply bind_Ok in H1 as (f & Hnew & H1). injection H1 as <-.
      split; [exact Hs|]. cbn. apply Forall_app. split; [exact Hf|].
      constructor; [exact (newFrame_unscanned _ _ _ Hnew)|constructor].
    - destruct (_ <? o).
      + apply bind_Ok in H1 as (fs & Hnew & H1). injection H1 as <-.
        split; [exact Hs|]. cbn. apply Forall_app. split; [exact Hf|].
        exact (newFrames_unscanned _ _ _ _ Hnew).
      + injection H1 as <-. split; assumption. }
  destruct (at_index _ _); [|discriminate].
  destruct (negb _); [discriminate|]. injection H as <- _. exact H2.
Qed.

Lemma rewind_unscanned (f : segmentTermsEnumFrame) :
  unscanned_frame f → unscanned_frame (rewind f).
Proof.
  intros [_ Hleaf]. unfold rewind.
  destruct (isFloor _).
  - destruct (din_ReadVInt _) as [[r n] ?]. destruct (din_ReadByte _) as [[r' b] ?].
    split; cbn; [left; reflexivity|exact Hleaf].
  - split; cbn; [left; reflexivity|exact Hleaf].
Qed.

Lemma setFloorData_unscanned (f f' : segmentTermsEnumFrame)
    (rd : ByteArrayDataInput) (source : list byte) :
  setFloorData f rd source = Ok f' → unscanned_frame f → unscanned_frame f'.
Proof.
  unfold setFloorData. intros H Hf. ok_inv H. injection H as <-. exact Hf.
Qed.

Lemma pushFrameAt_unscanned (e e' : SegmentTermsEnum) (a : nat) (fp0 len p : Z) :
  pushFrameAt e a fp0 len = Ok (e', p) →
  frames_unscanned e → frames_unscanned e'.
Proof.
  unfold pushFrameAt. intros H He.
  apply bind_Ok in H as ([e1 p1] & Hf & H).
  apply frame_unscanned in Hf; [|exact He].
  pose proof (frameAt_unscanned e1 p1 Hf) as Hgood.
  destruct (_ && _).
  - destruct (negb _); [discriminate|]. injection H as <- _.
    apply setFrame_unscanned; [exact Hf|].
    destruct (_ <? _); [apply rewind_unscanned|]; exact Hgood.
  - injection H as <- _. apply setFrame_unscanned; [exact Hf|].
    destruct Hgood as [_ Hleaf]. split; cbn; [left; reflexivity|exact Hleaf].
Qed.

Lemma pushFrame_unscanned (e e' : SegmentTermsEnum) (a : nat)
    (frameData : list byte) (len p : Z) :
  pushFrame e a frameData len = Ok (e', p) →
  frames_unscanned e → frames_unscanned e'.
Proof.
  unfold pushFrame. intros H He.
  destruct (din_ReadVLong _) as [[sr code] [er|]]; [discriminate|].
  apply bind_Ok in H as ([e1 p1] & Hf & H).
  apply frame_unscanned in Hf; [|exact He].
  pose proof (frameAt_unscanned e1 p1 Hf) as Hgood.
  apply bind_Ok in H as (f & Hfloor & H).
  apply bind_Ok in H as ([e2 p2] & Hpush & H). injection H as <- _.
  apply pushFrameAt_unscanned in Hpush; [exact Hpush|].
  apply setFrame_unscanned; [exact Hf|].
  destruct (isFloor _).
  - apply setFloorData_unscanned in Hfloor; [exact Hfloor|exact Hgood].
  - injection Hfloor as <-. exact Hgood.
Qed.

Lemma loadBlock_unscanned (e e' : SegmentTermsEnum) (p : Z) (err : option error) :
  loadBlock e p = Ok (e', err) → frames_unscanned e → frames_unscanned e'.
Proof.
  unfold loadBlock. intros H He.
  apply bind_Ok in H as (e1 & Hinit & H).
  assert (He1 : ∃ i, e1 = set_e_in i e).
  { unfold initIndexInput in Hinit. ok_inv Hinit; injection Hinit as <-;
      eexists; try reflexivity. destruct e; cbn in *; subst; reflexivity. }
  destruct He1 as [i0 ->].
  change (frameAt (set_e_in i0 e) p) with (frameAt e p) in H.
  pose proof (frameAt_unscanned e p He) as [Hnext Hleaf].
  assert (Hexit : ∀ i f, unscanned_frame f →
            frames_unscanned (setFrame (set_e_in (Some i) (set_e_in i0 e)) p f)).
  { intros i f Hf. apply setFrame_unscanned; [exact He|exact Hf]. }
  destruct (negb (nextEnt (frameAt e p) =? -1)) eqn:Eloaded.
  { injection H as <- _. exact He. }
  assert (Hn : nextEnt (frameAt e p) = -1).
  { destruct (Z.eqb_spec (nextEnt (frameAt e p)) (-1)); [assumption|discriminate]. }
  destruct (e_in (set_e_in i0 e)) as [i|]; [|discriminate].
  destruct (in_ReadVInt _) as [[i1 code] [er|]].
  { injection H as <- _. apply Hexit. split; [left; exact Hn|exact Hleaf]. }
  set (f1 := set_entCount _ (frameAt e p)) in H.
  destruct (Z.leb_spec (entCount f1) 0) as [|Hent]; [discriminate|].
  change (entCount f1) with (Z.shiftr (to_uint64 code) 1) in Hent.
  destruct (_ && _); [discriminate|].
  destruct (in_ReadVInt i1) as [[i2 code2] err2].
  apply bind_Ok in H as (sb & _ & H).
  destruct (in_ReadBytes i2 sb) as [[i3 sb'] [er|]].
  { injection H as <- _. apply Hexit.
    split; cbn; [left; exact Hn|intros _; exact Hent]. }
  destruct (in_ReadVInt i3) as [[i4 numBytes] [er|]].
  { injection H as <- _. apply Hexit.
    split; cbn; [left; exact Hn|intros _; exact Hent]. }
  apply bind_Ok in H as (stb & _ & H).
  destruct (in_ReadBytes i4 stb) as [[i5 stb'] [er|]].
  { injection H as <- _. apply Hexit.
    split; cbn; [left; exact Hn|intros _; exact Hent]. }
  destruct (owner _); [|discriminate].
  destruct (pr_ReadTermsBlock _ _ _ _) as [i6 st].
  injection H as <- _. apply Hexit.
  split; cbn; [right; reflexivity|intros _; exact Hent].
Qed.

(** On a frame on which nothing has been scanned, [scanToTerm] does not
    return. *)
Lemma scanToTerm_unscanned (e : SegmentTermsEnum) (p : Z) (target : list byte)
    (exactOnly : bool) :
  unscanned_frame (frameAt e p) →
  is_Ok (scanToTerm e p target exactOnly) = false.
Proof.
  intros [Hnext Hleaf].
  unfold scanToTerm, scanToTermNonLeaf, scanToTermLeaf, prefixMatches.
  destruct (isLeafBlock (frameAt e p)); [|reflexivity].
  specialize (Hleaf eq_refl).
  destruct (Z.eqb_spec (nextEnt (frameAt e p)) (-1)); [reflexivity|].
  change (nextEnt (set_subCode 0 (frameAt e p))) with (nextEnt (frameAt e p)).
  change (entCount (set_subCode 0 (frameAt e p))) with (entCount (frameAt e p)).
  destruct (Z.eqb_spec (nextEnt (frameAt e p)) (entCount (frameAt e p)));
    [lia|reflexivity].
Qed.

Lemma scanCurrent_unscanned (e : SegmentTermsEnum) (target : list byte) :
  frames_unscanned e → is_Ok (scanCurrent e target) = false.
Proof.
  intros He. unfold scanCurrent.
  destruct (loadBlock e (currentFrame e)) as [[e1 err]| |] eqn:Hload;
    [|reflexivity..].
  cbn [mbind outcome_bind].
  apply loadBlock_unscanned in Hload as He1; [|exact He].
  pose proof (scanToTerm_unscanned e1 (currentFrame e1) target true
                (frameAt_unscanned _ _ He1)) as Hscan.
  destruct (scanToTerm e1 (currentFrame e1) target true) as [[e2 st]| |];
    [discriminate|reflexivity..].
Qed.

Lemma seekStateLoop_unscanned (idx : option FST) (n : nat) :
  ∀ (e e' : SegmentTermsEnum) (o : Z) (b : bool),
  seekStateLoop idx n e o b = Ok e' → frames_unscanned e → frames_unscanned e'.
Proof.
  induction n as [|n IH]; intros e e' o b H He; cbn [seekStateLoop] in H;
    apply bind_Ok in H as ([e1 p] & Hf & H);
    apply frame_unscanned in Hf; try exact He;
    (destruct (slice_upto _ _); [|discriminate]);
    apply bind_Ok in H as ([] & _ & H).
  - destruct (_ =? _); injection H as <-; exact Hf.
  - destruct (_ =? _); [injection H as <-; exact Hf|].
    exact (IH _ _ _ _ H Hf).
Qed.

Lemma unscanned_fields (e e' : SegmentTermsEnum) :
  termExists e' = termExists e → e_in e' = e_in e →
  frames_unscanned e' → unscanned e → unscanned e'.
Proof. intros Ht Hi Hf (H1 & H2 & _). repeat split; try congruence; apply Hf. Qed.

Lemma pushFrame_keeps_unscanned (e e' : SegmentTermsEnum) (a : nat)
    (frameData : list byte) (len p : Z) :
  pushFrame e a frameData len = Ok (e', p) → unscanned e → unscanned e'.
Proof.
  intros H He. pose proof (pushFrame_frames_only _ _ _ _ _ _ H) as Hfo.
  apply frames_only_fields in Hfo as (_ & Hin & _ & _ & Hte & _).
  apply (unscanned_fields e); [exact Hte|exact Hin| |exact He].
  apply (pushFrame_unscanned _ _ _ _ _ _ H). apply He.
Qed.

(** The walk through the index neither loads a block nor finds a term. *)
Lemma indexLoop_unscanned (idx : FST) (target : list byte) (n : nat) :
  ∀ (e e1 : SegmentTermsEnum) (t : Z) (a : nat) (out : list byte)
    (stop : seek_stop),
  indexLoop idx target n e t a out = Ok (stop, e1) →
  unscanned e → unscanned e1 ∧ stop ≠ StopSame.
Proof.
  induction n as [|n IH]; intros e e1 t a out stop H He; cbn [indexLoop] in H.
  - injection H as <- <-. split; [exact He|discriminate].
  - destruct (at_index target t) as [b|]; [|discriminate].
    apply bind_Ok in H as ([e2 slot] & Hg & H).
    apply getArc_spec in Hg as (_ & _ & _ & k & ->).
    set (e2 := set_arcs _ e) in H.
    assert (He2 : unscanned e2)
      by (apply (unscanned_fields e); [reflexivity..|apply He|exact He]).
    destruct (arcs e2 !! a) as [follow|]; [|discriminate].
    destruct (arcs e2 !! slot) as [scratch|]; [|discriminate].
    destruct (FindTargetArc idx _ follow scratch) as [found|scratch'|er];
      [| |discriminate].
    + destruct (slice_set _ _ _) as [s|]; [|discriminate].
      destruct (Output found); [|discriminate].
      set (e3 := set_term s _) in H.
      assert (He3 : unscanned e3)
        by (apply (unscanned_fields e2); [reflexivity..|apply He2|exact He2]).
      destruct (IsFinal found).
      * apply bind_Ok in H as ([e4 p] & Hpush & H).
        apply pushFrame_keeps_unscanned in Hpush; [|exact He3].
        apply (IH _ _ _ _ _ _ H).
        apply (unscanned_fields e4); [reflexivity..|apply Hpush|exact Hpush].
      * exact (IH _ _ _ _ _ _ H He3).
    + injection H as <- <-. split; [|discriminate].
      apply (unscanned_fields e2); [reflexivity..|apply He2|exact He2].
Qed.

Lemma seekIndex_unscanned (e e1 : SegmentTermsEnum) (target : list byte)
    (stop : seek_stop) :
  seekIndex e target = Ok (stop, e1) →
  unscanned e → unscanned e1 ∧ stop ≠ StopSame.
Proof.
  unfold seekIndex. intros H He.
  destruct (index (fieldReader e)) as [idx|]; [|discriminate].
  apply bind_Ok in H as (e2 & Hgrow & H).
  apply growTerm_spec in Hgrow as (Hgrow & _).
  apply bind_Ok in H as (e3 & Hprint & H).
  assert (He3 : unscanned e3).
  { pose proof (printSeekState_keeps _ _ Hprint) as Hk.
    apply (unscanned_fields e).
    - rewrite Hk, Hgrow. reflexivity.
    - rewrite Hk, Hgrow. reflexivity.
    - unfold printSeekState in Hprint.
      destruct (currentFrame _ <? 0).
      + injection Hprint as <-. rewrite Hgrow. apply He.
      + apply (seekStateLoop_unscanned _ _ _ _ _ _ Hprint).
        rewrite Hgrow. apply He.
    - exact He. }
  clear Hprint Hgrow He e2 e.
  set (e4 := set_targetBeforeCurrentLength _ e3) in H.
  assert (He4 : unscanned e4)
    by (apply (unscanned_fields e3); [reflexivity..|apply He3|exact He3]).
  clearbody e4. clear He3 e3.
  destruct (negb (_ =? _)).
  - destruct (at_index (arcs e4) 0) as [first|]; [|discriminate].
    destruct (negb (IsFinal first)); [discriminate|].
    destruct (Output first) as [output|]; [|discriminate].
    destruct (at_index (stack e4) 0); [|discriminate].
    destruct (_ <? _); [discriminate|].
    apply bind_Ok in H as ([[[[cmp r] a] out] last] & _ & H).
    apply bind_Ok in H as (cmp' & _ & H).
    destruct (cmp' <? 0).
    { apply (indexLoop_unscanned _ _ _ _ _ _ _ _ _ H).
      apply (unscanned_fields e4); [reflexivity..|apply He4|exact He4]. }
    destruct (0 <? cmp').
    { apply (indexLoop_unscanned _ _ _ _ _ _ _ _ _ H).
      set (e5 := set_currentFrame last (set_targetBeforeCurrentLength 0 e4)).
      assert (He5 : unscanned e5)
        by (apply (unscanned_fields e4); [reflexivity..|apply He4|exact He4]).
      destruct (setFrame_fields e5 (currentFrame e5)
                  (rewind (frameAt e5 (currentFrame e5))))
        as (Hin & _ & _ & _ & _ & _ & Hte).
      apply (unscanned_fields e5); [exact Hte|exact Hin| |exact He5].
      apply setFrame_unscanned; [apply He5|].
      apply rewind_unscanned, frameAt_unscanned. apply He5. }
    destruct (negb _); [discriminate|].
    destruct (termExists e4) eqn:Ete.
    { destruct He4 as (Hf & _). congruence. }
    exact (indexLoop_unscanned _ _ _ _ _ _ _ _ _ H He4).
  - destruct (at_index _ 0) as [slot0|]; [|discriminate].
    destruct (Output (FirstArc idx slot0)) as [output|]; [|discriminate].
    destruct (negb _); [discriminate|].
    apply bind_Ok in H as ([e5 p] & Hpush & H).
    apply pushFrame_keeps_unscanned in Hpush.
    + apply (indexLoop_unscanned _ _ _ _ _ _ _ _ _ H).
      apply (unscanned_fields e5); [reflexivity..|apply Hpush|exact Hpush].
    + apply (unscanned_fields e4); [reflexivity..|apply He4|exact He4].
Qed.

Lemma SeekExact_unscanned (growslice : nat → nat) (e e' : SegmentTermsEnum)
    (target : list byte) (b : bool) :
  SeekExact growslice e target = Ok (b, e') →
  unscanned e → b = false ∧ unscanned e'.
Proof.
  unfold SeekExact. intros H He.
  apply bind_Ok in H as ([stop e1] & Hwalk & H).
  apply seekIndex_unscanned in Hwalk as [He1 Hstop]; [|exact He].
  set (e2 := set_validIndexPrefix (prefix (frameAt e1 (currentFrame e1))) e1).
  assert (He2 : unscanned e2)
    by (apply (unscanned_fields e1); [reflexivity..|apply He1|exact He1]).
  assert (Hsettle : setFrame e2 (currentFrame e1) (frameAt e2 (currentFrame e1))
                    = e2) by apply setFrame_frameAt.
  destruct stop as [|label|upto]; [congruence| |].
  - unfold indexExhausted in H. fold e2 in H.
    apply bind_Ok in H as (f & Hfloor & H).
    apply scanToFloorFrame_same in Hfloor as ->.
    change (currentFrame e2) with (currentFrame e1) in H.
    rewrite Hsettle in H.
    destruct (negb _).
    + injection H as <- <-. split; [reflexivity|].
      split; [reflexivity|]. split; [exact (proj1 (proj2 He2))|].
      exact (proj2 (proj2 He2)).
    + pose proof (scanCurrent_unscanned _ target (proj2 (proj2 He2))) as Hno.
      rewrite H in Hno. discriminate.
  - unfold targetConsumed in H. fold e2 in H.
    apply bind_Ok in H as (f & Hfloor & H).
    apply scanToFloorFrame_same in Hfloor as ->.
    change (currentFrame e2) with (currentFrame e1) in H.
    rewrite Hsettle in H.
    destruct (negb _).
    + destruct (slice_upto _ _) as [t|]; [|discriminate].
      injection H as <- <-. split; [reflexivity|].
      split; [reflexivity|]. split; [exact (proj1 (proj2 He2))|].
      exact (proj2 (proj2 He2)).
    + pose proof (scanCurrent_unscanned _ target (proj2 (proj2 He2))) as Hno.
      rewrite H in Hno. discriminate.
Qed.

Lemma newSegmentTermsEnum_unscanned (r : FieldReader) (e : SegmentTermsEnum) :
  newSegmentTermsEnum r = Ok e → unscanned e.
Proof.
  unfold newSegmentTermsEnum. intros H.
  destruct (owner r); [|discriminate].
  apply bind_Ok in H as (static & Hstatic & H).
  apply newFrame_unscanned in Hstatic.
  assert (Hans : ∀ a,
    unscanned (mkEnum r None [] static (-1) false 0 NewEmptyByteArrayDataInput 0
                      false (mkSlice [] []) [a])).
  { intros a. split; [reflexivity|]. split; [reflexivity|].
    split; [exact Hstatic|constructor]. }
  destruct (index r) as [idx|].
  - destruct (negb _); [discriminate|]. injection H as <-. apply Hans.
  - injection H as <-. apply Hans.
Qed.

Lemma seeks_unscanned (growslice : nat → nat) (targets : list (list byte)) :
  ∀ e e', seeks growslice e targets = Ok e' → unscanned e → unscanned e'.
Proof.
  induction targets as [|target rest IH]; intros e e' H He; cbn [seeks] in H.
  - injection H as <-. exact He.
  - apply bind_Ok in H as ([b e1] & Hseek & H).
    apply SeekExact_unscanned in Hseek as [_ He1]; [|exact He].
    exact (IH _ _ H He1).
Qed.

(** X9.  As the code stands, a cursor finds no term.  Take a cursor as
    [newSegmentTermsEnum] makes it and any run of [SeekExact] calls on it
    that return: every answer is false, and the cursor has not opened the
    terms file ([e.in] is nil) -- a call that gets as far as a block with
    terms does not return. *)
Theorem seeks_never_find (growslice : nat → nat) (r : FieldReader)
    (e0 e e' : SegmentTermsEnum) (targets : list (list byte))
    (target : list byte) (b : bool) :
  newSegmentTermsEnum r = Ok e0 →
  seeks growslice e0 targets = Ok e →
  SeekExact growslice e target = Ok (b, e') →
  b = false ∧ termExists e' = false ∧ e_in e' = None.
Proof.
  intros Hnew Hrun Hseek.
  apply newSegmentTermsEnum_unscanned in Hnew.
  apply (seeks_unscanned _ _ _ _ Hrun) in Hnew.
  apply SeekExact_unscanned in Hseek as (-> & Hte & Hin & _); [|exact Hnew].
  auto.
Qed.

Lemma seeks_never_find_witness :
  SeekExact ex_growslice ex_primed [x79; x71] = Ok (false, ex_sought)
  ∧ termExists ex_sought = false ∧ e_in ex_sought = None.
Proof.
  assert (Hseek : SeekExact ex_growslice ex_primed [x79; x71]
                  = Ok (false, ex_sought)) by (vm_compute; reflexivity).
  split; [exact Hseek|].
  assert (Hnew : newSegmentTermsEnum ex_field = Ok ex_cursor) by reflexivity.
  assert (Hrun : seeks ex_growslice ex_cursor [[x61]] = Ok ex_primed)
    by (vm_compute; reflexivity).
  destruct (seeks_never_find ex_growslice ex_field ex_cursor ex_primed ex_sought
              [[x61]] [x79; x71] false Hnew Hrun Hseek) as (_ & Hte & Hin).
  split; assumption.
Defined.

(** X8.  The reader [Terms] hands out for a field the dictionary does not
    have is the zero reader, and asking it for a cursor panics on a nil
    pointer: it has no owner to make a frame from. *)
Theorem absent_field_iterator_panics (r : BlockTreeTermsReader) (field : string) :
  fields r !! field = None →
  ∃ t, Terms r field = Some t ∧ Iterator t = Panic nil_panic.
Proof.
  intros H. exists zeroFieldReader. unfold Terms. rewrite H. split; reflexivity.
Qed.

Lemma absent_field_iterator_panics_witness :
  ∃ t, Terms (mkReader (mkInput ex_file 0 []) ex_postings ∅ 0 0 "_0" 1) "body"
       = Some t
     ∧ Iterator t = Panic nil_panic.
Proof.
  apply absent_field_iterator_panics. reflexivity.
Defined.



(** ** The shape of a cursor between seeks *)

Lemma seeks_seek_inv (growslice : nat → nat) (r : FieldReader)
    (targets : list (list byte)) :
  (∀ idx, index r = Some idx → fst_labels idx) →
  ∀ e e', fieldReader e = r → seek_inv e →
    seeks growslice e targets = Ok e' → seek_inv e'.
Proof.
  intros Hfst. induction targets as [|target rest IH]; intros e e' Hr Hinv H;
    cbn [seeks] in H.
  - injection H as <-. exact Hinv.
  - apply bind_Ok in H as ([b e1] & Hseek & H).
    apply (IH e1); [| |exact H].
    + rewrite (SeekExact_fieldReader _ _ _ _ _ Hseek). exact Hr.
    + apply (SeekExact_inv growslice e e1 target b); [exact Hinv| |exact Hseek].
      rewrite Hr. exact Hfst.
Qed.

(** X11.  Between the seeks of a run that starts on a cursor as
    [newSegmentTermsEnum] makes it, over an index whose [FindTargetArc]
    answers with an arc of the label asked for: the valid prefix is not
    longer than the term, every frame of the stack carries its index, the
    static frame carries -1, and the current frame is the static frame or
    a frame of the stack.  The assertions on [validIndexPrefix] of
    [SeekExact] and on [ord] of [frame] hold on such a cursor. *)
Theorem cursor_shape_after_seeks (growslice : nat → nat) (r : FieldReader)
    (e0 e : SegmentTermsEnum) (targets : list (list byte)) :
  (∀ idx, index r = Some idx → fst_labels idx) →
  newSegmentTermsEnum r = Ok e0 →
  seeks growslice e0 targets = Ok e →
  0 <= validIndexPrefix e <= slice_len (term e)
  ∧ ord (staticFrame e) = -1
  ∧ (∀ i f, stack e !! i = Some f → ord f = Z.of_nat i)
  ∧ -1 <= currentFrame e < Z.of_nat (length (stack e)).
Proof.
  intros Hfst Hnew Hrun.
  apply newSegmentTermsEnum_inv in Hnew as [Hinv Hr].
  apply (seeks_seek_inv growslice r targets Hfst e0 e Hr Hinv) in Hrun.
  assert (Hnum : frames_numbered e →
            ord (staticFrame e) = -1
            ∧ ∀ i f, stack e !! i = Some f → ord f = Z.of_nat i).
  { intros [Hs Hn]. split; [exact Hs|]. intros i f Hi.
    specialize (Hn (Z.of_nat i) ltac:(lia)).
    unfold live, frameAt in Hn. apply lookup_lt_Some in Hi as Hlt.
    destruct (Z.ltb_spec (Z.of_nat i) 0); [lia|].
    rewrite Nat2Z.id, Hi in Hn. apply Hn. lia. }
  destruct Hrun as [(Hc & Hv & Hn)|W].
  - destruct (Hnum Hn) as [Hs Hst]. rewrite Hc, Hv. unfold slice_len.
    repeat split; try assumption; lia.
  - destruct (Hnum (wi_numbered _ _ W)) as [Hs Hst].
    destruct (wi_current _ _ W) as [Hc Hl]. pose proof (wi_depth _ _ W) as Hd.
    split; [|split; [exact Hs|split; [exact Hst|unfold live in Hl; lia]]].
    split; [exact Hd|].
    destruct (Z.eq_dec (validIndexPrefix e) 0) as [->|Hpos];
      [unfold slice_len; lia|].
    destruct (wi_labels _ _ W (validIndexPrefix e - 1) ltac:(lia))
      as (a & b & _ & Hget & _).
    unfold slice_get in Hget.
    destruct (Z.leb_spec 0 (validIndexPrefix e - 1)); [|discriminate].
    destruct (Z.ltb_spec (validIndexPrefix e - 1) (slice_len (term e)));
      [lia|discriminate].
Qed.

Lemma cursor_shape_after_seeks_witness :
  validIndexPrefix ex_sought = 1 ∧ slice_len (term ex_sought) = 2
  ∧ currentFrame ex_sought = 1 ∧ length (stack ex_sought) = 2%nat
  ∧ ∀ i f, stack ex_sought !! i = Some f → ord f = Z.of_nat i.
Proof.
  do 4 (split; [reflexivity|]).
  destruct (cursor_shape_after_seeks ex_growslice ex_field ex_cursor ex_sought
              [[x61]; [x79; x71]]) as (_ & _ & H & _).
  - intros idx Hi. injection Hi as <-. exact ex_index_labels.
  - reflexivity.
  - vm_compute. reflexivity.
  - exact H.
Defined.

(** ** Frames *)

(** X12.  [frame(ord)] for [ord >= 0], when it returns: the stack is as
    long as it was, or just long enough to hold the frame [ord]; the
    frames that were there are untouched; the frame returned is
    [stack[ord]] and carries [ord]; nothing else of the cursor changes.
    For a negative [ord] the call panics on the index. *)
Theorem frame_grows_stack (e : SegmentTermsEnum) (o : Z) :
  (o < 0 → frame e o = Panic index_panic)
  ∧ ∀ e' p, frame e o = Ok (e', p) →
      p = o ∧ 0 <= o
      ∧ e' = set_stack (stack e') e
      ∧ length (stack e') = Nat.max (length (stack e)) (Z.to_nat o + 1)
      ∧ take (length (stack e)) (stack e') = stack e
      ∧ ∃ f, stack e' !! Z.to_nat o = Some f ∧ ord f = o.
Proof.
  split.
  - intros Ho. unfold frame, at_index.
    destruct (Z.eqb_spec o (Z.of_nat (length (stack e)))); [lia|].
    destruct (Z.ltb_spec (Z.of_nat (length (stack e))) o); [lia|].
    cbn [mbind outcome_bind]. destruct (Z.ltb_spec o 0); [reflexivity|lia].
  - unfold frame. intros e' p H.
    apply bind_Ok in H as (e1 & H1 & H).
    assert (Hext : ∃ ext, e1 = set_stack (stack e ++ ext) e
              ∧ (length (stack e) + length ext
                 = Nat.max (length (stack e)) (Z.to_nat o + 1))%nat
                ∨ (o < 0 ∧ ext = [])).
    { destruct (Z.eqb_spec o (Z.of_nat (length (stack e)))).
      - apply bind_Ok in H1 as (f & _ & H1). injection H1 as <-.
        eexists. left. split; [reflexivity|]. cbn. lia.
      - destruct (Z.ltb_spec (Z.of_nat (length (stack e))) o).
        + apply bind_Ok in H1 as (fs & Hfs & H1). injection H1 as <-.
          apply newFrames_length in Hfs.
          eexists. left. split; [reflexivity|]. lia.
        + injection H1 as <-. exists [].
          destruct (Z.ltb_spec o 0); [right; auto|].
          left. rewrite app_nil_r. split; [destruct e; reflexivity|]. cbn. lia. }
    unfold at_index in H.
    destruct (Z.ltb_spec o 0); [discriminate|].
    destruct (stack e1 !! Z.to_nat o) as [f|] eqn:Ef; [|discriminate].
    destruct (Z.eqb_spec (ord f) o); [|discriminate]. injection H as <- <-.
    destruct Hext as (ext & [[-> Hlen]|[Hneg _]]); [|lia].
    cbn [stack set_stack] in *.
    split; [reflexivity|]. split; [assumption|]. split; [reflexivity|].
    split; [rewrite length_app; exact Hlen|].
    split; [apply take_app_length|]. exists f. auto.
Qed.

Lemma bytes_after_reads (r : ByteArrayDataInput) :
  bytes (fst (fst (din_ReadByte (fst (fst (din_ReadVInt r)))))) = bytes r.
Proof.
  unfold din_ReadVInt, din_ReadVar, din_ReadByte.
  destruct (decode_var 5 0 _) as [er|[v k]]; cbn;
    match goal with |- context [at_index ?l ?i] => destruct (at_index l i) end;
    reflexivity.
Qed.

(** X13.  [rewind] brings a floored frame back to the head of its floor
    data: after [setFloorData], a [rewind] finds the number of floor
    blocks that follow, the next floor label and the position of the
    floor-data reader as [setFloorData] left them; and a second [rewind]
    changes nothing. *)
Theorem rewind_restores_floor_head (f f' : segmentTermsEnumFrame)
    (rd : ByteArrayDataInput) (source : list byte) :
  setFloorData f rd source = Ok f' →
  isFloor f = true →
  numFollowFloorBlocks (rewind f') = numFollowFloorBlocks f'
  ∧ nextFloorLabel (rewind f') = nextFloorLabel f'
  ∧ floorDataReader (rewind f') = floorDataReader f'
  ∧ rewind (rewind f') = rewind f'.
Proof.
  unfold setFloorData. intros H Hfloor.
  apply bind_Ok in H as (fd & _ & H).
  destruct (_ || _); [discriminate|].
  set (data := copy_bytes fd _) in H.
  destruct (din_ReadVInt (din_Reset data)) as [[r1 n] e1] eqn:E1.
  destruct (din_ReadByte r1) as [[r2 b] e2] eqn:E2.
  injection H as <-.
  assert (Hbytes : bytes r2 = data).
  { pose proof (bytes_after_reads (din_Reset data)) as Hb.
    rewrite E1 in Hb. cbn [fst] in Hb. rewrite E2 in Hb. exact Hb. }
  assert (Hrew : din_Rewind r2 = din_Reset data).
  { unfold din_Rewind, din_Reset. rewrite Hbytes. reflexivity. }
  assert (Hone : ∀ g, isFloor g = true → floorDataReader g = r2 →
            rewind g
            = set_nextFloorLabel (int_of_byte b)
                (set_numFollowFloorBlocks n
                   (set_floorDataReader r2
                      (set_hasTerms (hasTermsOrig g)
                         (set_nextEnt (-1) (set_fp (fpOrig g) g)))))).
  { intros g Hg Hr. unfold rewind. cbn [isFloor set_hasTerms set_nextEnt set_fp].
    rewrite Hg. cbn [floorDataReader set_hasTerms set_nextEnt set_fp].
    rewrite Hr, Hrew, E1, E2. reflexivity. }
  rewrite Hone
    by (cbn [isFloor floorDataReader set_nextFloorLabel set_numFollowFloorBlocks
             set_floorDataReader set_floorData];
        first [assumption|reflexivity]).
  split; [reflexivity|]. split; [reflexivity|]. split; [reflexivity|].
  rewrite Hone
    by (cbn [isFloor floorDataReader set_nextFloorLabel set_numFollowFloorBlocks
             set_floorDataReader set_floorData set_hasTerms set_nextEnt set_fp];
        first [assumption|reflexivity]).
  clearbody data. destruct f. vm_compute. reflexivity.
Qed.

Lemma rewind_restores_floor_head_witness :
  numFollowFloorBlocks (rewind ex_floored) = 3
  ∧ nextFloorLabel (rewind ex_floored) = 104
  ∧ Pos (floorDataReader (rewind ex_floored)) = 2
  ∧ rewind (rewind ex_floored) = rewind ex_floored.
Proof.
  assert (Hset : setFloorData (set_isFloor true ex_static)
                   (mkDataInput ex_floorCode 1) ex_floorCode = Ok ex_floored).
  { vm_compute. reflexivity. }
  destruct (rewind_restores_floor_head _ _ _ _ Hset eq_refl)
    as (Hn & Hl & Hr & Hre).
  split; [rewrite Hn; reflexivity|]. split; [rewrite Hl; reflexivity|].
  split; [rewrite Hr; reflexivity|exact Hre].
Defined.

Lemma loadBlock_input (e e1 : SegmentTermsEnum) (p : Z) (err : option error) :
  loadBlock e p = Ok (e1, err) → is_Some (e_in e1).
Proof.
  unfold loadBlock. intros H.
  apply bind_Ok in H as (e0 & Hinit & H).
  assert (Hin : is_Some (e_in e0)).
  { unfold initIndexInput in Hinit. destruct (e_in e) eqn:E.
    - injection Hinit as <-. rewrite E. eexists; reflexivity.
    - destruct (owner _); [|discriminate]. injection Hinit as <-.
      eexists; reflexivity. }
  assert (Hexit : ∀ i f, is_Some (e_in (setFrame (set_e_in (Some i) e0) p f))).
  { intros i f. destruct (setFrame_fields (set_e_in (Some i) e0) p f) as [-> _].
    eexists; reflexivity. }
  ok_inv H; injection H as <- _; first [apply Hexit|exact Hin].
Qed.

(** X14.  A block is read once.  When [loadBlock] has returned and left
    the frame loaded ([nextEnt] other than -1), a second [loadBlock] on
    the frame returns at once: the cursor, the frame and the input of the
    terms file, with the record of its reads, are as the first call left
    them. *)
Theorem loadBlock_twice (e e1 : SegmentTermsEnum) (p : Z) (err : option error) :
  loadBlock e p = Ok (e1, err) →
  nextEnt (frameAt e1 p) ≠ -1 →
  loadBlock e1 p = Ok (e1, None).
Proof.
  intros H Hloaded. apply loadBlock_input in H as [i Hi].
  unfold loadBlock, initIndexInput. rewrite Hi. cbn [mbind outcome_bind].
  destruct (Z.eqb_spec (nextEnt (frameAt e1 p)) (-1)); [contradiction|].
  reflexivity.
Qed.

Lemma loadBlock_twice_witness :
  loadBlock ex_pushed 0 = Ok (ex_block_loaded, None)
  ∧ entCount (frameAt ex_block_loaded 0) = 2
  ∧ loadBlock ex_block_loaded 0 = Ok (ex_block_loaded, None).
Proof.
  assert (H : loadBlock ex_pushed 0 = Ok (ex_block_loaded, None))
    by (vm_compute; reflexivity).
  split; [exact H|]. split; [reflexivity|].
  apply (loadBlock_twice ex_pushed ex_block_loaded 0 None H).
  vm_compute. discriminate.
Defined.
